(** * Sentinel OSINT: the scoring and hardening engine ([SentinelCore] of [main.py])

    The engine scores a text for exposed contact data ([simulate_adversary]) and
    rewrites it with placeholders ([nlp_harden], [fallback_harden]).  It is written
    with Python's [re] module, [str.lower] and [str.upper]; this development embeds
    those library operations as CPython 3.11 (Unicode 14.0) computes them, then the
    three methods of the class, and states the behaviour of the engine over them.

    A Python [str] is a sequence of Unicode code points: a [text] is a [list N]. *)

From Stdlib Require Import String Ascii NArith ZArith List Bool Lia.
Import ListNotations.

Definition char : Type := N.
Definition text : Type := list char.

(** The code points of an ASCII literal of the source. *)
Definition cps (s : string) : text := map N_of_ascii (list_ascii_of_string s).

Fixpoint text_eqb (a b : text) : bool :=
  match a, b with
  | [], [] => true
  | x :: a', y :: b' => N.eqb x y && text_eqb a' b'
  | _, _ => false
  end.

(** ** The Unicode database of the interpreter *)

Module Unicode.

Open Scope N_scope.

(** Code points with [Py_UNICODE_ISDECIMAL] (general category Nd), as inclusive ranges. *)
Definition decimal_ranges : list (N * N) :=
  [
    (0x30, 0x39); (0x660, 0x669); (0x6F0, 0x6F9); (0x7C0, 0x7C9); (0x966, 0x96F); (0x9E6, 0x9EF);
    (0xA66, 0xA6F); (0xAE6, 0xAEF); (0xB66, 0xB6F); (0xBE6, 0xBEF); (0xC66, 0xC6F);
    (0xCE6, 0xCEF); (0xD66, 0xD6F); (0xDE6, 0xDEF); (0xE50, 0xE59); (0xED0, 0xED9);
    (0xF20, 0xF29); (0x1040, 0x1049); (0x1090, 0x1099); (0x17E0, 0x17E9); (0x1810, 0x1819);
    (0x1946, 0x194F); (0x19D0, 0x19D9); (0x1A80, 0x1A89); (0x1A90, 0x1A99); (0x1B50, 0x1B59);
    (0x1BB0, 0x1BB9); (0x1C40, 0x1C49); (0x1C50, 0x1C59); (0xA620, 0xA629); (0xA8D0, 0xA8D9);
    (0xA900, 0xA909); (0xA9D0, 0xA9D9); (0xA9F0, 0xA9F9); (0xAA50, 0xAA59); (0xABF0, 0xABF9);
    (0xFF10, 0xFF19); (0x104A0, 0x104A9); (0x10D30, 0x10D39); (0x11066, 0x1106F);
    (0x110F0, 0x110F9); (0x11136, 0x1113F); (0x111D0, 0x111D9); (0x112F0, 0x112F9);
    (0x11450, 0x11459); (0x114D0, 0x114D9); (0x11650, 0x11659); (0x116C0, 0x116C9);
    (0x11730, 0x11739); (0x118E0, 0x118E9); (0x11950, 0x11959); (0x11C50, 0x11C59);
    (0x11D50, 0x11D59); (0x11DA0, 0x11DA9); (0x16A60, 0x16A69); (0x16AC0, 0x16AC9);
    (0x16B50, 0x16B59); (0x1D7CE, 0x1D7FF); (0x1E140, 0x1E149); (0x1E2F0, 0x1E2F9);
    (0x1E950, 0x1E959); (0x1FBF0, 0x1FBF9)
  ].

(** Code points with [Py_UNICODE_ISSPACE], as inclusive ranges. *)
Definition space_ranges : list (N * N) :=
  [
    (0x9, 0xD); (0x1C, 0x20); (0x85, 0x85); (0xA0, 0xA0); (0x1680, 0x1680); (0x2000, 0x200A);
    (0x2028, 0x2029); (0x202F, 0x202F); (0x205F, 0x205F); (0x3000, 0x3000)
  ].

(** Simple lower-case mapping ([Py_UNICODE_TOLOWER]).  An entry [(lo, hi, step, t)] sends
    every [c] in [lo..hi] with [(c - lo) mod step = 0] to [t + (c - lo)]; other code points
    are their own image. *)
Definition tolower_table : list (N * N * N * N) :=
  [
    (0x41, 0x5A, 1, 0x61); (0xC0, 0xD6, 1, 0xE0); (0xD8, 0xDE, 1, 0xF8); (0x100, 0x12E, 2, 0x101);
    (0x130, 0x130, 1, 0x69); (0x132, 0x136, 2, 0x133); (0x139, 0x147, 2, 0x13A);
    (0x14A, 0x176, 2, 0x14B); (0x178, 0x178, 1, 0xFF); (0x179, 0x17D, 2, 0x17A);
    (0x181, 0x181, 1, 0x253); (0x182, 0x184, 2, 0x183); (0x186, 0x186, 1, 0x254);
    (0x187, 0x187, 1, 0x188); (0x189, 0x18A, 1, 0x256); (0x18B, 0x18B, 1, 0x18C);
    (0x18E, 0x18E, 1, 0x1DD); (0x18F, 0x18F, 1, 0x259); (0x190, 0x190, 1, 0x25B);
    (0x191, 0x191, 1, 0x192); (0x193, 0x193, 1, 0x260); (0x194, 0x194, 1, 0x263);
    (0x196, 0x196, 1, 0x269); (0x197, 0x197, 1, 0x268); (0x198, 0x198, 1, 0x199);
    (0x19C, 0x19C, 1, 0x26F); (0x19D, 0x19D, 1, 0x272); (0x19F, 0x19F, 1, 0x275);
    (0x1A0, 0x1A4, 2, 0x1A1); (0x1A6, 0x1A6, 1, 0x280); (0x1A7, 0x1A7, 1, 0x1A8);
    (0x1A9, 0x1A9, 1, 0x283); (0x1AC, 0x1AC, 1, 0x1AD); (0x1AE, 0x1AE, 1, 0x288);
    (0x1AF, 0x1AF, 1, 0x1B0); (0x1B1, 0x1B2, 1, 0x28A); (0x1B3, 0x1B5, 2, 0x1B4);
    (0x1B7, 0x1B7, 1, 0x292); (0x1B8, 0x1B8, 1, 0x1B9); (0x1BC, 0x1BC, 1, 0x1BD);
    (0x1C4, 0x1C4, 1, 0x1C6); (0x1C5, 0x1C5, 1, 0x1C6); (0x1C7, 0x1C7, 1, 0x1C9);
    (0x1C8, 0x1C8, 1, 0x1C9); (0x1CA, 0x1CA, 1, 0x1CC); (0x1CB, 0x1DB, 2, 0x1CC);
    (0x1DE, 0x1EE, 2, 0x1DF); (0x1F1, 0x1F1, 1, 0x1F3); (0x1F2, 0x1F4, 2, 0x1F3);
    (0x1F6, 0x1F6, 1, 0x195); (0x1F7, 0x1F7, 1, 0x1BF); (0x1F8, 0x21E, 2, 0x1F9);
    (0x220, 0x220, 1, 0x19E); (0x222, 0x232, 2, 0x223); (0x23A, 0x23A, 1, 0x2C65);
    (0x23B, 0x23B, 1, 0x23C); (0x23D, 0x23D, 1, 0x19A); (0x23E, 0x23E, 1, 0x2C66);
    (0x241, 0x241, 1, 0x242); (0x243, 0x243, 1, 0x180); (0x244, 0x244, 1, 0x289);
    (0x245, 0x245, 1, 0x28C); (0x246, 0x24E, 2, 0x247); (0x370, 0x372, 2, 0x371);
    (0x376, 0x376, 1, 0x377); (0x37F, 0x37F, 1, 0x3F3); (0x386, 0x386, 1, 0x3AC);
    (0x388, 0x38A, 1, 0x3AD); (0x38C, 0x38C, 1, 0x3CC); (0x38E, 0x38F, 1, 0x3CD);
    (0x391, 0x3A1, 1, 0x3B1); (0x3A3, 0x3AB, 1, 0x3C3); (0x3CF, 0x3CF, 1, 0x3D7);
    (0x3D8, 0x3EE, 2, 0x3D9); (0x3F4, 0x3F4, 1, 0x3B8); (0x3F7, 0x3F7, 1, 0x3F8);
    (0x3F9, 0x3F9, 1, 0x3F2); (0x3FA, 0x3FA, 1, 0x3FB); (0x3FD, 0x3FF, 1, 0x37B);
    (0x400, 0x40F, 1, 0x450); (0x410, 0x42F, 1, 0x430); (0x460, 0x480, 2, 0x461);
    (0x48A, 0x4BE, 2, 0x48B); (0x4C0, 0x4C0, 1, 0x4CF); (0x4C1, 0x4CD, 2, 0x4C2);
    (0x4D0, 0x52E, 2, 0x4D1); (0x531, 0x556, 1, 0x561); (0x10A0, 0x10C5, 1, 0x2D00);
    (0x10C7, 0x10C7, 1, 0x2D27); (0x10CD, 0x10CD, 1, 0x2D2D); (0x13A0, 0x13EF, 1, 0xAB70);
    (0x13F0, 0x13F5, 1, 0x13F8); (0x1C90, 0x1CBA, 1, 0x10D0); (0x1CBD, 0x1CBF, 1, 0x10FD);
    (0x1E00, 0x1E94, 2, 0x1E01); (0x1E9E, 0x1E9E, 1, 0xDF); (0x1EA0, 0x1EFE, 2, 0x1EA1);
    (0x1F08, 0x1F0F, 1, 0x1F00); (0x1F18, 0x1F1D, 1, 0x1F10); (0x1F28, 0x1F2F, 1, 0x1F20);
    (0x1F38, 0x1F3F, 1, 0x1F30); (0x1F48, 0x1F4D, 1, 0x1F40); (0x1F59, 0x1F5F, 2, 0x1F51);
    (0x1F68, 0x1F6F, 1, 0x1F60); (0x1F88, 0x1F8F, 1, 0x1F80); (0x1F98, 0x1F9F, 1, 0x1F90);
    (0x1FA8, 0x1FAF, 1, 0x1FA0); (0x1FB8, 0x1FB9, 1, 0x1FB0); (0x1FBA, 0x1FBB, 1, 0x1F70);
    (0x1FBC, 0x1FBC, 1, 0x1FB3); (0x1FC8, 0x1FCB, 1, 0x1F72); (0x1FCC, 0x1FCC, 1, 0x1FC3);
    (0x1FD8, 0x1FD9, 1, 0x1FD0); (0x1FDA, 0x1FDB, 1, 0x1F76); (0x1FE8, 0x1FE9, 1, 0x1FE0);
    (0x1FEA, 0x1FEB, 1, 0x1F7A); (0x1FEC, 0x1FEC, 1, 0x1FE5); (0x1FF8, 0x1FF9, 1, 0x1F78);
    (0x1FFA, 0x1FFB, 1, 0x1F7C); (0x1FFC, 0x1FFC, 1, 0x1FF3); (0x2126, 0x2126, 1, 0x3C9);
    (0x212A, 0x212A, 1, 0x6B); (0x212B, 0x212B, 1, 0xE5); (0x2132, 0x2132, 1, 0x214E);
    (0x2160, 0x216F, 1, 0x2170); (0x2183, 0x2183, 1, 0x2184); (0x24B6, 0x24CF, 1, 0x24D0);
    (0x2C00, 0x2C2F, 1, 0x2C30); (0x2C60, 0x2C60, 1, 0x2C61); (0x2C62, 0x2C62, 1, 0x26B);
    (0x2C63, 0x2C63, 1, 0x1D7D); (0x2C64, 0x2C64, 1, 0x27D); (0x2C67, 0x2C6B, 2, 0x2C68);
    (0x2C6D, 0x2C6D, 1, 0x251); (0x2C6E, 0x2C6E, 1, 0x271); (0x2C6F, 0x2C6F, 1, 0x250);
    (0x2C70, 0x2C70, 1, 0x252); (0x2C72, 0x2C72, 1, 0x2C73); (0x2C75, 0x2C75, 1, 0x2C76);
    (0x2C7E, 0x2C7F, 1, 0x23F); (0x2C80, 0x2CE2, 2, 0x2C81); (0x2CEB, 0x2CED, 2, 0x2CEC);
    (0x2CF2, 0x2CF2, 1, 0x2CF3); (0xA640, 0xA66C, 2, 0xA641); (0xA680, 0xA69A, 2, 0xA681);
    (0xA722, 0xA72E, 2, 0xA723); (0xA732, 0xA76E, 2, 0xA733); (0xA779, 0xA77B, 2, 0xA77A);
    (0xA77D, 0xA77D, 1, 0x1D79); (0xA77E, 0xA786, 2, 0xA77F); (0xA78B, 0xA78B, 1, 0xA78C);
    (0xA78D, 0xA78D, 1, 0x265); (0xA790, 0xA792, 2, 0xA791); (0xA796, 0xA7A8, 2, 0xA797);
    (0xA7AA, 0xA7AA, 1, 0x266); (0xA7AB, 0xA7AB, 1, 0x25C); (0xA7AC, 0xA7AC, 1, 0x261);
    (0xA7AD, 0xA7AD, 1, 0x26C); (0xA7AE, 0xA7AE, 1, 0x26A); (0xA7B0, 0xA7B0, 1, 0x29E);
    (0xA7B1, 0xA7B1, 1, 0x287); (0xA7B2, 0xA7B2, 1, 0x29D); (0xA7B3, 0xA7B3, 1, 0xAB53);
    (0xA7B4, 0xA7C2, 2, 0xA7B5); (0xA7C4, 0xA7C4, 1, 0xA794); (0xA7C5, 0xA7C5, 1, 0x282);
    (0xA7C6, 0xA7C6, 1, 0x1D8E); (0xA7C7, 0xA7C9, 2, 0xA7C8); (0xA7D0, 0xA7D0, 1, 0xA7D1);
    (0xA7D6, 0xA7D8, 2, 0xA7D7); (0xA7F5, 0xA7F5, 1, 0xA7F6); (0xFF21, 0xFF3A, 1, 0xFF41);
    (0x10400, 0x10427, 1, 0x10428); (0x104B0, 0x104D3, 1, 0x104D8);
    (0x10570, 0x1057A, 1, 0x10597); (0x1057C, 0x1058A, 1, 0x105A3);
    (0x1058C, 0x10592, 1, 0x105B3); (0x10594, 0x10595, 1, 0x105BB);
    (0x10C80, 0x10CB2, 1, 0x10CC0); (0x118A0, 0x118BF, 1, 0x118C0);
    (0x16E40, 0x16E5F, 1, 0x16E60); (0x1E900, 0x1E921, 1, 0x1E922)
  ].

(** Code points whose full lower-casing is not the simple one. *)
Definition lower_special : list (N * list N) :=
  [
    (0x130, [0x69; 0x307])
  ].

(** Single-character results of full upper-casing, in the format of [tolower_table]. *)
Definition upper_single_table : list (N * N * N * N) :=
  [
    (0x61, 0x7A, 1, 0x41); (0xB5, 0xB5, 1, 0x39C); (0xE0, 0xF6, 1, 0xC0); (0xF8, 0xFE, 1, 0xD8);
    (0xFF, 0xFF, 1, 0x178); (0x101, 0x12F, 2, 0x100); (0x131, 0x131, 1, 0x49);
    (0x133, 0x137, 2, 0x132); (0x13A, 0x148, 2, 0x139); (0x14B, 0x177, 2, 0x14A);
    (0x17A, 0x17E, 2, 0x179); (0x17F, 0x17F, 1, 0x53); (0x180, 0x180, 1, 0x243);
    (0x183, 0x185, 2, 0x182); (0x188, 0x188, 1, 0x187); (0x18C, 0x18C, 1, 0x18B);
    (0x192, 0x192, 1, 0x191); (0x195, 0x195, 1, 0x1F6); (0x199, 0x199, 1, 0x198);
    (0x19A, 0x19A, 1, 0x23D); (0x19E, 0x19E, 1, 0x220); (0x1A1, 0x1A5, 2, 0x1A0);
    (0x1A8, 0x1A8, 1, 0x1A7); (0x1AD, 0x1AD, 1, 0x1AC); (0x1B0, 0x1B0, 1, 0x1AF);
    (0x1B4, 0x1B6, 2, 0x1B3); (0x1B9, 0x1B9, 1, 0x1B8); (0x1BD, 0x1BD, 1, 0x1BC);
    (0x1BF, 0x1BF, 1, 0x1F7); (0x1C5, 0x1C5, 1, 0x1C4); (0x1C6, 0x1C6, 1, 0x1C4);
    (0x1C8, 0x1C8, 1, 0x1C7); (0x1C9, 0x1C9, 1, 0x1C7); (0x1CB, 0x1CB, 1, 0x1CA);
    (0x1CC, 0x1CC, 1, 0x1CA); (0x1CE, 0x1DC, 2, 0x1CD); (0x1DD, 0x1DD, 1, 0x18E);
    (0x1DF, 0x1EF, 2, 0x1DE); (0x1F2, 0x1F2, 1, 0x1F1); (0x1F3, 0x1F3, 1, 0x1F1);
    (0x1F5, 0x1F5, 1, 0x1F4); (0x1F9, 0x21F, 2, 0x1F8); (0x223, 0x233, 2, 0x222);
    (0x23C, 0x23C, 1, 0x23B); (0x23F, 0x240, 1, 0x2C7E); (0x242, 0x242, 1, 0x241);
    (0x247, 0x24F, 2, 0x246); (0x250, 0x250, 1, 0x2C6F); (0x251, 0x251, 1, 0x2C6D);
    (0x252, 0x252, 1, 0x2C70); (0x253, 0x253, 1, 0x181); (0x254, 0x254, 1, 0x186);
    (0x256, 0x257, 1, 0x189); (0x259, 0x259, 1, 0x18F); (0x25B, 0x25B, 1, 0x190);
    (0x25C, 0x25C, 1, 0xA7AB); (0x260, 0x260, 1, 0x193); (0x261, 0x261, 1, 0xA7AC);
    (0x263, 0x263, 1, 0x194); (0x265, 0x265, 1, 0xA78D); (0x266, 0x266, 1, 0xA7AA);
    (0x268, 0x268, 1, 0x197); (0x269, 0x269, 1, 0x196); (0x26A, 0x26A, 1, 0xA7AE);
    (0x26B, 0x26B, 1, 0x2C62); (0x26C, 0x26C, 1, 0xA7AD); (0x26F, 0x26F, 1, 0x19C);
    (0x271, 0x271, 1, 0x2C6E); (0x272, 0x272, 1, 0x19D); (0x275, 0x275, 1, 0x19F);
    (0x27D, 0x27D, 1, 0x2C64); (0x280, 0x280, 1, 0x1A6); (0x282, 0x282, 1, 0xA7C5);
    (0x283, 0x283, 1, 0x1A9); (0x287, 0x287, 1, 0xA7B1); (0x288, 0x288, 1, 0x1AE);
    (0x289, 0x289, 1, 0x244); (0x28A, 0x28B, 1, 0x1B1); (0x28C, 0x28C, 1, 0x245);
    (0x292, 0x292, 1, 0x1B7); (0x29D, 0x29D, 1, 0xA7B2); (0x29E, 0x29E, 1, 0xA7B0);
    (0x345, 0x345, 1, 0x399); (0x371, 0x373, 2, 0x370); (0x377, 0x377, 1, 0x376);
    (0x37B, 0x37D, 1, 0x3FD); (0x3AC, 0x3AC, 1, 0x386); (0x3AD, 0x3AF, 1, 0x388);
    (0x3B1, 0x3C1, 1, 0x391); (0x3C2, 0x3C2, 1, 0x3A3); (0x3C3, 0x3CB, 1, 0x3A3);
    (0x3CC, 0x3CC, 1, 0x38C); (0x3CD, 0x3CE, 1, 0x38E); (0x3D0, 0x3D0, 1, 0x392);
    (0x3D1, 0x3D1, 1, 0x398); (0x3D5, 0x3D5, 1, 0x3A6); (0x3D6, 0x3D6, 1, 0x3A0);
    (0x3D7, 0x3D7, 1, 0x3CF); (0x3D9, 0x3EF, 2, 0x3D8); (0x3F0, 0x3F0, 1, 0x39A);
    (0x3F1, 0x3F1, 1, 0x3A1); (0x3F2, 0x3F2, 1, 0x3F9); (0x3F3, 0x3F3, 1, 0x37F);
    (0x3F5, 0x3F5, 1, 0x395); (0x3F8, 0x3F8, 1, 0x3F7); (0x3FB, 0x3FB, 1, 0x3FA);
    (0x430, 0x44F, 1, 0x410); (0x450, 0x45F, 1, 0x400); (0x461, 0x481, 2, 0x460);
    (0x48B, 0x4BF, 2, 0x48A); (0x4C2, 0x4CE, 2, 0x4C1); (0x4CF, 0x4CF, 1, 0x4C0);
    (0x4D1, 0x52F, 2, 0x4D0); (0x561, 0x586, 1, 0x531); (0x10D0, 0x10FA, 1, 0x1C90);
    (0x10FD, 0x10FF, 1, 0x1CBD); (0x13F8, 0x13FD, 1, 0x13F0); (0x1C80, 0x1C80, 1, 0x412);
    (0x1C81, 0x1C81, 1, 0x414); (0x1C82, 0x1C82, 1, 0x41E); (0x1C83, 0x1C84, 1, 0x421);
    (0x1C85, 0x1C85, 1, 0x422); (0x1C86, 0x1C86, 1, 0x42A); (0x1C87, 0x1C87, 1, 0x462);
    (0x1C88, 0x1C88, 1, 0xA64A); (0x1D79, 0x1D79, 1, 0xA77D); (0x1D7D, 0x1D7D, 1, 0x2C63);
    (0x1D8E, 0x1D8E, 1, 0xA7C6); (0x1E01, 0x1E95, 2, 0x1E00); (0x1E9B, 0x1E9B, 1, 0x1E60);
    (0x1EA1, 0x1EFF, 2, 0x1EA0); (0x1F00, 0x1F07, 1, 0x1F08); (0x1F10, 0x1F15, 1, 0x1F18);
    (0x1F20, 0x1F27, 1, 0x1F28); (0x1F30, 0x1F37, 1, 0x1F38); (0x1F40, 0x1F45, 1, 0x1F48);
    (0x1F51, 0x1F57, 2, 0x1F59); (0x1F60, 0x1F67, 1, 0x1F68); (0x1F70, 0x1F71, 1, 0x1FBA);
    (0x1F72, 0x1F75, 1, 0x1FC8); (0x1F76, 0x1F77, 1, 0x1FDA); (0x1F78, 0x1F79, 1, 0x1FF8);
    (0x1F7A, 0x1F7B, 1, 0x1FEA); (0x1F7C, 0x1F7D, 1, 0x1FFA); (0x1FB0, 0x1FB1, 1, 0x1FB8);
    (0x1FBE, 0x1FBE, 1, 0x399); (0x1FD0, 0x1FD1, 1, 0x1FD8); (0x1FE0, 0x1FE1, 1, 0x1FE8);
    (0x1FE5, 0x1FE5, 1, 0x1FEC); (0x214E, 0x214E, 1, 0x2132); (0x2170, 0x217F, 1, 0x2160);
    (0x2184, 0x2184, 1, 0x2183); (0x24D0, 0x24E9, 1, 0x24B6); (0x2C30, 0x2C5F, 1, 0x2C00);
    (0x2C61, 0x2C61, 1, 0x2C60); (0x2C65, 0x2C65, 1, 0x23A); (0x2C66, 0x2C66, 1, 0x23E);
    (0x2C68, 0x2C6C, 2, 0x2C67); (0x2C73, 0x2C73, 1, 0x2C72); (0x2C76, 0x2C76, 1, 0x2C75);
    (0x2C81, 0x2CE3, 2, 0x2C80); (0x2CEC, 0x2CEE, 2, 0x2CEB); (0x2CF3, 0x2CF3, 1, 0x2CF2);
    (0x2D00, 0x2D25, 1, 0x10A0); (0x2D27, 0x2D27, 1, 0x10C7); (0x2D2D, 0x2D2D, 1, 0x10CD);
    (0xA641, 0xA66D, 2, 0xA640); (0xA681, 0xA69B, 2, 0xA680); (0xA723, 0xA72F, 2, 0xA722);
    (0xA733, 0xA76F, 2, 0xA732); (0xA77A, 0xA77C, 2, 0xA779); (0xA77F, 0xA787, 2, 0xA77E);
    (0xA78C, 0xA78C, 1, 0xA78B); (0xA791, 0xA793, 2, 0xA790); (0xA794, 0xA794, 1, 0xA7C4);
    (0xA797, 0xA7A9, 2, 0xA796); (0xA7B5, 0xA7C3, 2, 0xA7B4); (0xA7C8, 0xA7CA, 2, 0xA7C7);
    (0xA7D1, 0xA7D1, 1, 0xA7D0); (0xA7D7, 0xA7D9, 2, 0xA7D6); (0xA7F6, 0xA7F6, 1, 0xA7F5);
    (0xAB53, 0xAB53, 1, 0xA7B3); (0xAB70, 0xABBF, 1, 0x13A0); (0xFF41, 0xFF5A, 1, 0xFF21);
    (0x10428, 0x1044F, 1, 0x10400); (0x104D8, 0x104FB, 1, 0x104B0);
    (0x10597, 0x105A1, 1, 0x10570); (0x105A3, 0x105B1, 1, 0x1057C);
    (0x105B3, 0x105B9, 1, 0x1058C); (0x105BB, 0x105BC, 1, 0x10594);
    (0x10CC0, 0x10CF2, 1, 0x10C80); (0x118C0, 0x118DF, 1, 0x118A0);
    (0x16E60, 0x16E7F, 1, 0x16E40); (0x1E922, 0x1E943, 1, 0x1E900)
  ].

(** Code points whose full upper-casing has several characters. *)
Definition upper_special : list (N * list N) :=
  [
    (0xDF, [0x53; 0x53]); (0x149, [0x2BC; 0x4E]); (0x1F0, [0x4A; 0x30C]);
    (0x390, [0x399; 0x308; 0x301]); (0x3B0, [0x3A5; 0x308; 0x301]); (0x587, [0x535; 0x552]);
    (0x1E96, [0x48; 0x331]); (0x1E97, [0x54; 0x308]); (0x1E98, [0x57; 0x30A]);
    (0x1E99, [0x59; 0x30A]); (0x1E9A, [0x41; 0x2BE]); (0x1F50, [0x3A5; 0x313]);
    (0x1F52, [0x3A5; 0x313; 0x300]); (0x1F54, [0x3A5; 0x313; 0x301]);
    (0x1F56, [0x3A5; 0x313; 0x342]); (0x1F80, [0x1F08; 0x399]); (0x1F81, [0x1F09; 0x399]);
    (0x1F82, [0x1F0A; 0x399]); (0x1F83, [0x1F0B; 0x399]); (0x1F84, [0x1F0C; 0x399]);
    (0x1F85, [0x1F0D; 0x399]); (0x1F86, [0x1F0E; 0x399]); (0x1F87, [0x1F0F; 0x399]);
    (0x1F88, [0x1F08; 0x399]); (0x1F89, [0x1F09; 0x399]); (0x1F8A, [0x1F0A; 0x399]);
    (0x1F8B, [0x1F0B; 0x399]); (0x1F8C, [0x1F0C; 0x399]); (0x1F8D, [0x1F0D; 0x399]);
    (0x1F8E, [0x1F0E; 0x399]); (0x1F8F, [0x1F0F; 0x399]); (0x1F90, [0x1F28; 0x399]);
    (0x1F91, [0x1F29; 0x399]); (0x1F92, [0x1F2A; 0x399]); (0x1F93, [0x1F2B; 0x399]);
    (0x1F94, [0x1F2C; 0x399]); (0x1F95, [0x1F2D; 0x399]); (0x1F96, [0x1F2E; 0x399]);
    (0x1F97, [0x1F2F; 0x399]); (0x1F98, [0x1F28; 0x399]); (0x1F99, [0x1F29; 0x399]);
    (0x1F9A, [0x1F2A; 0x399]); (0x1F9B, [0x1F2B; 0x399]); (0x1F9C, [0x1F2C; 0x399]);
    (0x1F9D, [0x1F2D; 0x399]); (0x1F9E, [0x1F2E; 0x399]); (0x1F9F, [0x1F2F; 0x399]);
    (0x1FA0, [0x1F68; 0x399]); (0x1FA1, [0x1F69; 0x399]); (0x1FA2, [0x1F6A; 0x399]);
    (0x1FA3, [0x1F6B; 0x399]); (0x1FA4, [0x1F6C; 0x399]); (0x1FA5, [0x1F6D; 0x399]);
    (0x1FA6, [0x1F6E; 0x399]); (0x1FA7, [0x1F6F; 0x399]); (0x1FA8, [0x1F68; 0x399]);
    (0x1FA9, [0x1F69; 0x399]); (0x1FAA, [0x1F6A; 0x399]); (0x1FAB, [0x1F6B; 0x399]);
    (0x1FAC, [0x1F6C; 0x399]); (0x1FAD, [0x1F6D; 0x399]); (0x1FAE, [0x1F6E; 0x399]);
    (0x1FAF, [0x1F6F; 0x399]); (0x1FB2, [0x1FBA; 0x399]); (0x1FB3, [0x391; 0x399]);
    (0x1FB4, [0x386; 0x399]); (0x1FB6, [0x391; 0x342]); (0x1FB7, [0x391; 0x342; 0x399]);
    (0x1FBC, [0x391; 0x399]); (0x1FC2, [0x1FCA; 0x399]); (0x1FC3, [0x397; 0x399]);
    (0x1FC4, [0x389; 0x399]); (0x1FC6, [0x397; 0x342]); (0x1FC7, [0x397; 0x342; 0x399]);
    (0x1FCC, [0x397; 0x399]); (0x1FD2, [0x399; 0x308; 0x300]); (0x1FD3, [0x399; 0x308; 0x301]);
    (0x1FD6, [0x399; 0x342]); (0x1FD7, [0x399; 0x308; 0x342]); (0x1FE2, [0x3A5; 0x308; 0x300]);
    (0x1FE3, [0x3A5; 0x308; 0x301]); (0x1FE4, [0x3A1; 0x313]); (0x1FE6, [0x3A5; 0x342]);
    (0x1FE7, [0x3A5; 0x308; 0x342]); (0x1FF2, [0x1FFA; 0x399]); (0x1FF3, [0x3A9; 0x399]);
    (0x1FF4, [0x38F; 0x399]); (0x1FF6, [0x3A9; 0x342]); (0x1FF7, [0x3A9; 0x342; 0x399]);
    (0x1FFC, [0x3A9; 0x399]); (0xFB00, [0x46; 0x46]); (0xFB01, [0x46; 0x49]);
    (0xFB02, [0x46; 0x4C]); (0xFB03, [0x46; 0x46; 0x49]); (0xFB04, [0x46; 0x46; 0x4C]);
    (0xFB05, [0x53; 0x54]); (0xFB06, [0x53; 0x54]); (0xFB13, [0x544; 0x546]);
    (0xFB14, [0x544; 0x535]); (0xFB15, [0x544; 0x53B]); (0xFB16, [0x54E; 0x546]);
    (0xFB17, [0x544; 0x53D])
  ].

(** Code points for which [_sre.unicode_iscased] holds. *)
Definition sre_cased_ranges : list (N * N) :=
  [
    (0x41, 0x5A); (0x61, 0x7A); (0xB5, 0xB5); (0xC0, 0xD6); (0xD8, 0xF6); (0xF8, 0x137);
    (0x139, 0x18C); (0x18E, 0x19A); (0x19C, 0x1A9); (0x1AC, 0x1B9); (0x1BC, 0x1BD);
    (0x1BF, 0x1BF); (0x1C4, 0x220); (0x222, 0x233); (0x23A, 0x254); (0x256, 0x257);
    (0x259, 0x259); (0x25B, 0x25C); (0x260, 0x261); (0x263, 0x263); (0x265, 0x266);
    (0x268, 0x26C); (0x26F, 0x26F); (0x271, 0x272); (0x275, 0x275); (0x27D, 0x27D);
    (0x280, 0x280); (0x282, 0x283); (0x287, 0x28C); (0x292, 0x292); (0x29D, 0x29E);
    (0x345, 0x345); (0x370, 0x373); (0x376, 0x377); (0x37B, 0x37D); (0x37F, 0x37F);
    (0x386, 0x386); (0x388, 0x38A); (0x38C, 0x38C); (0x38E, 0x3A1); (0x3A3, 0x3D1);
    (0x3D5, 0x3F5); (0x3F7, 0x3FB); (0x3FD, 0x481); (0x48A, 0x52F); (0x531, 0x556);
    (0x561, 0x587); (0x10A0, 0x10C5); (0x10C7, 0x10C7); (0x10CD, 0x10CD); (0x10D0, 0x10FA);
    (0x10FD, 0x10FF); (0x13A0, 0x13F5); (0x13F8, 0x13FD); (0x1C80, 0x1C88); (0x1C90, 0x1CBA);
    (0x1CBD, 0x1CBF); (0x1D79, 0x1D79); (0x1D7D, 0x1D7D); (0x1D8E, 0x1D8E); (0x1E00, 0x1E9B);
    (0x1E9E, 0x1E9E); (0x1EA0, 0x1F15); (0x1F18, 0x1F1D); (0x1F20, 0x1F45); (0x1F48, 0x1F4D);
    (0x1F50, 0x1F57); (0x1F59, 0x1F59); (0x1F5B, 0x1F5B); (0x1F5D, 0x1F5D); (0x1F5F, 0x1F7D);
    (0x1F80, 0x1FB4); (0x1FB6, 0x1FBC); (0x1FBE, 0x1FBE); (0x1FC2, 0x1FC4); (0x1FC6, 0x1FCC);
    (0x1FD0, 0x1FD3); (0x1FD6, 0x1FDB); (0x1FE0, 0x1FEC); (0x1FF2, 0x1FF4); (0x1FF6, 0x1FFC);
    (0x2126, 0x2126); (0x212A, 0x212B); (0x2132, 0x2132); (0x214E, 0x214E); (0x2160, 0x217F);
    (0x2183, 0x2184); (0x24B6, 0x24E9); (0x2C00, 0x2C70); (0x2C72, 0x2C73); (0x2C75, 0x2C76);
    (0x2C7E, 0x2CE3); (0x2CEB, 0x2CEE); (0x2CF2, 0x2CF3); (0x2D00, 0x2D25); (0x2D27, 0x2D27);
    (0x2D2D, 0x2D2D); (0xA640, 0xA66D); (0xA680, 0xA69B); (0xA722, 0xA72F); (0xA732, 0xA76F);
    (0xA779, 0xA787); (0xA78B, 0xA78D); (0xA790, 0xA794); (0xA796, 0xA7AE); (0xA7B0, 0xA7CA);
    (0xA7D0, 0xA7D1); (0xA7D6, 0xA7D9); (0xA7F5, 0xA7F6); (0xAB53, 0xAB53); (0xAB70, 0xABBF);
    (0xFB00, 0xFB06); (0xFB13, 0xFB17); (0xFF21, 0xFF3A); (0xFF41, 0xFF5A); (0x10400, 0x1044F);
    (0x104B0, 0x104D3); (0x104D8, 0x104FB); (0x10570, 0x1057A); (0x1057C, 0x1058A);
    (0x1058C, 0x10592); (0x10594, 0x10595); (0x10597, 0x105A1); (0x105A3, 0x105B1);
    (0x105B3, 0x105B9); (0x105BB, 0x105BC); (0x10C80, 0x10CB2); (0x10CC0, 0x10CF2);
    (0x118A0, 0x118DF); (0x16E40, 0x16E7F); (0x1E900, 0x1E943)
  ].

(** Code points with the Cased property ([_PyUnicode_IsCased]). *)
Definition cased_ranges : list (N * N) :=
  [
    (0x41, 0x5A); (0x61, 0x7A); (0xAA, 0xAA); (0xB5, 0xB5); (0xBA, 0xBA); (0xC0, 0xD6);
    (0xD8, 0xF6); (0xF8, 0x1BA); (0x1BC, 0x1BF); (0x1C4, 0x293); (0x295, 0x2B8); (0x2C0, 0x2C1);
    (0x2E0, 0x2E4); (0x345, 0x345); (0x370, 0x373); (0x376, 0x377); (0x37A, 0x37D);
    (0x37F, 0x37F); (0x386, 0x386); (0x388, 0x38A); (0x38C, 0x38C); (0x38E, 0x3A1);
    (0x3A3, 0x3F5); (0x3F7, 0x481); (0x48A, 0x52F); (0x531, 0x556); (0x560, 0x588);
    (0x10A0, 0x10C5); (0x10C7, 0x10C7); (0x10CD, 0x10CD); (0x10D0, 0x10FA); (0x10FD, 0x10FF);
    (0x13A0, 0x13F5); (0x13F8, 0x13FD); (0x1C80, 0x1C88); (0x1C90, 0x1CBA); (0x1CBD, 0x1CBF);
    (0x1D00, 0x1DBF); (0x1E00, 0x1F15); (0x1F18, 0x1F1D); (0x1F20, 0x1F45); (0x1F48, 0x1F4D);
    (0x1F50, 0x1F57); (0x1F59, 0x1F59); (0x1F5B, 0x1F5B); (0x1F5D, 0x1F5D); (0x1F5F, 0x1F7D);
    (0x1F80, 0x1FB4); (0x1FB6, 0x1FBC); (0x1FBE, 0x1FBE); (0x1FC2, 0x1FC4); (0x1FC6, 0x1FCC);
    (0x1FD0, 0x1FD3); (0x1FD6, 0x1FDB); (0x1FE0, 0x1FEC); (0x1FF2, 0x1FF4); (0x1FF6, 0x1FFC);
    (0x2071, 0x2071); (0x207F, 0x207F); (0x2090, 0x209C); (0x2102, 0x2102); (0x2107, 0x2107);
    (0x210A, 0x2113); (0x2115, 0x2115); (0x2119, 0x211D); (0x2124, 0x2124); (0x2126, 0x2126);
    (0x2128, 0x2128); (0x212A, 0x212D); (0x212F, 0x2134); (0x2139, 0x2139); (0x213C, 0x213F);
    (0x2145, 0x2149); (0x214E, 0x214E); (0x2160, 0x217F); (0x2183, 0x2184); (0x24B6, 0x24E9);
    (0x2C00, 0x2CE4); (0x2CEB, 0x2CEE); (0x2CF2, 0x2CF3); (0x2D00, 0x2D25); (0x2D27, 0x2D27);
    (0x2D2D, 0x2D2D); (0xA640, 0xA66D); (0xA680, 0xA69D); (0xA722, 0xA787); (0xA78B, 0xA78E);
    (0xA790, 0xA7CA); (0xA7D0, 0xA7D1); (0xA7D3, 0xA7D3); (0xA7D5, 0xA7D9); (0xA7F5, 0xA7F6);
    (0xA7F8, 0xA7FA); (0xAB30, 0xAB5A); (0xAB5C, 0xAB68); (0xAB70, 0xABBF); (0xFB00, 0xFB06);
    (0xFB13, 0xFB17); (0xFF21, 0xFF3A); (0xFF41, 0xFF5A); (0x10400, 0x1044F); (0x104B0, 0x104D3);
    (0x104D8, 0x104FB); (0x10570, 0x1057A); (0x1057C, 0x1058A); (0x1058C, 0x10592);
    (0x10594, 0x10595); (0x10597, 0x105A1); (0x105A3, 0x105B1); (0x105B3, 0x105B9);
    (0x105BB, 0x105BC); (0x10780, 0x10780); (0x10783, 0x10785); (0x10787, 0x107B0);
    (0x107B2, 0x107BA); (0x10C80, 0x10CB2); (0x10CC0, 0x10CF2); (0x118A0, 0x118DF);
    (0x16E40, 0x16E7F); (0x1D400, 0x1D454); (0x1D456, 0x1D49C); (0x1D49E, 0x1D49F);
    (0x1D4A2, 0x1D4A2); (0x1D4A5, 0x1D4A6); (0x1D4A9, 0x1D4AC); (0x1D4AE, 0x1D4B9);
    (0x1D4BB, 0x1D4BB); (0x1D4BD, 0x1D4C3); (0x1D4C5, 0x1D505); (0x1D507, 0x1D50A);
    (0x1D50D, 0x1D514); (0x1D516, 0x1D51C); (0x1D51E, 0x1D539); (0x1D53B, 0x1D53E);
    (0x1D540, 0x1D544); (0x1D546, 0x1D546); (0x1D54A, 0x1D550); (0x1D552, 0x1D6A5);
    (0x1D6A8, 0x1D6C0); (0x1D6C2, 0x1D6DA); (0x1D6DC, 0x1D6FA); (0x1D6FC, 0x1D714);
    (0x1D716, 0x1D734); (0x1D736, 0x1D74E); (0x1D750, 0x1D76E); (0x1D770, 0x1D788);
    (0x1D78A, 0x1D7A8); (0x1D7AA, 0x1D7C2); (0x1D7C4, 0x1D7CB); (0x1DF00, 0x1DF09);
    (0x1DF0B, 0x1DF1E); (0x1E900, 0x1E943); (0x1F130, 0x1F149); (0x1F150, 0x1F169);
    (0x1F170, 0x1F189)
  ].

(** Code points with the Case_Ignorable property ([_PyUnicode_IsCaseIgnorable]). *)
Definition case_ignorable_ranges : list (N * N) :=
  [
    (0x27, 0x27); (0x2E, 0x2E); (0x3A, 0x3A); (0x5E, 0x5E); (0x60, 0x60); (0xA8, 0xA8);
    (0xAD, 0xAD); (0xAF, 0xAF); (0xB4, 0xB4); (0xB7, 0xB8); (0x2B0, 0x36F); (0x374, 0x375);
    (0x37A, 0x37A); (0x384, 0x385); (0x387, 0x387); (0x483, 0x489); (0x559, 0x559);
    (0x55F, 0x55F); (0x591, 0x5BD); (0x5BF, 0x5BF); (0x5C1, 0x5C2); (0x5C4, 0x5C5);
    (0x5C7, 0x5C7); (0x5F4, 0x5F4); (0x600, 0x605); (0x610, 0x61A); (0x61C, 0x61C);
    (0x640, 0x640); (0x64B, 0x65F); (0x670, 0x670); (0x6D6, 0x6DD); (0x6DF, 0x6E8);
    (0x6EA, 0x6ED); (0x70F, 0x70F); (0x711, 0x711); (0x730, 0x74A); (0x7A6, 0x7B0);
    (0x7EB, 0x7F5); (0x7FA, 0x7FA); (0x7FD, 0x7FD); (0x816, 0x82D); (0x859, 0x85B);
    (0x888, 0x888); (0x890, 0x891); (0x898, 0x89F); (0x8C9, 0x902); (0x93A, 0x93A);
    (0x93C, 0x93C); (0x941, 0x948); (0x94D, 0x94D); (0x951, 0x957); (0x962, 0x963);
    (0x971, 0x971); (0x981, 0x981); (0x9BC, 0x9BC); (0x9C1, 0x9C4); (0x9CD, 0x9CD);
    (0x9E2, 0x9E3); (0x9FE, 0x9FE); (0xA01, 0xA02); (0xA3C, 0xA3C); (0xA41, 0xA42);
    (0xA47, 0xA48); (0xA4B, 0xA4D); (0xA51, 0xA51); (0xA70, 0xA71); (0xA75, 0xA75);
    (0xA81, 0xA82); (0xABC, 0xABC); (0xAC1, 0xAC5); (0xAC7, 0xAC8); (0xACD, 0xACD);
    (0xAE2, 0xAE3); (0xAFA, 0xAFF); (0xB01, 0xB01); (0xB3C, 0xB3C); (0xB3F, 0xB3F);
    (0xB41, 0xB44); (0xB4D, 0xB4D); (0xB55, 0xB56); (0xB62, 0xB63); (0xB82, 0xB82);
    (0xBC0, 0xBC0); (0xBCD, 0xBCD); (0xC00, 0xC00); (0xC04, 0xC04); (0xC3C, 0xC3C);
    (0xC3E, 0xC40); (0xC46, 0xC48); (0xC4A, 0xC4D); (0xC55, 0xC56); (0xC62, 0xC63);
    (0xC81, 0xC81); (0xCBC, 0xCBC); (0xCBF, 0xCBF); (0xCC6, 0xCC6); (0xCCC, 0xCCD);
    (0xCE2, 0xCE3); (0xD00, 0xD01); (0xD3B, 0xD3C); (0xD41, 0xD44); (0xD4D, 0xD4D);
    (0xD62, 0xD63); (0xD81, 0xD81); (0xDCA, 0xDCA); (0xDD2, 0xDD4); (0xDD6, 0xDD6);
    (0xE31, 0xE31); (0xE34, 0xE3A); (0xE46, 0xE4E); (0xEB1, 0xEB1); (0xEB4, 0xEBC);
    (0xEC6, 0xEC6); (0xEC8, 0xECD); (0xF18, 0xF19); (0xF35, 0xF35); (0xF37, 0xF37);
    (0xF39, 0xF39); (0xF71, 0xF7E); (0xF80, 0xF84); (0xF86, 0xF87); (0xF8D, 0xF97);
    (0xF99, 0xFBC); (0xFC6, 0xFC6); (0x102D, 0x1030); (0x1032, 0x1037); (0x1039, 0x103A);
    (0x103D, 0x103E); (0x1058, 0x1059); (0x105E, 0x1060); (0x1071, 0x1074); (0x1082, 0x1082);
    (0x1085, 0x1086); (0x108D, 0x108D); (0x109D, 0x109D); (0x10FC, 0x10FC); (0x135D, 0x135F);
    (0x1712, 0x1714); (0x1732, 0x1733); (0x1752, 0x1753); (0x1772, 0x1773); (0x17B4, 0x17B5);
    (0x17B7, 0x17BD); (0x17C6, 0x17C6); (0x17C9, 0x17D3); (0x17D7, 0x17D7); (0x17DD, 0x17DD);
    (0x180B, 0x180F); (0x1843, 0x1843); (0x1885, 0x1886); (0x18A9, 0x18A9); (0x1920, 0x1922);
    (0x1927, 0x1928); (0x1932, 0x1932); (0x1939, 0x193B); (0x1A17, 0x1A18); (0x1A1B, 0x1A1B);
    (0x1A56, 0x1A56); (0x1A58, 0x1A5E); (0x1A60, 0x1A60); (0x1A62, 0x1A62); (0x1A65, 0x1A6C);
    (0x1A73, 0x1A7C); (0x1A7F, 0x1A7F); (0x1AA7, 0x1AA7); (0x1AB0, 0x1ACE); (0x1B00, 0x1B03);
    (0x1B34, 0x1B34); (0x1B36, 0x1B3A); (0x1B3C, 0x1B3C); (0x1B42, 0x1B42); (0x1B6B, 0x1B73);
    (0x1B80, 0x1B81); (0x1BA2, 0x1BA5); (0x1BA8, 0x1BA9); (0x1BAB, 0x1BAD); (0x1BE6, 0x1BE6);
    (0x1BE8, 0x1BE9); (0x1BED, 0x1BED); (0x1BEF, 0x1BF1); (0x1C2C, 0x1C33); (0x1C36, 0x1C37);
    (0x1C78, 0x1C7D); (0x1CD0, 0x1CD2); (0x1CD4, 0x1CE0); (0x1CE2, 0x1CE8); (0x1CED, 0x1CED);
    (0x1CF4, 0x1CF4); (0x1CF8, 0x1CF9); (0x1D2C, 0x1D6A); (0x1D78, 0x1D78); (0x1D9B, 0x1DFF);
    (0x1FBD, 0x1FBD); (0x1FBF, 0x1FC1); (0x1FCD, 0x1FCF); (0x1FDD, 0x1FDF); (0x1FED, 0x1FEF);
    (0x1FFD, 0x1FFE); (0x200B, 0x200F); (0x2018, 0x2019); (0x2024, 0x2024); (0x2027, 0x2027);
    (0x202A, 0x202E); (0x2060, 0x2064); (0x2066, 0x206F); (0x2071, 0x2071); (0x207F, 0x207F);
    (0x2090, 0x209C); (0x20D0, 0x20F0); (0x2C7C, 0x2C7D); (0x2CEF, 0x2CF1); (0x2D6F, 0x2D6F);
    (0x2D7F, 0x2D7F); (0x2DE0, 0x2DFF); (0x2E2F, 0x2E2F); (0x3005, 0x3005); (0x302A, 0x302D);
    (0x3031, 0x3035); (0x303B, 0x303B); (0x3099, 0x309E); (0x30FC, 0x30FE); (0xA015, 0xA015);
    (0xA4F8, 0xA4FD); (0xA60C, 0xA60C); (0xA66F, 0xA672); (0xA674, 0xA67D); (0xA67F, 0xA67F);
    (0xA69C, 0xA69F); (0xA6F0, 0xA6F1); (0xA700, 0xA721); (0xA770, 0xA770); (0xA788, 0xA78A);
    (0xA7F2, 0xA7F4); (0xA7F8, 0xA7F9); (0xA802, 0xA802); (0xA806, 0xA806); (0xA80B, 0xA80B);
    (0xA825, 0xA826); (0xA82C, 0xA82C); (0xA8C4, 0xA8C5); (0xA8E0, 0xA8F1); (0xA8FF, 0xA8FF);
    (0xA926, 0xA92D); (0xA947, 0xA951); (0xA980, 0xA982); (0xA9B3, 0xA9B3); (0xA9B6, 0xA9B9);
    (0xA9BC, 0xA9BD); (0xA9CF, 0xA9CF); (0xA9E5, 0xA9E6); (0xAA29, 0xAA2E); (0xAA31, 0xAA32);
    (0xAA35, 0xAA36); (0xAA43, 0xAA43); (0xAA4C, 0xAA4C); (0xAA70, 0xAA70); (0xAA7C, 0xAA7C);
    (0xAAB0, 0xAAB0); (0xAAB2, 0xAAB4); (0xAAB7, 0xAAB8); (0xAABE, 0xAABF); (0xAAC1, 0xAAC1);
    (0xAADD, 0xAADD); (0xAAEC, 0xAAED); (0xAAF3, 0xAAF4); (0xAAF6, 0xAAF6); (0xAB5B, 0xAB5F);
    (0xAB69, 0xAB6B); (0xABE5, 0xABE5); (0xABE8, 0xABE8); (0xABED, 0xABED); (0xFB1E, 0xFB1E);
    (0xFBB2, 0xFBC2); (0xFE00, 0xFE0F); (0xFE13, 0xFE13); (0xFE20, 0xFE2F); (0xFE52, 0xFE52);
    (0xFE55, 0xFE55); (0xFEFF, 0xFEFF); (0xFF07, 0xFF07); (0xFF0E, 0xFF0E); (0xFF1A, 0xFF1A);
    (0xFF3E, 0xFF3E); (0xFF40, 0xFF40); (0xFF70, 0xFF70); (0xFF9E, 0xFF9F); (0xFFE3, 0xFFE3);
    (0xFFF9, 0xFFFB); (0x101FD, 0x101FD); (0x102E0, 0x102E0); (0x10376, 0x1037A);
    (0x10780, 0x10785); (0x10787, 0x107B0); (0x107B2, 0x107BA); (0x10A01, 0x10A03);
    (0x10A05, 0x10A06); (0x10A0C, 0x10A0F); (0x10A38, 0x10A3A); (0x10A3F, 0x10A3F);
    (0x10AE5, 0x10AE6); (0x10D24, 0x10D27); (0x10EAB, 0x10EAC); (0x10F46, 0x10F50);
    (0x10F82, 0x10F85); (0x11001, 0x11001); (0x11038, 0x11046); (0x11070, 0x11070);
    (0x11073, 0x11074); (0x1107F, 0x11081); (0x110B3, 0x110B6); (0x110B9, 0x110BA);
    (0x110BD, 0x110BD); (0x110C2, 0x110C2); (0x110CD, 0x110CD); (0x11100, 0x11102);
    (0x11127, 0x1112B); (0x1112D, 0x11134); (0x11173, 0x11173); (0x11180, 0x11181);
    (0x111B6, 0x111BE); (0x111C9, 0x111CC); (0x111CF, 0x111CF); (0x1122F, 0x11231);
    (0x11234, 0x11234); (0x11236, 0x11237); (0x1123E, 0x1123E); (0x112DF, 0x112DF);
    (0x112E3, 0x112EA); (0x11300, 0x11301); (0x1133B, 0x1133C); (0x11340, 0x11340);
    (0x11366, 0x1136C); (0x11370, 0x11374); (0x11438, 0x1143F); (0x11442, 0x11444);
    (0x11446, 0x11446); (0x1145E, 0x1145E); (0x114B3, 0x114B8); (0x114BA, 0x114BA);
    (0x114BF, 0x114C0); (0x114C2, 0x114C3); (0x115B2, 0x115B5); (0x115BC, 0x115BD);
    (0x115BF, 0x115C0); (0x115DC, 0x115DD); (0x11633, 0x1163A); (0x1163D, 0x1163D);
    (0x1163F, 0x11640); (0x116AB, 0x116AB); (0x116AD, 0x116AD); (0x116B0, 0x116B5);
    (0x116B7, 0x116B7); (0x1171D, 0x1171F); (0x11722, 0x11725); (0x11727, 0x1172B);
    (0x1182F, 0x11837); (0x11839, 0x1183A); (0x1193B, 0x1193C); (0x1193E, 0x1193E);
    (0x11943, 0x11943); (0x119D4, 0x119D7); (0x119DA, 0x119DB); (0x119E0, 0x119E0);
    (0x11A01, 0x11A0A); (0x11A33, 0x11A38); (0x11A3B, 0x11A3E); (0x11A47, 0x11A47);
    (0x11A51, 0x11A56); (0x11A59, 0x11A5B); (0x11A8A, 0x11A96); (0x11A98, 0x11A99);
    (0x11C30, 0x11C36); (0x11C38, 0x11C3D); (0x11C3F, 0x11C3F); (0x11C92, 0x11CA7);
    (0x11CAA, 0x11CB0); (0x11CB2, 0x11CB3); (0x11CB5, 0x11CB6); (0x11D31, 0x11D36);
    (0x11D3A, 0x11D3A); (0x11D3C, 0x11D3D); (0x11D3F, 0x11D45); (0x11D47, 0x11D47);
    (0x11D90, 0x11D91); (0x11D95, 0x11D95); (0x11D97, 0x11D97); (0x11EF3, 0x11EF4);
    (0x13430, 0x13438); (0x16AF0, 0x16AF4); (0x16B30, 0x16B36); (0x16B40, 0x16B43);
    (0x16F4F, 0x16F4F); (0x16F8F, 0x16F9F); (0x16FE0, 0x16FE1); (0x16FE3, 0x16FE4);
    (0x1AFF0, 0x1AFF3); (0x1AFF5, 0x1AFFB); (0x1AFFD, 0x1AFFE); (0x1BC9D, 0x1BC9E);
    (0x1BCA0, 0x1BCA3); (0x1CF00, 0x1CF2D); (0x1CF30, 0x1CF46); (0x1D167, 0x1D169);
    (0x1D173, 0x1D182); (0x1D185, 0x1D18B); (0x1D1AA, 0x1D1AD); (0x1D242, 0x1D244);
    (0x1DA00, 0x1DA36); (0x1DA3B, 0x1DA6C); (0x1DA75, 0x1DA75); (0x1DA84, 0x1DA84);
    (0x1DA9B, 0x1DA9F); (0x1DAA1, 0x1DAAF); (0x1E000, 0x1E006); (0x1E008, 0x1E018);
    (0x1E01B, 0x1E021); (0x1E023, 0x1E024); (0x1E026, 0x1E02A); (0x1E130, 0x1E13D);
    (0x1E2AE, 0x1E2AE); (0x1E2EC, 0x1E2EF); (0x1E8D0, 0x1E8D6); (0x1E944, 0x1E94B);
    (0x1F3FB, 0x1F3FF); (0xE0001, 0xE0001); (0xE0020, 0xE007F); (0xE0100, 0xE01EF)
  ].

(** [re._casefix._EXTRA_CASES]: for a lower-case code point, the other lower-case code points
    that match it when case is ignored. *)
Definition extra_cases : list (N * list N) :=
  [
    (0x69, [0x131]); (0x73, [0x17F]); (0xB5, [0x3BC]); (0x131, [0x69]); (0x17F, [0x73]);
    (0x345, [0x3B9; 0x1FBE]); (0x390, [0x1FD3]); (0x3B0, [0x1FE3]); (0x3B2, [0x3D0]);
    (0x3B5, [0x3F5]); (0x3B8, [0x3D1]); (0x3B9, [0x345; 0x1FBE]); (0x3BA, [0x3F0]);
    (0x3BC, [0xB5]); (0x3C0, [0x3D6]); (0x3C1, [0x3F1]); (0x3C2, [0x3C3]); (0x3C3, [0x3C2]);
    (0x3C6, [0x3D5]); (0x3D0, [0x3B2]); (0x3D1, [0x3B8]); (0x3D5, [0x3C6]); (0x3D6, [0x3C0]);
    (0x3F0, [0x3BA]); (0x3F1, [0x3C1]); (0x3F5, [0x3B5]); (0x432, [0x1C80]); (0x434, [0x1C81]);
    (0x43E, [0x1C82]); (0x441, [0x1C83]); (0x442, [0x1C84; 0x1C85]); (0x44A, [0x1C86]);
    (0x463, [0x1C87]); (0x1C80, [0x432]); (0x1C81, [0x434]); (0x1C82, [0x43E]); (0x1C83, [0x441]);
    (0x1C84, [0x442; 0x1C85]); (0x1C85, [0x442; 0x1C84]); (0x1C86, [0x44A]); (0x1C87, [0x463]);
    (0x1C88, [0xA64B]); (0x1E61, [0x1E9B]); (0x1E9B, [0x1E61]); (0x1FBE, [0x345; 0x3B9]);
    (0x1FD3, [0x390]); (0x1FE3, [0x3B0]); (0xA64B, [0x1C88]); (0xFB05, [0xFB06]);
    (0xFB06, [0xFB05])
  ].

Definition in_ranges (t : list (N * N)) (c : char) : bool :=
  existsb (fun r => (fst r <=? c) && (c <=? snd r)) t.

Definition covers (c : char) (e : N * N * N * N) : bool :=
  let '(lo, hi, step, _) := e in
  (lo <=? c) && (c <=? hi) && ((c - lo) mod step =? 0).

Definition map_lookup (t : list (N * N * N * N)) (c : char) : char :=
  match find (covers c) t with
  | Some (lo, _, _, target) => target + (c - lo)
  | None => c
  end.

Fixpoint assoc (t : list (N * list N)) (c : char) : option (list N) :=
  match t with
  | [] => None
  | (k, v) :: t' => if k =? c then Some v else assoc t' c
  end.

(** [\d] of a [str] pattern and [str.isdecimal]. *)
Definition isdecimal (c : char) : bool := in_ranges decimal_ranges c.

(** [\s] of a [str] pattern and [str.isspace]. *)
Definition isspace (c : char) : bool := in_ranges space_ranges c.

(** [_sre.unicode_tolower] and [_sre.unicode_iscased]. *)
Definition unicode_tolower (c : char) : char := map_lookup tolower_table c.
Definition unicode_iscased (c : char) : bool := in_ranges sre_cased_ranges c.

Definition IsCased (c : char) : bool := in_ranges cased_ranges c.
Definition IsCaseIgnorable (c : char) : bool := in_ranges case_ignorable_ranges c.

(** [_PyUnicode_ToLowerFull] and [_PyUnicode_ToUpperFull]. *)
Definition ToLowerFull (c : char) : text :=
  match assoc lower_special c with
  | Some l => l
  | None => [unicode_tolower c]
  end.

Definition ToUpperFull (c : char) : text :=
  match assoc upper_special c with
  | Some l => l
  | None => [map_lookup upper_single_table c]
  end.

(** The first character of [s] that is not case-ignorable: the character at which
    each of the two loops of [handle_capital_sigma] stops. *)
Fixpoint skip_ignorable (s : text) : option char :=
  match s with
  | [] => None
  | c :: s' => if IsCaseIgnorable c then skip_ignorable s' else Some c
  end.

(** [handle_capital_sigma]: U+03A3 becomes the final sigma U+03C2 when a cased
    letter precedes it and none follows (case-ignorable characters skipped on both
    sides), and U+03C3 otherwise.  [before] is the text before the sigma, nearest
    character first. *)
Definition handle_capital_sigma (before after : text) : char :=
  let preceded :=
    match skip_ignorable before with Some c => IsCased c | None => false end in
  let followed :=
    match skip_ignorable after with Some c => IsCased c | None => false end in
  if preceded && negb followed then 0x3C2 else 0x3C3.

Definition lower_at (before : text) (c : char) (after : text) : text :=
  if c =? 0x3A3 then [handle_capital_sigma before after] else ToLowerFull c.

(** [do_lower] of [unicodeobject.c]. *)
Fixpoint do_lower (before s : text) : text :=
  match s with
  | [] => []
  | c :: s' => lower_at before c s' ++ do_lower (c :: before) s'
  end.

(** [str.lower] and [str.upper]. *)
Definition lower (s : text) : text := do_lower [] s.
Definition upper (s : text) : text := flat_map ToUpperFull s.

End Unicode.

(** ** Python's [re] on the patterns of the program *)

Module Re.

Import Unicode.
Open Scope N_scope.

(** Members of a character set, as [sre_parse] lists them. *)
Inductive item : Type :=
| LITERAL (c : char)
| RANGE (lo hi : char)
| CATEGORY_DIGIT
| CATEGORY_SPACE.

(** What matches exactly one character. *)
Inductive atom : Type :=
| Lit (c : char)
| LitIgnore (c : char)
| In (items : list item).

(** The parse trees the program needs: a one-character atom, a sequence, a numbered
    group, a greedy [{lo,hi}] repeat of an atom ([hi = None] is MAXREPEAT) and a
    greedy optional group ([MAX_REPEAT 0 1] over a sub-pattern). *)
Inductive regex : Type :=
| Empty
| One (a : atom)
| Cat (r1 r2 : regex)
| Group (n : nat) (r : regex)
| Repeat (lo : nat) (hi : option nat) (a : atom)
| Optional (r : regex).

Definition item_matches (i : item) (c : char) : bool :=
  match i with
  | LITERAL x => c =? x
  | RANGE lo hi => (lo <=? c) && (c <=? hi)
  | CATEGORY_DIGIT => isdecimal c
  | CATEGORY_SPACE => isspace c
  end.

(** A literal [p] compiled with [re.IGNORECASE] ([_compile] of [re._compiler]): an
    uncased [p] is compared as it is; otherwise the lower-cased text character is
    compared with the lower-cased [p], or looked up in [p]'s class of
    [_EXTRA_CASES] when it has one. *)
Definition ignorecase_matches (p c : char) : bool :=
  if unicode_iscased p then
    let lo := unicode_tolower p in
    match assoc extra_cases lo with
    | None => unicode_tolower c =? lo
    | Some others => existsb (N.eqb (unicode_tolower c)) (lo :: others)
    end
  else c =? p.

Definition atom_matches (a : atom) (c : char) : bool :=
  match a with
  | Lit x => c =? x
  | LitIgnore p => ignorecase_matches p c
  | In items => existsb (fun i => item_matches i c) items
  end.

Definition may_repeat (hi : option nat) : bool :=
  match hi with
  | Some O => false
  | _ => true
  end.

Section Matcher.

Variable A : Type.

(** The backtracking matcher, in continuation-passing style: [k] is the rest of
    the pattern, applied to the text that is left.  The first alternative that
    succeeds is the match, as in [sre]. *)

(** A greedy repeat takes a character whenever it may, and gives it back when the
    rest of the pattern fails. *)
Fixpoint repeat (a : atom) (lo : nat) (hi : option nat) (s : text)
    (k : text -> option A) {struct s} : option A :=
  let stop := match lo with O => k s | S _ => None end in
  match s with
  | c :: s' =>
      if atom_matches a c && may_repeat hi then
        match repeat a (Nat.pred lo) (option_map Nat.pred hi) s' k with
        | Some m => Some m
        | None => stop
        end
      else stop
  | [] => stop
  end.

Fixpoint run (r : regex) (s : text) (k : text -> option A) {struct r} : option A :=
  match r with
  | Empty => k s
  | One a =>
      match s with
      | c :: s' => if atom_matches a c then k s' else None
      | [] => None
      end
  | Cat r1 r2 => run r1 s (fun s' => run r2 s' k)
  | Group _ r' => run r' s k
  | Repeat lo hi a => repeat a lo hi s k
  | Optional r' =>
      match run r' s k with
      | Some m => Some m
      | None => k s
      end
  end.

End Matcher.

Arguments repeat {A} a lo hi s k.
Arguments run {A} r s k.

(** [pattern.match]: the match that starts at the head of [s]; the result is the
    text left after it. *)
Definition match_at (r : regex) (s : text) : option text := run r s (@Some text).

(** [re.search]: the left-most position with a match, as [(start, end)]. *)
Fixpoint search_from (r : regex) (i : nat) (s : text) : option (nat * nat) :=
  match match_at r s with
  | Some rest => Some (i, (i + (length s - length rest))%nat)
  | None =>
      match s with
      | [] => None
      | _ :: s' => search_from r (S i) s'
      end
  end.

Definition search (r : regex) (s : text) : option (nat * nat) := search_from r 0 s.

(** A [Match] object is true, [None] is false. *)
Definition truthy {A : Type} (m : option A) : bool :=
  match m with
  | Some _ => true
  | None => false
  end.

(** [re.sub] with a replacement that has no backslash: the text is scanned from
    the left, every match is replaced and the scan goes on after it.  [skip]
    counts the characters of the last match that are still to pass.  No pattern of
    the program matches the empty text; where one did, the replacement would be
    put in and the scan would move one character on. *)
Fixpoint sub_from (r : regex) (repl : text) (skip : nat) (s : text) {struct s} : text :=
  match skip with
  | S n =>
      match s with
      | [] => []
      | _ :: s' => sub_from r repl n s'
      end
  | O =>
      match match_at r s with
      | Some rest =>
          repl ++
          match s with
          | [] => []
          | c :: s' =>
              match (length s - length rest)%nat with
              | O => c :: sub_from r repl 0 s'
              | S n => sub_from r repl n s'
              end
          end
      | None =>
          match s with
          | [] => []
          | c :: s' => c :: sub_from r repl 0 s'
          end
      end
  end.

Definition sub (r : regex) (repl : text) (s : text) : text := sub_from r repl 0 s.

(** [re.compile(re.escape(k), re.IGNORECASE)]: [re.escape] puts a backslash before
    the special characters and the parser reads each escaped character back as a
    literal, so the pattern is the sequence of the characters of [k], each compiled
    as a literal that ignores case. *)
Fixpoint compile_escaped_ignorecase (k : text) : regex :=
  match k with
  | [] => Empty
  | c :: k' => Cat (One (LitIgnore c)) (compile_escaped_ignorecase k')
  end.

Definition alnum : list item := [RANGE 0x61 0x7A; RANGE 0x41 0x5A; RANGE 0x30 0x39].

(** [[a-zA-Z0-9_.+-]], [[a-zA-Z0-9-]] and [[a-zA-Z0-9-.]]: a [-] that follows a
    range or ends the set is a literal. *)
Definition LOCAL : atom := In (alnum ++ [LITERAL 0x5F; LITERAL 0x2E; LITERAL 0x2B; LITERAL 0x2D]).
Definition DOMAIN : atom := In (alnum ++ [LITERAL 0x2D]).
Definition SUFFIX : atom := In (alnum ++ [LITERAL 0x2D; LITERAL 0x2E]).

(** [\d] and [[\s-]]. *)
Definition DIGIT : atom := In [CATEGORY_DIGIT].
Definition SEPARATOR : atom := In [CATEGORY_SPACE; LITERAL 0x2D].

(** [[a-zA-Z0-9_.+-]+@[a-zA-Z0-9-]+\.[a-zA-Z0-9-.]+] *)
Definition EMAIL : regex :=
  Cat (Repeat 1 None LOCAL)
 (Cat (One (Lit 0x40))
 (Cat (Repeat 1 None DOMAIN)
 (Cat (One (Lit 0x2E))
      (Repeat 1 None SUFFIX)))).

(** [(\+?\d{1,3}[\s-]?)?(\d{10})] *)
Definition PHONE : regex :=
  Cat (Optional (Group 1
         (Cat (Repeat 0 (Some 1%nat) (Lit 0x2B))
         (Cat (Repeat 1 (Some 3%nat) DIGIT)
              (Repeat 0 (Some 1%nat) SEPARATOR)))))
      (Group 2 (Repeat 10 (Some 10%nat) DIGIT)).

End Re.

(** ** [str] operations of the program *)

(** [s.startswith(p)] and [p in s]. *)
Fixpoint startswith (p s : text) : bool :=
  match p, s with
  | [], _ => true
  | x :: p', y :: s' => N.eqb x y && startswith p' s'
  | _ :: _, [] => false
  end.

Fixpoint contains (p s : text) : bool :=
  startswith p s ||
  match s with
  | [] => false
  | _ :: s' => contains p s'
  end.

(** ** The engine *)

(** What a call into the interpreter's world gives back. *)
Inductive outcome (A : Type) : Type :=
| Returns (a : A)
| Raises (e : text).

Arguments Returns {A} a.
Arguments Raises {A} e.

(** An entity of [doc.ents]: character offsets into the text and a label. *)
Record Span : Type := { start_char : nat; end_char : nat; label_ : text }.

(** The module-level [nlp]: [None] when the model did not load, else the pipeline;
    the model gives the entities of the document it builds, or raises. *)
Definition pipeline : Type := text -> outcome (list Span).

Record SentinelCore : Type := { taxonomy : list (text * text) }.

(** [SentinelCore.__init__] *)
Definition init : SentinelCore :=
  {| taxonomy :=
       [ (cps "google", cps "a Tier-1 Tech Corporation");
         (cps "microsoft", cps "a Global Software Leader");
         (cps "manager", cps "Strategic Director");
         (cps "engineer", cps "Technical Specialist");
         (cps "sql", cps "Structured Database Systems");
         (cps "hyderabad", cps "a major Tech Hub") ] |}.

Definition keys (d : list (text * text)) : list text := map fst d.

Definition PHISHING : text := cps "LEAK: Direct email identified. Vulnerable to Phishing.".
Definition SIM_SWAP : text := cps "LEAK: Phone contact exposed. Vulnerable to SIM-swap.".
Definition RECON (brand : text) : text :=
  cps "RECON: Connection to " ++ Unicode.upper brand ++ cps " found.".
Definition ID_GATEWAY : text := cps "[ID_GATEWAY]".
Definition VERIFIED_LINE : text := cps "[VERIFIED_LINE]".

(** The body of the loop over [self.taxonomy.keys()]. *)
Definition brand_step (txt : text) (st : Z * list text) (brand : text) : Z * list text :=
  let '(score, logs) := st in
  if contains brand (Unicode.lower txt)
  then ((score + 15)%Z, logs ++ [RECON brand])
  else (score, logs).

Definition simulate_adversary (self : SentinelCore) (txt : text) : Z * list text :=
  let logs : list text := [] in
  let score := 0%Z in
  let '(score, logs) :=
    if Re.truthy (Re.search Re.EMAIL txt)
    then ((score + 40)%Z, logs ++ [PHISHING]) else (score, logs) in
  let '(score, logs) :=
    if Re.truthy (Re.search Re.PHONE txt)
    then ((score + 30)%Z, logs ++ [SIM_SWAP]) else (score, logs) in
  let '(score, logs) := fold_left (brand_step txt) (keys (taxonomy self)) (score, logs) in
  (Z.min score 100, logs).

(** The body of the loop over [self.taxonomy.items()]. *)
Definition taxonomy_step (safe : text) (kv : text * text) : text :=
  let pattern := Re.compile_escaped_ignorecase (fst kv) in
  Re.sub pattern (snd kv) safe.

Definition fallback_harden (self : SentinelCore) (txt : text) : text :=
  let safe := txt in
  let safe := Re.sub Re.EMAIL ID_GATEWAY safe in
  let safe := Re.sub Re.PHONE VERIFIED_LINE safe in
  fold_left taxonomy_step (taxonomy self) safe.

Definition HIDDEN_LABELS : list text :=
  [cps "PERSON"; cps "ORG"; cps "GPE"; cps "FAC"; cps "LOC"].

(** The body of the loop over [reversed(doc.ents)].  Offsets are not negative, so
    the slices [hardened[:a]] and [hardened[b:]] are [firstn] and [skipn], which
    stop at the end of the text as slices do. *)
Definition entity_step (hardened : text) (ent : Span) : text :=
  if existsb (text_eqb (label_ ent)) HIDDEN_LABELS then
    let replacement := cps "[HIDDEN_" ++ label_ ent ++ cps "]" in
    firstn (start_char ent) hardened ++ replacement ++ skipn (end_char ent) hardened
  else hardened.

Definition nlp_harden (nlp : option pipeline) (self : SentinelCore) (txt : text)
    : outcome text :=
  match nlp with
  | None => Returns (fallback_harden self txt)
  | Some model =>
      match model txt with
      | Raises e => Raises e
      | Returns ents =>
          let hardened := txt in
          let hardened := fold_left entity_step (rev ents) hardened in
          let hardened := Re.sub Re.EMAIL ID_GATEWAY hardened in
          let hardened := Re.sub Re.PHONE VERIFIED_LINE hardened in
          Returns hardened
      end
  end.

(** ** What the program is to compute, stated without the matcher *)

(** [p] occurs in [s] as a substring. *)
Definition Substring (p s : text) : Prop := exists pre post, s = pre ++ p ++ post.

Definition within (hi : option nat) (n : nat) : Prop :=
  match hi with
  | Some h => (n <= h)%nat
  | None => True
  end.

(** The texts a pattern describes. *)
Inductive Matches : Re.regex -> text -> Prop :=
| M_Empty : Matches Re.Empty []
| M_One a c : Re.atom_matches a c = true -> Matches (Re.One a) [c]
| M_Cat r1 r2 w1 w2 : Matches r1 w1 -> Matches r2 w2 -> Matches (Re.Cat r1 r2) (w1 ++ w2)
| M_Group n r w : Matches r w -> Matches (Re.Group n r) w
| M_Repeat lo hi a w :
    Forall (fun c => Re.atom_matches a c = true) w ->
    (lo <= length w)%nat -> within hi (length w) ->
    Matches (Re.Repeat lo hi a) w
| M_Taken r w : Matches r w -> Matches (Re.Optional r) w
| M_Skipped r : Matches (Re.Optional r) [].

(** [s] has a substring of the shape [r]. *)
Definition Occurs (r : Re.regex) (s : text) : Prop :=
  exists pre w post, s = pre ++ w ++ post /\ Matches r w.

(** A match of [r] starts at the head of [s]. *)
Definition StartsMatch (r : Re.regex) (s : text) : Prop :=
  exists w rest, s = w ++ rest /\ Matches r w.

(** [out] is [s] with substrings of shape [r] replaced by [repl], from the left: a
    character at which no match starts is kept, a match is replaced whole and the
    scan goes on behind it.  This says where the replacements are, not how long
    each match is; [Substituted] says both. *)
Inductive Replaced (r : Re.regex) (repl : text) : text -> text -> Prop :=
| Replaced_end : Replaced r repl [] []
| Replaced_keep c s out :
    ~ StartsMatch r (c :: s) -> Replaced r repl s out ->
    Replaced r repl (c :: s) (c :: out)
| Replaced_match w rest out :
    w <> [] -> Matches r w -> Replaced r repl rest out ->
    Replaced r repl (w ++ rest) (repl ++ out).

(** [w], at the head of [w ++ rest], is a longest text of the shape [r] there. *)
Definition Longest (r : Re.regex) (w rest : text) : Prop :=
  Matches r w /\
  forall w' rest', w ++ rest = w' ++ rest' -> Matches r w' -> length w' <= length w.

(** [out] is [s] with the substrings of shape [r] replaced by [repl], from the
    left and each as long as it can be: a character at which no match starts is
    kept, the longest match that starts at a character is replaced whole and the
    scan goes on behind it.  The relation has one [out] for each [s]. *)
Inductive Substituted (r : Re.regex) (repl : text) : text -> text -> Prop :=
| Substituted_end : Substituted r repl [] []
| Substituted_keep c s out :
    ~ StartsMatch r (c :: s) -> Substituted r repl s out ->
    Substituted r repl (c :: s) (c :: out)
| Substituted_match w rest out :
    w <> [] -> Longest r w rest -> Substituted r repl rest out ->
    Substituted r repl (w ++ rest) (repl ++ out).

(** The taxonomy pass of the fallback path: one replacement per term, in the order
    of the taxonomy, each on the result of the one before. *)
Inductive TaxonomyPass : list (text * text) -> text -> text -> Prop :=
| Pass_done s : TaxonomyPass [] s s
| Pass_term k v d s s' out :
    Substituted (Re.compile_escaped_ignorecase k) v s s' ->
    TaxonomyPass d s' out ->
    TaxonomyPass ((k, v) :: d) s out.

(** The fallback path of §4.2: addresses, then numbers, then the terms. *)
Definition FallbackHardened (d : list (text * text)) (txt out : text) : Prop :=
  exists t1 t2,
    Substituted Re.EMAIL ID_GATEWAY txt t1 /\
    Substituted Re.PHONE VERIFIED_LINE t1 t2 /\
    TaxonomyPass d t2 out.

(** The match that the matcher takes at the head of a text is a longest one. *)
Definition PicksLongest (r : Re.regex) : Prop :=
  forall s rest, Re.match_at r s = Some rest ->
  forall w' rest', s = w' ++ rest' -> Matches r w' -> length rest <= length rest'.

(** The score and the evidence of §4.1, from which indicators fire. *)
Definition b2z (b : bool) : Z := if b then 1%Z else 0%Z.

Definition fired (d : list (text * text)) (txt : text) : list text :=
  filter (fun term => contains term (Unicode.lower txt)) (keys d).

Definition assessment (email phone : bool) (terms : list text) : Z * list text :=
  ((40 * b2z email + 30 * b2z phone + 15 * Z.of_nat (length terms))%Z,
   (if email then [PHISHING] else []) ++
   (if phone then [SIM_SWAP] else []) ++
   map RECON terms).

(** The entity pass of §4.2, in the words of the specification: the spans are
    sorted by start position, descending (a stable sort, as [sorted] with
    [reverse=True] is), and replaced one after the other. *)
Fixpoint insert_desc (e : Span) (l : list Span) : list Span :=
  match l with
  | [] => [e]
  | x :: l' =>
      if (start_char x <=? start_char e)%nat then e :: l else x :: insert_desc e l'
  end.

Fixpoint sort_desc (l : list Span) : list Span :=
  match l with
  | [] => []
  | e :: l' => insert_desc e (sort_desc l')
  end.

Definition harden_sorted (ents : list Span) (txt : text) : text :=
  Re.sub Re.PHONE VERIFIED_LINE
    (Re.sub Re.EMAIL ID_GATEWAY (fold_left entity_step (sort_desc ents) txt)).

Definition hidden (e : Span) : bool := existsb (text_eqb (label_ e)) HIDDEN_LABELS.
Definition placeholder (e : Span) : text := cps "[HIDDEN_" ++ label_ e ++ cps "]".

(** All spans replaced at once in the text as it was: [rest] is the text from
    offset [pos] on, and each span stands for its own [start, end) stretch of it. *)
Fixpoint replace_spans (pos : nat) (ents : list Span) (rest : text) : text :=
  match ents with
  | [] => rest
  | e :: ents' =>
      firstn (start_char e - pos) rest ++
      (if hidden e then placeholder e
       else firstn (end_char e - start_char e) (skipn (start_char e - pos) rest)) ++
      replace_spans (end_char e) ents' (skipn (end_char e - pos) rest)
  end.

(** Spans as [doc.ents] has them: not empty, in the order of the text, none
    reaching into the next, all inside a text of [len] characters. *)
Fixpoint ordered (pos : nat) (ents : list Span) (len : nat) : Prop :=
  match ents with
  | [] => (pos <= len)%nat
  | e :: ents' =>
      (pos <= start_char e)%nat /\ (start_char e < end_char e)%nat /\
      ordered (end_char e) ents' len
  end.

(** ** Which characters a case-ignoring literal can match *)

(** The code points that an entry of a mapping table sends to [q]. *)
Definition preimages (t : list (N * N * N * N)) (q : char) : list char :=
  flat_map (fun e : N * N * N * N =>
              let '(lo, hi, _, target) := e in
              if (target <=? q)%N && (q <=? target + (hi - lo))%N
              then [(lo + (q - target))%N] else []) t.

(** The lower-case code points that stand for [p] when case is ignored, and the
    characters that lower-case to one of them: every character that a literal [p]
    can match is among the latter. *)
Definition ignorecase_class (p : char) : list char :=
  let lo := Unicode.unicode_tolower p in
  lo :: match Unicode.assoc Unicode.extra_cases lo with Some others => others | None => [] end.

Definition ignorecase_chars (p : char) : list char :=
  flat_map (fun q => q :: preimages Unicode.tolower_table q) (ignorecase_class p).

(** U+0130 (capital I with dot above), U+0131 (dotless i) and U+017F (long s): the
    characters on which ignoring case and lower-casing disagree for the letters of
    the taxonomy. *)
Definition irregular (c : char) : bool :=
  N.eqb c 0x130 || N.eqb c 0x131 || N.eqb c 0x17F.

(** [c] becomes [p] in [str.lower], whatever stands around it. *)
Definition LowersTo (c p : char) : Prop :=
  forall before after, Unicode.lower_at before c after = [p].

Definition lowers_to (c p : char) : bool :=
  negb (N.eqb c 0x3A3) && text_eqb (Unicode.ToLowerFull c) [p].

(** A character of a term for which, away from the irregular characters, a text
    character matches it with case ignored exactly when it lower-cases to it. *)
Definition term_char_ok (p : char) : bool :=
  Unicode.unicode_iscased p && N.eqb (Unicode.unicode_tolower p) p &&
  negb (N.eqb p 0x3C2) && negb (N.eqb p 0x3C3) &&
  forallb (fun c => irregular c || lowers_to c p) (ignorecase_chars p).

Fixpoint min_length (r : Re.regex) : nat :=
  match r with
  | Re.Empty => 0
  | Re.One _ => 1
  | Re.Cat r1 r2 => min_length r1 + min_length r2
  | Re.Group _ r' => min_length r'
  | Re.Repeat lo _ _ => lo
  | Re.Optional _ => 0
  end.

Fixpoint atoms (r : Re.regex) : list Re.atom :=
  match r with
  | Re.Empty => []
  | Re.One a => [a]
  | Re.Cat r1 r2 => atoms r1 ++ atoms r2
  | Re.Group _ r' => atoms r'
  | Re.Repeat _ _ a => [a]
  | Re.Optional r' => atoms r'
  end.

(** [c] can stand in a text of the shape [r]. *)
Definition may_hold (r : Re.regex) (c : char) : bool :=
  existsb (fun a => Re.atom_matches a c) (atoms r).

(** The number of "[" in a text. *)
Definition brackets (s : text) : nat := count_occ N.eq_dec s 0x5B%N.

(** What the proof of the identity on clean text uses of an entry of the taxonomy:
    the term is not empty and shorter than its label, no "[" matches it or stands
    in the label, and its characters are regular. *)
Definition entry_ok (kv : text * text) : bool :=
  (0 <? length (fst kv))%nat && (length (fst kv) <? length (snd kv))%nat &&
  negb (may_hold (Re.compile_escaped_ignorecase (fst kv)) 0x5B%N) &&
  forallb term_char_ok (fst kv).

(** The ASCII letters and digits. *)
Definition ascii_alnum (c : char) : Prop :=
  (0x61 <= c <= 0x7A)%N \/ (0x41 <= c <= 0x5A)%N \/ (0x30 <= c <= 0x39)%N.

(** A text without irregular characters. *)
Definition regular_text (s : text) : Prop := Forall (fun c => irregular c = false) s.

(** Entities of the text "abc def ghi", as a model gives them and right to left. *)
Definition two_entities : list Span :=
  [ {| start_char := 0; end_char := 3; label_ := cps "ORG" |};
    {| start_char := 4; end_char := 7; label_ := cps "DATE" |};
    {| start_char := 8; end_char := 11; label_ := cps "PERSON" |} ].

Definition unsorted_entities : list Span :=
  [ {| start_char := 8; end_char := 11; label_ := cps "PERSON" |};
    {| start_char := 0; end_char := 3; label_ := cps "ORG" |} ].


(** ** The endpoints *)

(** [s.split(sep)] for a separator that is not empty (both separators of the
    program are literals; Python raises on an empty one): the text is cut at the
    occurrences of [sep], found from the left and not overlapping.  [piece] is the
    piece being read and [skip] counts the characters of the separator just found
    that are still to pass. *)
Fixpoint split_from (sep piece : text) (skip : nat) (s : text) : list text :=
  match s with
  | [] => [piece]
  | c :: s' =>
      match skip with
      | S n => split_from sep piece n s'
      | O =>
          if startswith sep s
          then piece :: split_from sep [] (length sep - 1) s'
          else split_from sep (piece ++ [c]) 0 s'
      end
  end.

Definition split (sep s : text) : list text := split_from sep [] 0 s.

(** [l[-1]] of a list that [split] made, which is never empty. *)
Definition last_piece (l : list text) : text := last l [].

(** [s.lstrip(...)], [s.rstrip(...)] and [s.strip(...)]: the characters to drop are
    those of [chars], or the white space when no argument is given. *)
Fixpoint lstrip_by (drop : char -> bool) (s : text) : text :=
  match s with
  | [] => []
  | c :: s' => if drop c then lstrip_by drop s' else s
  end.

Definition rstrip_by (drop : char -> bool) (s : text) : text :=
  rev (lstrip_by drop (rev s)).

Definition strip_by (drop : char -> bool) (s : text) : text :=
  rstrip_by drop (lstrip_by drop s).

Definition strip_chars (chars s : text) : text :=
  strip_by (fun c => existsb (N.eqb c) chars) s.

Definition strip (s : text) : text := strip_by Unicode.isspace s.

(** [s.endswith(suffix)] and [sep.join(parts)]. *)
Definition endswith (suffix s : text) : bool := startswith (rev suffix) (rev s).

Fixpoint join (sep : text) (parts : list text) : text :=
  match parts with
  | [] => []
  | [p] => p
  | p :: parts' => p ++ sep ++ join sep parts'
  end.

(** How a request ends: with the reply, with the [HTTPException] that the endpoint
    raises, or with an exception that it does not catch.  An exception other than
    [HTTPException] is held as its message, which is what [str(e)] gives. *)
Inductive failure : Type :=
| HTTPException (status_code : Z) (detail : text)
| Uncaught (e : text).

Inductive reply (A : Type) : Type :=
| Reply (a : A)
| Failed (f : failure).

Arguments Reply {A} a.
Arguments Failed {A} f.

(** The dictionary that the endpoints return; [extracted_text] is [None] where
    the dictionary has no such key. *)
Record Analysis : Type := {
  extracted_text : option text;
  original_risk : Z;
  risk_score : Z;
  market_score : Z;
  evidence : list text;
  safe_text : text
}.

Definition UNSUPPORTED : text := cps "URL not supported. Use LinkedIn, X, or Facebook.".

(** The text that [analyze_url] makes up for a profile. *)
Definition linkedin_text (username : text) : text :=
  cps "LinkedIn Profile: " ++ username ++
  cps ". Manager at Google and Microsoft. Reach me at " ++ username ++ cps "@google.com".

Definition twitter_text (handle : text) : text :=
  cps "X handle: @" ++ handle ++
  cps ". Senior Engineer at Microsoft. Email: " ++ handle ++ cps "@outlook.com".

Definition facebook_text (user : text) : text :=
  cps "Facebook: " ++ user ++
  cps ". Lives in Hyderabad. Works at Google. Contact: 9876543210".

(** The [if] chain of [analyze_url] on the lower-cased URL: the made-up text and
    the risk reported as the original one, or [None] where the chain raises. *)
Definition simulated_profile (url : text) : option (text * Z) :=
  if contains (cps "linkedin.com") url then
    let username := strip_chars (cps "/") (last_piece (split (cps "/in/") url)) in
    Some (linkedin_text username, 85%Z)
  else if contains (cps "twitter.com") url || contains (cps "x.com") url then
    let handle := strip_chars (cps "@") (last_piece (split (cps "/") url)) in
    Some (twitter_text handle, 75%Z)
  else if contains (cps "facebook.com") url then
    let user :=
      if contains (cps "/") url then last_piece (split (cps "/") url) else cps "User" in
    Some (facebook_text user, 95%Z)
  else None.

(** The dictionaries are built in the order of their keys: [nlp_harden] is the
    last call of each endpoint, and what it raises leaves the endpoint. *)
Definition analyze_url (nlp : option pipeline) (data_url : text) : reply Analysis :=
  let url := Unicode.lower data_url in
  let engine := init in
  match simulated_profile url with
  | None => Failed (HTTPException 400 UNSUPPORTED)
  | Some (sim_text, orig_risk) =>
      let '(risk, logs) := simulate_adversary engine sim_text in
      match nlp_harden nlp engine sim_text with
      | Raises e => Failed (Uncaught e)
      | Returns safe =>
          Reply {| extracted_text := Some sim_text;
                   risk_score := risk;
                   original_risk := orig_risk;
                   market_score := (100 - risk)%Z;
                   evidence := logs;
                   safe_text := safe |}
      end
  end.

Definition process (nlp : option pipeline) (content : text) : reply Analysis :=
  let engine := init in
  let '(risk, logs) := simulate_adversary engine content in
  match nlp_harden nlp engine content with
  | Raises e => Failed (Uncaught e)
  | Returns safe =>
      Reply {| extracted_text := None;
               original_risk := risk;
               risk_score := risk;
               market_score := (100 - risk)%Z;
               evidence := logs;
               safe_text := safe |}
  end.

Definition NEWLINE : text := [0x0A%N].

(** A shape of a slide as the loops of [upload] read it: its text when it has the
    attribute, whether it has a text frame, and the runs of each paragraph of the
    frame. *)
Record Shape : Type := {
  shape_text : option text;
  has_text_frame : bool;
  paragraphs : list (list text)
}.

(** The document libraries, [None] for one that is not installed: [Document] gives
    the texts of the paragraphs, [fitz] the texts of the pages, [Presentation] the
    shapes of each slide; each may raise on the bytes it is given. *)
Record Libraries : Type := {
  Document : option (list Byte.byte -> outcome (list text));
  fitz : option (list Byte.byte -> outcome (list text));
  Presentation : option (list Byte.byte -> outcome (list (list Shape)))
}.

(** The body of the loop over the shapes of a slide. *)
Definition shape_step (txt : text) (shape : Shape) : text :=
  let txt :=
    match shape_text shape with
    | Some t => txt ++ t ++ NEWLINE
    | None => txt
    end in
  let txt :=
    if has_text_frame shape
    then fold_left (fun txt paragraph =>
                      fold_left (fun txt run => txt ++ run ++ cps " ") paragraph txt)
                   (paragraphs shape) txt
    else txt in
  txt ++ NEWLINE.

(** The [try] block of [upload]: the text of the file, or what a library raised.
    [decode] is [bytes.decode("utf-8", errors="ignore")]. *)
Definition extract (libs : Libraries) (decode : list Byte.byte -> text)
    (filename : text) (body : list Byte.byte) : outcome text :=
  match endswith (cps ".docx") filename, Document libs with
  | true, Some open_docx =>
      match open_docx body with
      | Raises e => Raises e
      | Returns paras => Returns (join NEWLINE paras)
      end
  | _, _ =>
  match endswith (cps ".pdf") filename, fitz libs with
  | true, Some open_pdf =>
      match open_pdf body with
      | Raises e => Raises e
      | Returns pages => Returns (join [] pages)
      end
  | _, _ =>
  match endswith (cps ".ppt") filename || endswith (cps ".pptx") filename,
        Presentation libs with
  | true, Some open_pptx =>
      match open_pptx body with
      | Raises e => Raises e
      | Returns slides =>
          Returns (fold_left (fun txt slide => fold_left shape_step slide txt) slides [])
      end
  | _, _ => Returns (decode body)
  end end end.

Definition NO_TEXT : text := cps "No readable text found in the file.".

Definition upload (libs : Libraries) (decode : list Byte.byte -> text)
    (nlp : option pipeline) (file_filename : text) (body : list Byte.byte)
    : reply Analysis :=
  let filename := Unicode.lower file_filename in
  match extract libs decode filename body with
  | Raises e => Failed (HTTPException 400 (cps "File processing error: " ++ e))
  | Returns txt =>
      match strip txt with
      | [] => Failed (HTTPException 400 NO_TEXT)
      | _ :: _ =>
          let engine := init in
          let '(risk, logs) := simulate_adversary engine txt in
          match nlp_harden nlp engine txt with
          | Raises e => Failed (Uncaught e)
          | Returns safe =>
              Reply {| extracted_text := Some (firstn 1500 txt);
                       original_risk := risk;
                       risk_score := risk;
                       market_score := (100 - risk)%Z;
                       evidence := logs;
                       safe_text := safe |}
          end
      end
  end.

(** No document library installed. *)
Definition no_libraries : Libraries :=
  {| Document := None; fitz := None; Presentation := None |}.

(** ** Notions for the further properties *)

(** [str.lower] of a stretch [s] of a text, with what stands before it (nearest
    character first) and after it. *)
Fixpoint do_lower_in (before s after : text) : text :=
  match s with
  | [] => []
  | c :: s' =>
      Unicode.lower_at before c (s' ++ after) ++ do_lower_in (c :: before) s' after
  end.

(** The two lower-case sigmas taken as one: all that the surroundings of a
    character can change in its lower case. *)
Definition one_sigma (c : char) : char := if N.eqb c 0x3C2 then 0x3C3%N else c.

Definition no_sigma (k : text) : bool :=
  forallb (fun p => negb (N.eqb p 0x3C2) && negb (N.eqb p 0x3C3)) k.

(** [repl] cannot take part in a text of the shape [q]: no such text holds its
    first or its last character, and none lies inside it. *)
Definition fences (q : Re.regex) (repl : text) : bool :=
  match repl with
  | [] => false
  | x :: _ =>
      negb (may_hold q x) && negb (may_hold q (last repl x)) &&
      negb (Re.truthy (Re.search q repl))
  end.

(** What a shape gives to the text: its own text, and the runs of its frame. *)
Definition shape_gives (shape : Shape) (p : text) : Prop :=
  shape_text shape = Some p \/
  (has_text_frame shape = true /\
   exists paragraph, In paragraph (paragraphs shape) /\ In p paragraph).


(** A document library that reads two paragraphs. *)
Definition sample_docx : Libraries :=
  {| Document := Some (fun _ => Returns [cps "Minutes"; cps "Write to jane@acme.com"]);
     fitz := None; Presentation := None |}.


(** The two substitutions that end the entity path. *)
Definition scrub (s : text) : text :=
  Re.sub Re.PHONE VERIFIED_LINE (Re.sub Re.EMAIL ID_GATEWAY s).

(** The text from offset [pos] on with each span replaced by its placeholder and
    each stretch before, between and after the spans scrubbed by itself. *)
Fixpoint harden_pieces (pos : nat) (ents : list Span) (rest : text) : text :=
  match ents with
  | [] => scrub rest
  | e :: ents' =>
      scrub (firstn (start_char e - pos) rest) ++ placeholder e ++
      harden_pieces (end_char e) ents' (skipn (end_char e - pos) rest)
  end.

(** A character that [str.lower] leaves as it is, wherever it stands. *)
Definition stable (x : char) : bool :=
  negb (N.eqb x 0x3A3) &&
  match Unicode.assoc Unicode.lower_special x with None => true | Some _ => false end &&
  N.eqb (Unicode.unicode_tolower x) x.

(** The images of an entry of a mapping table. *)
Definition image_points (e : N * N * N * N) : list char :=
  let '(lo, hi, step, target) := e in
  map (fun j => (target + step * N.of_nat j)%N) (seq 0 (S (N.to_nat ((hi - lo) / step)))).

Definition entry_stable (e : N * N * N * N) : bool :=
  let '(_, _, step, _) := e in negb (N.eqb step 0) && forallb stable (image_points e).

(** All the lines that the scorer can give with the taxonomy of the program. *)
Definition ALL_LINES : list text := PHISHING :: SIM_SWAP :: map RECON (keys (taxonomy init)).

(** A character that no pattern of the fallback path can hold. *)
Definition separator (c : char) : bool :=
  negb (may_hold Re.EMAIL c) && negb (may_hold Re.PHONE c) &&
  forallb (fun kv : text * text =>
             negb (may_hold (Re.compile_escaped_ignorecase (fst kv)) c))
          (taxonomy init).
(** * Properties *)

(** ** Texts *)

Lemma text_eqb_eq (a b : text) : text_eqb a b = true <-> a = b.
Proof.
  revert b; induction a as [|x a IH]; intros [|y b]; simpl; split; intro H;
    try reflexivity; try discriminate.
  - apply andb_prop in H as [Hx Hab]. apply N.eqb_eq in Hx. apply IH in Hab.
    now subst.
  - injection H as -> ->. rewrite N.eqb_refl. simpl. now apply IH.
Qed.

Lemma startswith_spec (p s : text) :
  startswith p s = true <-> exists post, s = p ++ post.
Proof.
  revert s; induction p as [|x p IH]; intros s; simpl.
  - split; [intros _; now exists s | reflexivity].
  - destruct s as [|y s].
    + split; [discriminate | intros [post H]; discriminate].
    + rewrite andb_true_iff, N.eqb_eq, IH. split.
      * intros [-> [post ->]]. now exists post.
      * intros [post H]. injection H as -> ->. split; [reflexivity | now exists post].
Qed.

Lemma contains_spec (p s : text) : contains p s = true <-> Substring p s.
Proof.
  unfold Substring. induction s as [|y s IH].
  - simpl. rewrite orb_false_r, startswith_spec. split.
    + intros [post H]. exists [], post. exact H.
    + intros [pre [post H]]. destruct pre; simpl in H.
      * now exists post.
      * discriminate.
  - cbn [contains]. rewrite orb_true_iff, startswith_spec, IH. split.
    + intros [[post H] | [pre [post H]]].
      * exists [], post. exact H.
      * exists (y :: pre), post. simpl. now rewrite H.
    + intros [[|z pre] [post H]]; simpl in H.
      * left. now exists post.
      * right. injection H as _ H. now exists pre, post.
Qed.

(** ** The matcher finds what the patterns describe *)

Lemma within_0 hi : within hi 0.
Proof. destruct hi; simpl; [lia | exact I]. Qed.

Lemma within_succ hi n :
  Re.may_repeat hi = true -> within (option_map Nat.pred hi) n -> within hi (S n).
Proof. destruct hi as [[|h]|]; simpl; intros; try discriminate; try lia; exact I. Qed.

Section MatcherCorrect.

Variable A : Type.

Lemma repeat_sound a : forall s lo hi (k : text -> option A) m,
  Re.repeat a lo hi s k = Some m ->
  exists w rest, s = w ++ rest /\ Forall (fun c => Re.atom_matches a c = true) w /\
    (lo <= length w)%nat /\ within hi (length w) /\ k rest = Some m.
Proof.
  induction s as [|c s IH]; intros lo hi k m H.
  - simpl in H. destruct lo; [|discriminate].
    exists [], []. repeat split; auto using within_0.
  - cbn [Re.repeat] in H.
    assert (Hstop : match lo with O => k (c :: s) | S _ => None end = Some m ->
      exists w rest, c :: s = w ++ rest /\ Forall (fun c => Re.atom_matches a c = true) w /\
        (lo <= length w)%nat /\ within hi (length w) /\ k rest = Some m).
    { intro Hs. destruct lo; [|discriminate].
      exists [], (c :: s). repeat split; auto using within_0. }
    destruct (Re.atom_matches a c && Re.may_repeat hi) eqn:Hc; [|now apply Hstop].
    destruct (Re.repeat a (Nat.pred lo) (option_map Nat.pred hi) s k) eqn:Hr;
      [|now apply Hstop].
    injection H as ->. apply andb_prop in Hc as [Hc Hm].
    apply IH in Hr as (w & rest & -> & Hw & Hlo & Hhi & Hk).
    exists (c :: w), rest. repeat split; auto.
    + simpl. lia.
    + now apply within_succ.
Qed.

Lemma repeat_complete a : forall w rest lo hi (k : text -> option A) m,
  Forall (fun c => Re.atom_matches a c = true) w ->
  (lo <= length w)%nat -> within hi (length w) -> k rest = Some m ->
  exists m', Re.repeat a lo hi (w ++ rest) k = Some m'.
Proof.
  induction w as [|c w IH]; intros rest lo hi k m Hw Hlo Hhi Hk.
  - simpl in Hlo. assert (lo = O) by lia. subst lo. simpl.
    destruct rest as [|c rest]; simpl.
    + eauto.
    + destruct (Re.atom_matches a c && Re.may_repeat hi); [|eauto].
      destruct (Re.repeat a 0 (option_map Nat.pred hi) rest k); eauto.
  - inversion Hw as [|? ? Hc Hw']; subst. cbn [app Re.repeat].
    assert (Hm : Re.may_repeat hi = true).
    { destruct hi as [[|h]|]; simpl in *; auto; lia. }
    rewrite Hc, Hm. simpl.
    destruct (IH rest (Nat.pred lo) (option_map Nat.pred hi) k m) as [m' Hm']; auto.
    + simpl in Hlo. lia.
    + destruct hi as [h|]; simpl in *; [lia | exact I].
    + rewrite Hm'. eauto.
Qed.

Lemma run_sound : forall r s (k : text -> option A) m,
  Re.run r s k = Some m ->
  exists w rest, s = w ++ rest /\ Matches r w /\ k rest = Some m.
Proof.
  induction r as [|a|r1 IH1 r2 IH2|n r IH|lo hi a|r IH]; intros s k m H; simpl in H.
  - exists [], s. split; [reflexivity | split; [constructor | exact H]].
  - destruct s as [|c s]; [discriminate|].
    destruct (Re.atom_matches a c) eqn:Hc; [|discriminate].
    exists [c], s. split; [reflexivity | split; [now constructor | exact H]].
  - apply IH1 in H as (w1 & rest1 & -> & M1 & H).
    apply IH2 in H as (w2 & rest2 & -> & M2 & H).
    exists (w1 ++ w2), rest2. rewrite <- app_assoc.
    split; [reflexivity | split; [now constructor | exact H]].
  - apply IH in H as (w & rest & -> & M & H).
    exists w, rest. split; [reflexivity | split; [now constructor | exact H]].
  - apply repeat_sound in H as (w & rest & -> & Hw & Hlo & Hhi & H).
    exists w, rest. split; [reflexivity | split; [now constructor | exact H]].
  - destruct (Re.run r s k) eqn:Hr.
    + injection H as ->. apply IH in Hr as (w & rest & -> & M & H).
      exists w, rest. split; [reflexivity | split; [now constructor | exact H]].
    + exists [], s. split; [reflexivity | split; [apply M_Skipped | exact H]].
Qed.

Lemma run_complete : forall r w, Matches r w ->
  forall rest (k : text -> option A) m, k rest = Some m ->
  exists m', Re.run r (w ++ rest) k = Some m'.
Proof.
  induction 1 as [|a c Hc|r1 r2 w1 w2 M1 IH1 M2 IH2|n r w M IH|lo hi a w Hw Hlo Hhi
                  |r w M IH|r]; intros rest k m Hk; simpl.
  - eauto.
  - rewrite Hc. eauto.
  - rewrite <- app_assoc.
    destruct (IH2 rest k m Hk) as [m2 H2].
    exact (IH1 (w2 ++ rest) (fun s' => Re.run r2 s' k) m2 H2).
  - eauto.
  - eapply repeat_complete; eauto.
  - destruct (IH rest k m Hk) as [m' ->]. eauto.
  - destruct (Re.run r rest k); eauto.
Qed.

End MatcherCorrect.

Lemma match_at_sound r s rest :
  Re.match_at r s = Some rest -> exists w, s = w ++ rest /\ Matches r w.
Proof.
  unfold Re.match_at. intro H.
  apply run_sound in H as (w & rest' & -> & M & H). injection H as ->. eauto.
Qed.

Lemma match_at_starts r s : Re.match_at r s <> None <-> StartsMatch r s.
Proof.
  unfold StartsMatch. split.
  - destruct (Re.match_at r s) as [rest|] eqn:H; [intros _ | congruence].
    apply match_at_sound in H as (w & -> & M). eauto.
  - intros (w & rest & -> & M).
    destruct (run_complete text r w M rest (@Some text) rest eq_refl) as [m' H].
    unfold Re.match_at. rewrite H. discriminate.
Qed.

Lemma match_at_none r s : Re.match_at r s = None <-> ~ StartsMatch r s.
Proof.
  rewrite <- match_at_starts. destruct (Re.match_at r s); split; intro H; try congruence.
  exfalso. apply H. discriminate.
Qed.

Lemma search_from_none r : forall s i,
  Re.search_from r i s = None <-> forall pre suf, s = pre ++ suf -> Re.match_at r suf = None.
Proof.
  induction s as [|c s IH]; intros i; simpl.
  - destruct (Re.match_at r []) eqn:H; split; intro H'; try discriminate; auto.
    + specialize (H' [] [] eq_refl). congruence.
    + intros pre suf E. symmetry in E. apply app_eq_nil in E as [-> ->]. exact H.
  - destruct (Re.match_at r (c :: s)) eqn:H.
    + split; [discriminate|]. intro H'. specialize (H' [] (c :: s) eq_refl). congruence.
    + rewrite IH. split; intros H' pre suf E.
      * destruct pre as [|x pre]; simpl in E.
        -- now subst suf.
        -- injection E as -> E. eauto.
      * apply (H' (c :: pre) suf). simpl. now rewrite E.
Qed.

(** [re.search] succeeds exactly on the texts with a substring of the shape. *)
Lemma search_occurs r s : Re.truthy (Re.search r s) = true <-> Occurs r s.
Proof.
  unfold Re.search, Occurs. split.
  - intro H. destruct (Re.search_from r 0 s) eqn:E; [clear H | discriminate].
    assert (N : Re.search_from r 0 s <> None) by congruence.
    rewrite search_from_none in N.
    assert (X : exists pre suf, s = pre ++ suf /\ Re.match_at r suf <> None).
    { clear E. revert N. generalize s. induction s0 as [|c s0 IH']; intro N.
      - exists [], []. split; auto. intro H0. apply N. intros pre suf E0.
        symmetry in E0. apply app_eq_nil in E0 as [-> ->]. exact H0.
      - destruct (Re.match_at r (c :: s0)) eqn:Hm.
        + exists [], (c :: s0). split; auto. congruence.
        + destruct IH' as (pre & suf & -> & Hs).
          * intro H0. apply N. intros pre suf E0.
            destruct pre as [|x pre]; simpl in E0; [now subst|].
            injection E0 as -> E0. eauto.
          * exists (c :: pre), suf. split; auto. }
    destruct X as (pre & suf & -> & Hs). apply match_at_starts in Hs as (w & rest & -> & M).
    eauto.
  - intros (pre & w & post & -> & M).
    destruct (Re.search_from r 0 (pre ++ w ++ post)) eqn:E; [reflexivity|].
    rewrite search_from_none in E. specialize (E pre (w ++ post) eq_refl).
    apply match_at_none in E. exfalso. apply E. exists w, post. auto.
Qed.

Lemma search_none_occurs r s : Re.truthy (Re.search r s) = false <-> ~ Occurs r s.
Proof.
  rewrite <- search_occurs. destruct (Re.truthy (Re.search r s)); split; intro H.
  - discriminate.
  - exfalso. now apply H.
  - discriminate.
  - reflexivity.
Qed.

(** ** Substitution *)

Lemma Matches_min_length r w : Matches r w -> (min_length r <= length w)%nat.
Proof.
  induction 1; simpl; try lia. rewrite length_app. lia.
Qed.

Lemma Matches_nonempty r w : (0 < min_length r)%nat -> Matches r w -> w <> [].
Proof.
  intros Hr M ->. apply Matches_min_length in M. simpl in M. lia.
Qed.

Lemma min_length_escaped k : min_length (Re.compile_escaped_ignorecase k) = length k.
Proof. induction k as [|c k IH]; simpl; [reflexivity | now rewrite IH]. Qed.

Lemma sub_from_skip r repl : forall s n, (n <= length s)%nat ->
  Re.sub_from r repl n s = Re.sub_from r repl 0 (skipn n s).
Proof.
  induction s as [|c s IH]; intros [|n] Hn; try reflexivity.
  - simpl in Hn. lia.
  - cbn [Re.sub_from skipn]. apply IH. simpl in Hn. lia.
Qed.

(** The step of the scan at a character where a match starts. *)
Lemma sub_from_match r repl c s rest :
  Re.match_at r (c :: s) = Some rest -> (length rest < length (c :: s))%nat ->
  Re.sub_from r repl 0 (c :: s) = repl ++ Re.sub_from r repl 0 rest.
Proof.
  intros Hm Hlen. cbn [Re.sub_from]. rewrite Hm.
  apply match_at_sound in Hm as (w & E & _).
  destruct (length (c :: s) - length rest)%nat as [|n] eqn:Hn; [lia|].
  f_equal. destruct w as [|x w]; simpl in E.
  - subst rest. lia.
  - injection E as <- ->. cbn [length] in Hn. rewrite length_app in Hn.
    assert (n = length w) by lia. subst n. rewrite sub_from_skip.
    + f_equal. now rewrite skipn_app, skipn_all, Nat.sub_diag.
    + rewrite length_app. lia.
Qed.

Lemma sub_from_keep r repl c s :
  Re.match_at r (c :: s) = None ->
  Re.sub_from r repl 0 (c :: s) = c :: Re.sub_from r repl 0 s.
Proof. intro Hm. cbn [Re.sub_from]. now rewrite Hm. Qed.

(** [re.sub] replaces, from the left, every substring of the shape of a pattern
    that matches no empty text. *)
Lemma sub_Replaced r repl : (0 < min_length r)%nat ->
  forall s, Replaced r repl s (Re.sub r repl s).
Proof.
  intros Hr s. unfold Re.sub.
  remember (length s) as n eqn:Hn. revert s Hn.
  induction n as [n IH] using lt_wf_ind. intros [|c s] Hn.
  - simpl. destruct (Re.match_at r []) as [rest|] eqn:Hm; [|constructor].
    apply match_at_sound in Hm as (w & E & M).
    symmetry in E. apply app_eq_nil in E as [-> _].
    now apply Matches_nonempty in M.
  - destruct (Re.match_at r (c :: s)) as [rest|] eqn:Hm.
    + pose proof Hm as Hm'. apply match_at_sound in Hm' as (w & E & M).
      pose proof (Matches_nonempty r w Hr M) as Hw.
      assert (Hlen : (length rest < length (c :: s))%nat).
      { rewrite E, length_app. destruct w; [congruence | simpl; lia]. }
      rewrite (sub_from_match r repl c s rest Hm Hlen), E.
      apply Replaced_match; auto. apply (IH (length rest)); auto. lia.
    + rewrite (sub_from_keep r repl c s Hm). apply Replaced_keep.
      * now apply match_at_none.
      * apply (IH (length s)); auto. simpl in Hn. lia.
Qed.

(** A text without a substring of the shape is left as it is. *)
Lemma sub_identity r repl s : ~ Occurs r s -> Re.sub r repl s = s.
Proof.
  unfold Re.sub. induction s as [|c s IH]; intro H.
  - simpl. destruct (Re.match_at r []) eqn:Hm; [|reflexivity].
    exfalso. apply H. apply match_at_sound in Hm as (w & E & M).
    exists [], w, t. auto.
  - destruct (Re.match_at r (c :: s)) eqn:Hm.
    + exfalso. apply H. apply match_at_sound in Hm as (w & E & M).
      exists [], w, t. auto.
    + rewrite (sub_from_keep r repl c s Hm). f_equal. apply IH.
      intros (pre & w & post & -> & M). apply H. exists (c :: pre), w, post. auto.
Qed.


(** ** The shapes of the two patterns *)

Lemma Matches_Cat r1 r2 w :
  Matches (Re.Cat r1 r2) w <->
  exists w1 w2, w = w1 ++ w2 /\ Matches r1 w1 /\ Matches r2 w2.
Proof.
  split.
  - intro M. inversion M; subst. eauto.
  - intros (w1 & w2 & -> & M1 & M2). now constructor.
Qed.

Lemma Matches_One a w :
  Matches (Re.One a) w <-> exists c, w = [c] /\ Re.atom_matches a c = true.
Proof.
  split.
  - intro M. inversion M; subst. eauto.
  - intros (c & -> & H). now constructor.
Qed.

Lemma Matches_Repeat lo hi a w :
  Matches (Re.Repeat lo hi a) w <->
  Forall (fun c => Re.atom_matches a c = true) w /\ lo <= length w /\ within hi (length w).
Proof.
  split.
  - intro M. inversion M; subst. auto.
  - intros (H1 & H2 & H3). now constructor.
Qed.

Lemma Matches_Optional r w : Matches (Re.Optional r) w <-> w = [] \/ Matches r w.
Proof.
  split.
  - intro M. inversion M; subst; auto.
  - intros [-> | M]; [apply M_Skipped | now apply M_Taken].
Qed.

Lemma Matches_Group n r w : Matches (Re.Group n r) w <-> Matches r w.
Proof.
  split.
  - intro M. now inversion M; subst.
  - intro M. now constructor.
Qed.

Lemma alnum_matches rest c :
  Re.atom_matches (Re.In (Re.alnum ++ rest)) c = true <->
  ascii_alnum c \/ Re.atom_matches (Re.In rest) c = true.
Proof.
  unfold ascii_alnum. cbn [Re.atom_matches Re.alnum app existsb Re.item_matches].
  rewrite !orb_true_iff, !andb_true_iff, !N.leb_le. tauto.
Qed.

(** The characters of the three parts of an address. *)
Lemma LOCAL_matches c :
  Re.atom_matches Re.LOCAL c = true <->
  ascii_alnum c \/ c = 0x5F%N \/ c = 0x2E%N \/ c = 0x2B%N \/ c = 0x2D%N.
Proof.
  unfold Re.LOCAL. rewrite alnum_matches. cbn [Re.atom_matches existsb Re.item_matches].
  rewrite !orb_true_iff, !N.eqb_eq. intuition discriminate.
Qed.

Lemma DOMAIN_matches c :
  Re.atom_matches Re.DOMAIN c = true <-> ascii_alnum c \/ c = 0x2D%N.
Proof.
  unfold Re.DOMAIN. rewrite alnum_matches. cbn [Re.atom_matches existsb Re.item_matches].
  rewrite !orb_true_iff, !N.eqb_eq. intuition discriminate.
Qed.

Lemma SUFFIX_matches c :
  Re.atom_matches Re.SUFFIX c = true <-> ascii_alnum c \/ c = 0x2D%N \/ c = 0x2E%N.
Proof.
  unfold Re.SUFFIX. rewrite alnum_matches. cbn [Re.atom_matches existsb Re.item_matches].
  rewrite !orb_true_iff, !N.eqb_eq. intuition discriminate.
Qed.

Lemma DIGIT_matches c : Re.atom_matches Re.DIGIT c = true <-> Unicode.isdecimal c = true.
Proof. simpl. now rewrite orb_false_r. Qed.

Lemma SEPARATOR_matches c :
  Re.atom_matches Re.SEPARATOR c = true <-> Unicode.isspace c = true \/ c = 0x2D%N.
Proof. simpl. now rewrite orb_false_r, orb_true_iff, N.eqb_eq. Qed.

(** Email-shaped: a local part, "@", a domain, ".", a suffix, none of them empty. *)
Lemma email_shape w :
  Matches Re.EMAIL w <->
  exists loc dom suf,
    w = loc ++ [0x40%N] ++ dom ++ [0x2E%N] ++ suf /\
    loc <> [] /\ dom <> [] /\ suf <> [] /\
    Forall (fun c => Re.atom_matches Re.LOCAL c = true) loc /\
    Forall (fun c => Re.atom_matches Re.DOMAIN c = true) dom /\
    Forall (fun c => Re.atom_matches Re.SUFFIX c = true) suf.
Proof.
  unfold Re.EMAIL. split.
  - intro M.
    apply Matches_Cat in M as (loc & w1 & -> & Ml & M).
    apply Matches_Cat in M as (at_ & w2 & -> & Ma & M).
    apply Matches_Cat in M as (dom & w3 & -> & Md & M).
    apply Matches_Cat in M as (dot & suf & -> & Mo & Ms).
    apply Matches_One in Ma as (a & -> & Ha). apply Matches_One in Mo as (o & -> & Ho).
    simpl in Ha, Ho. apply N.eqb_eq in Ha, Ho. subst a o.
    apply Matches_Repeat in Ml as (Fl & Ll & _).
    apply Matches_Repeat in Md as (Fd & Ld & _).
    apply Matches_Repeat in Ms as (Fs & Ls & _).
    exists loc, dom, suf. split; [reflexivity|].
    repeat split; auto; intros ->; simpl in *; lia.
  - intros (loc & dom & suf & -> & Nl & Nd & Ns & Fl & Fd & Fs).
    assert (L : forall s : text, s <> [] -> 1 <= length s)
      by (intros [|? ?] ?; [congruence | simpl; lia]).
    apply M_Cat; [apply M_Repeat; simpl; auto|].
    apply M_Cat; [now apply M_One|].
    apply M_Cat; [apply M_Repeat; simpl; auto|].
    apply M_Cat; [now apply M_One|].
    apply M_Repeat; simpl; auto.
Qed.

(** Phone-shaped: ten digits, after nothing or after a prefix made of an optional
    "+", one to three digits and an optional space or hyphen. *)
Lemma phone_shape w :
  Matches Re.PHONE w <->
  exists prefix number,
    w = prefix ++ number /\ length number = 10 /\
    Forall (fun c => Unicode.isdecimal c = true) number /\
    (prefix = [] \/
     exists plus code sep,
       prefix = plus ++ code ++ sep /\
       (plus = [] \/ plus = [0x2B%N]) /\
       1 <= length code <= 3 /\ Forall (fun c => Unicode.isdecimal c = true) code /\
       (sep = [] \/ exists c, sep = [c] /\ (Unicode.isspace c = true \/ c = 0x2D%N))).
Proof.
  unfold Re.PHONE. split.
  - intro M.
    apply Matches_Cat in M as (prefix & number & -> & Mp & Mn).
    apply Matches_Group, Matches_Repeat in Mn as (Fn & Ln & Hn). simpl in Hn.
    exists prefix, number. split; [reflexivity|]. split; [lia|].
    split; [eapply Forall_impl; [|exact Fn]; intros c; apply DIGIT_matches|].
    apply Matches_Optional in Mp as [-> | Mp]; [now left | right].
    apply Matches_Group in Mp.
    apply Matches_Cat in Mp as (plus & w1 & -> & Mplus & Mp).
    apply Matches_Cat in Mp as (code & sep & -> & Mc & Ms).
    apply Matches_Repeat in Mplus as (Fp & _ & Hp).
    apply Matches_Repeat in Mc as (Fc & Lc & Hc).
    apply Matches_Repeat in Ms as (Fs & _ & Hs). simpl in Hp, Hc, Hs.
    exists plus, code, sep. split; [reflexivity|]. split; [|split; [lia|split]].
    + destruct plus as [|c [|? ?]]; [now left | right | simpl in Hp; lia].
      inversion Fp as [|? ? Hc0 _]; subst. simpl in Hc0. apply N.eqb_eq in Hc0. now subst.
    + eapply Forall_impl; [|exact Fc]. intros c. apply DIGIT_matches.
    + destruct sep as [|c [|? ?]]; [now left | right | simpl in Hs; lia].
      inversion Fs as [|? ? Hc0 _]; subst. exists c. split; [reflexivity|].
      now apply SEPARATOR_matches.
  - intros (prefix & number & -> & Ln & Fn & Hp).
    apply M_Cat.
    + destruct Hp as [-> | (plus & code & sep & -> & Hplus & Lc & Fc & Hsep)];
        [apply M_Skipped|].
      apply M_Taken, M_Group.
      apply M_Cat; [|apply M_Cat].
      * apply M_Repeat; destruct Hplus as [-> | ->]; simpl; auto; try lia;
          repeat constructor.
      * apply M_Repeat; simpl; try lia.
        eapply Forall_impl; [|exact Fc]. intros c. apply DIGIT_matches.
      * apply M_Repeat; destruct Hsep as [-> | (c & -> & Hc)]; simpl; auto; try lia;
          try (constructor; [now apply SEPARATOR_matches | constructor]).
    + apply M_Group, M_Repeat; simpl; try lia.
      eapply Forall_impl; [|exact Fn]. intros c. apply DIGIT_matches.
Qed.

(** ** Lower-casing, character by character *)

Lemma lowers_to_LowersTo c p : lowers_to c p = true -> LowersTo c p.
Proof.
  unfold lowers_to, LowersTo, Unicode.lower_at. intros H before after.
  apply andb_prop in H as [Hc Hl]. apply negb_true_iff in Hc. rewrite Hc.
  now apply text_eqb_eq.
Qed.

Lemma do_lower_app : forall x y before,
  exists X, Unicode.do_lower before (x ++ y) = X ++ Unicode.do_lower (rev x ++ before) y.
Proof.
  induction x as [|c x IH]; intros y before; simpl.
  - now exists [].
  - destruct (IH y (c :: before)) as [X ->].
    exists (Unicode.lower_at before c (x ++ y) ++ X).
    now rewrite <- !app_assoc.
Qed.

Lemma do_lower_pointwise : forall w k, Forall2 LowersTo w k ->
  forall y before,
  Unicode.do_lower before (w ++ y) = k ++ Unicode.do_lower (rev w ++ before) y.
Proof.
  induction 1 as [|c p w k Hc Hw IH]; intros y before; simpl.
  - reflexivity.
  - rewrite Hc, IH, <- app_assoc. reflexivity.
Qed.

(** A stretch of the text that lower-cases, character by character, to [k] makes [k]
    a substring of the lower-cased text. *)
Lemma lower_substring pre w post k :
  Forall2 LowersTo w k -> Substring k (Unicode.lower (pre ++ w ++ post)).
Proof.
  intro H. unfold Unicode.lower.
  destruct (do_lower_app pre (w ++ post) []) as [X ->].
  rewrite (do_lower_pointwise w k H). now exists X, (Unicode.do_lower (rev w ++ rev pre ++ []) post).
Qed.

(** ** The scorer *)

Lemma brand_loop txt : forall terms score logs,
  fold_left (brand_step txt) terms (score, logs) =
  let hits := filter (fun term => contains term (Unicode.lower txt)) terms in
  ((score + 15 * Z.of_nat (length hits))%Z, logs ++ map RECON hits).
Proof.
  induction terms as [|t terms IH]; intros score logs; cbn [fold_left filter brand_step].
  - cbn. rewrite app_nil_r. f_equal. lia.
  - destruct (contains t (Unicode.lower txt)); rewrite IH; cbn zeta.
    + cbn [length map]. rewrite <- app_assoc. f_equal. lia.
    + reflexivity.
Qed.

Lemma simulate_adversary_assessment self txt :
  simulate_adversary self txt =
  let a := assessment (Re.truthy (Re.search Re.EMAIL txt))
                      (Re.truthy (Re.search Re.PHONE txt))
                      (fired (taxonomy self) txt) in
  (Z.min (fst a) 100, snd a).
Proof.
  unfold simulate_adversary, assessment, fired.
  destruct (Re.truthy (Re.search Re.EMAIL txt)), (Re.truthy (Re.search Re.PHONE txt));
    rewrite brand_loop; cbn; f_equal; lia.
Qed.

Lemma fired_spec d txt term :
  In term (fired d txt) <-> In term (keys d) /\ Substring term (Unicode.lower txt).
Proof. unfold fired. now rewrite filter_In, contains_spec. Qed.

Lemma assessment_nonneg email phone terms : (0 <= fst (assessment email phone terms))%Z.
Proof. unfold assessment. destruct email, phone; cbn [fst b2z]; lia. Qed.

(** ** Claims about the scorer *)

(** C1. For every text, [simulate_adversary] returns the score and the evidence that
    §4.1 accumulates in its fixed order: 40 and the phishing line when the text has
    an email-shaped substring (once), then 30 and the SIM-swap line when it has a
    phone-shaped substring (once), then 15 and a RECON line for each taxonomy term
    that is a substring of the lower-cased text, in taxonomy order; the sum is
    returned through [min(_, 100)].  The terms of the taxonomy are their own
    lower-case forms.  For "jane@acme.com works at Google, call 9876543210" the
    result is 85 with the email, phone and GOOGLE lines in that order. *)
Theorem C1_assess_fixed_order :
  (forall self txt, exists email phone : bool,
     (email = true <-> Occurs Re.EMAIL txt) /\
     (phone = true <-> Occurs Re.PHONE txt) /\
     (forall term, In term (fired (taxonomy self) txt) <->
                   In term (keys (taxonomy self)) /\ Substring term (Unicode.lower txt)) /\
     fired (taxonomy self) txt =
       filter (fun term => contains term (Unicode.lower txt)) (keys (taxonomy self)) /\
     simulate_adversary self txt =
       (Z.min (40 * b2z email + 30 * b2z phone +
               15 * Z.of_nat (length (fired (taxonomy self) txt))) 100,
        (if email then [PHISHING] else []) ++ (if phone then [SIM_SWAP] else []) ++
        map RECON (fired (taxonomy self) txt))) /\
  map Unicode.lower (keys (taxonomy init)) = keys (taxonomy init) /\
  simulate_adversary init (cps "jane@acme.com works at Google, call 9876543210") =
    (85%Z, [cps "LEAK: Direct email identified. Vulnerable to Phishing.";
            cps "LEAK: Phone contact exposed. Vulnerable to SIM-swap.";
            cps "RECON: Connection to GOOGLE found."]).
Proof.
  split; [|split; vm_compute; reflexivity].
  intros self txt.
  exists (Re.truthy (Re.search Re.EMAIL txt)), (Re.truthy (Re.search Re.PHONE txt)).
  split; [apply search_occurs|]. split; [apply search_occurs|].
  split; [intro term; apply fired_spec|]. split; [reflexivity|].
  apply simulate_adversary_assessment.
Qed.

(** C5. For every text, and every taxonomy, the score that [simulate_adversary]
    returns is between 0 and 100; a text on which the indicators add up to 115 is
    scored 100. *)
Theorem C5_score_bounded :
  (forall self txt, (0 <= fst (simulate_adversary self txt) <= 100)%Z) /\
  simulate_adversary init (cps "a@b.co 9876543210 Google Microsoft manager") =
    (100%Z, [PHISHING; SIM_SWAP; RECON (cps "google"); RECON (cps "microsoft");
             RECON (cps "manager")]).
Proof.
  split; [|vm_compute; reflexivity].
  intros self txt. rewrite simulate_adversary_assessment. cbn [fst].
  pose proof (assessment_nonneg (Re.truthy (Re.search Re.EMAIL txt))
                (Re.truthy (Re.search Re.PHONE txt)) (fired (taxonomy self) txt)).
  lia.
Qed.

(** C6. A text without an email-shaped substring, without a phone-shaped substring
    and whose lower-cased form has no taxonomy term as a substring is scored 0 with
    no evidence; the scorer is a total function, so nothing is raised. *)
Theorem C6_clean_text_zero self txt :
  ~ Occurs Re.EMAIL txt ->
  ~ Occurs Re.PHONE txt ->
  (forall term, In term (keys (taxonomy self)) -> ~ Substring term (Unicode.lower txt)) ->
  simulate_adversary self txt = (0%Z, []).
Proof.
  intros He Hp Ht. rewrite simulate_adversary_assessment.
  apply search_none_occurs in He, Hp. rewrite He, Hp.
  assert (Hf : fired (taxonomy self) txt = []).
  { destruct (fired (taxonomy self) txt) as [|t l] eqn:E; [reflexivity|].
    assert (Hin : In t (fired (taxonomy self) txt)) by (rewrite E; now left).
    apply fired_spec in Hin as [Hk Hs]. now apply Ht in Hs. }
  rewrite Hf. reflexivity.
Qed.

Lemma C6_clean_text_zero_witness :
  simulate_adversary init (cps "hello world") = (0%Z, []).
Proof.
  apply (C6_clean_text_zero init (cps "hello world")).
  - apply search_none_occurs. vm_compute. reflexivity.
  - apply search_none_occurs. vm_compute. reflexivity.
  - intros term Hin Hs. apply contains_spec in Hs.
    assert (F : forallb (fun k => negb (contains k (Unicode.lower (cps "hello world"))))
                        (keys (taxonomy init)) = true) by (vm_compute; reflexivity).
    rewrite forallb_forall in F. apply F in Hin. rewrite Hs in Hin. discriminate.
Defined.

(** ** Claims about the fallback path *)

Lemma escaped_Matches : forall k w,
  Matches (Re.compile_escaped_ignorecase k) w <->
  Forall2 (fun p c => Re.ignorecase_matches p c = true) k w.
Proof.
  induction k as [|p k IH]; intros w; simpl; split; intro H.
  - inversion H. constructor.
  - inversion H. constructor.
  - inversion H as [| |r1 r2 w1 w2 M1 M2| | | |]; subst.
    inversion M1 as [|a c Hc| | | | |]; subst. simpl. constructor.
    + exact Hc.
    + now apply IH.
  - inversion H as [|x c k' w' Hc Hw]; subst.
    change (c :: w') with ([c] ++ w'). constructor.
    + now constructor.
    + now apply IH.
Qed.

(** C10. The phone pattern is not anchored: ten digits fire it wherever they
    stand, and the run of eleven digits "12345678901" is matched whole (one digit
    as the prefix, ten as the number), scored 30 with the SIM-swap line only, and
    rewritten to "[VERIFIED_LINE]" by the fallback path. *)
Theorem C10_long_digit_run :
  simulate_adversary init (cps "12345678901") =
    (30%Z, [cps "LEAK: Phone contact exposed. Vulnerable to SIM-swap."]) /\
  Re.search Re.PHONE (cps "12345678901") = Some (0, 11)%nat /\
  fallback_harden init (cps "12345678901") = cps "[VERIFIED_LINE]" /\
  (forall pre post,
     Re.truthy (Re.search Re.PHONE (pre ++ cps "2345678901" ++ post)) = true).
Proof.
  split; [vm_compute; reflexivity|]. split; [vm_compute; reflexivity|].
  split; [vm_compute; reflexivity|].
  intros pre post. apply search_occurs. exists pre, (cps "2345678901"), post.
  split; [reflexivity|].
  change (cps "2345678901") with ([] ++ cps "2345678901").
  apply M_Cat; [apply M_Skipped|]. apply M_Group. apply M_Repeat.
  - repeat constructor.
  - simpl. lia.
  - simpl. lia.
Qed.

(** ** Claims about the entity path *)

Lemma firstn_split (l : text) : forall a b, (a <= b)%nat ->
  firstn a l ++ firstn (b - a) (skipn a l) = firstn b l.
Proof.
  induction l as [|x l IH]; intros a b Hab.
  - now rewrite skipn_nil, !firstn_nil.
  - destruct a as [|a].
    + simpl. now rewrite Nat.sub_0_r.
    + destruct b as [|b]; [lia|]. simpl. f_equal. apply IH. lia.
Qed.

Lemma skipn_skipn_add (l : text) : forall a b, skipn a (skipn b l) = skipn (b + a) l.
Proof.
  induction l as [|x l IH]; intros a b.
  - now rewrite !skipn_nil.
  - destruct b as [|b]; simpl; [reflexivity | apply IH].
Qed.

Lemma ordered_bound : forall ents pos len, ordered pos ents len -> (pos <= len)%nat.
Proof.
  induction ents as [|e ents IH]; intros pos len H; simpl in H.
  - exact H.
  - destruct H as (H1 & H2 & H3). apply IH in H3. lia.
Qed.

Lemma ordered_starts : forall ents pos len, ordered pos ents len ->
  Forall (fun x => (pos <= start_char x)%nat) ents.
Proof.
  induction ents as [|e ents IH]; intros pos len H; simpl in H; constructor.
  - tauto.
  - destruct H as (H1 & H2 & H3). apply IH in H3.
    eapply Forall_impl; [|exact H3]. simpl. intros. lia.
Qed.

Lemma entity_step_unfold hardened e :
  entity_step hardened e =
  if hidden e
  then firstn (start_char e) hardened ++ placeholder e ++ skipn (end_char e) hardened
  else hardened.
Proof. reflexivity. Qed.

(** Right to left, every replacement finds its span where the text had it. *)
Lemma entity_pass : forall ents txt pos, ordered pos ents (length txt) ->
  fold_left entity_step (rev ents) txt =
  firstn pos txt ++ replace_spans pos ents (skipn pos txt).
Proof.
  induction ents as [|e ents IH]; intros txt pos H.
  - simpl. now rewrite firstn_skipn.
  - simpl in H. destruct H as (H1 & H2 & H3).
    pose proof (ordered_bound _ _ _ H3) as HE.
    cbn [rev]. rewrite fold_left_app. cbn [fold_left].
    rewrite (IH txt (end_char e) H3), entity_step_unfold.
    cbn [replace_spans].
    assert (E1 : skipn (end_char e - pos) (skipn pos txt) = skipn (end_char e) txt)
      by (rewrite skipn_skipn_add; f_equal; lia).
    assert (E2 : skipn (start_char e - pos) (skipn pos txt) = skipn (start_char e) txt)
      by (rewrite skipn_skipn_add; f_equal; lia).
    rewrite E1, E2.
    set (R := replace_spans (end_char e) ents (skipn (end_char e) txt)).
    rewrite (app_assoc (firstn pos txt)), (firstn_split txt pos (start_char e) H1).
    destruct (hidden e).
    + assert (F1 : firstn (start_char e) (firstn (end_char e) txt ++ R) =
                   firstn (start_char e) txt).
      { rewrite firstn_app, firstn_firstn, length_firstn.
        replace (Nat.min (start_char e) (end_char e)) with (start_char e) by lia.
        replace (start_char e - Nat.min (end_char e) (length txt))%nat with 0%nat by lia.
        now rewrite firstn_O, app_nil_r. }
      assert (F2 : skipn (end_char e) (firstn (end_char e) txt ++ R) = R).
      { rewrite skipn_app, length_firstn.
        replace (end_char e - Nat.min (end_char e) (length txt))%nat with 0%nat by lia.
        rewrite skipn_all2; [reflexivity|]. rewrite length_firstn. lia. }
      now rewrite F1, F2.
    + rewrite app_assoc, firstn_split by lia. reflexivity.
Qed.

Lemma insert_desc_last e : forall l,
  Forall (fun x => (start_char e < start_char x)%nat) l -> insert_desc e l = l ++ [e].
Proof.
  induction 1 as [|x l Hx Hl IH]; simpl.
  - reflexivity.
  - destruct (Nat.leb_spec (start_char x) (start_char e)); [lia | now rewrite IH].
Qed.

Lemma ordered_rev_sorted : forall ents pos len, ordered pos ents len ->
  rev ents = sort_desc ents.
Proof.
  induction ents as [|e ents IH]; intros pos len H; simpl.
  - reflexivity.
  - simpl in H. destruct H as (H1 & H2 & H3).
    rewrite <- (IH _ _ H3). rewrite insert_desc_last; [reflexivity|].
    apply Forall_rev. apply ordered_starts in H3.
    eapply Forall_impl; [|exact H3]. simpl. intros. lia.
Qed.

(** C3, as the code has it.  [nlp_harden] takes the spans in the reverse of the
    order in which the model gives them, and does not sort them.  When the model
    gives them as [doc.ents] does (not empty, in text order, not overlapping, inside
    the text), that order is the one of a descending sort by start, every
    replacement acts on the stretch the span had in the text, and the result is the
    text with all hidden spans replaced at once, the email and phone substitutions
    done after; spans with another label stay as they are. *)
Theorem C3_entities_right_to_left (model : pipeline) self txt ents :
  model txt = Returns ents ->
  ordered 0 ents (length txt) ->
  rev ents = sort_desc ents /\
  fold_left entity_step (rev ents) txt = replace_spans 0 ents txt /\
  nlp_harden (Some model) self txt =
    Returns (Re.sub Re.PHONE VERIFIED_LINE
               (Re.sub Re.EMAIL ID_GATEWAY (replace_spans 0 ents txt))) /\
  nlp_harden (Some model) self txt = Returns (harden_sorted ents txt).
Proof.
  intros Hm Ho.
  pose proof (entity_pass ents txt 0 Ho) as HP. simpl in HP.
  assert (Hs := ordered_rev_sorted _ _ _ Ho).
  split; [exact Hs|]. split; [exact HP|].
  unfold nlp_harden, harden_sorted. rewrite Hm, <- Hs. cbn zeta. rewrite HP. split; reflexivity.
Qed.

Lemma C3_entities_right_to_left_witness :
  nlp_harden (Some (fun _ => Returns two_entities)) init (cps "abc def ghi") =
  Returns (cps "[HIDDEN_ORG] def [HIDDEN_PERSON]").
Proof.
  assert (Ho : ordered 0 two_entities (length (cps "abc def ghi"))) by (simpl; lia).
  destruct (C3_entities_right_to_left (fun _ => Returns two_entities) init
              (cps "abc def ghi") two_entities eq_refl Ho) as (_ & _ & H & _).
  refine (eq_trans H _). vm_compute. reflexivity.
Defined.

(** C3 as stated fails: on spans that the model gives right to left, the spans are
    not sorted, the first replacement moves the second span, and the result is not
    the one of the sorted pass. *)
Lemma C3_counterexample :
  nlp_harden (Some (fun _ => Returns unsorted_entities)) init (cps "abc def ghi") =
    Returns (cps "[HIDDEN_[HIDDEN_PERSON]] def ghi") /\
  harden_sorted unsorted_entities (cps "abc def ghi") =
    cps "[HIDDEN_ORG] def [HIDDEN_PERSON]" /\
  nlp_harden (Some (fun _ => Returns unsorted_entities)) init (cps "abc def ghi") <>
    Returns (harden_sorted unsorted_entities (cps "abc def ghi")).
Proof.
  split; [vm_compute; reflexivity|]. split; [vm_compute; reflexivity|].
  vm_compute. discriminate.
Qed.

(** C4, as the code has it.  When the model did not load ([nlp] is [None]),
    [nlp_harden] returns what the fallback path returns.  A model that raises is
    not caught: [nlp_harden] raises what the model raised. *)
Theorem C4_unavailable_falls_back self txt :
  nlp_harden None self txt = Returns (fallback_harden self txt) /\
  (forall (model : pipeline) e,
     model txt = Raises e -> nlp_harden (Some model) self txt = Raises e).
Proof.
  split; [reflexivity|]. intros model e H. unfold nlp_harden. now rewrite H.
Qed.

Lemma C4_unavailable_falls_back_witness :
  nlp_harden (Some (fun _ => Raises (cps "E"))) init (cps "hello") = Raises (cps "E").
Proof.
  destruct (C4_unavailable_falls_back init (cps "hello")) as [_ H].
  apply (H (fun _ => Raises (cps "E"))). reflexivity.
Defined.

(** C4 as stated fails: with a model that raises, [nlp_harden] raises too and does
    not return the result of the fallback path. *)
Lemma C4_counterexample :
  nlp_harden (Some (fun _ => Raises (cps "ValueError"))) init (cps "hello") =
    Raises (cps "ValueError") /\
  nlp_harden (Some (fun _ => Raises (cps "ValueError"))) init (cps "hello") <>
    Returns (fallback_harden init (cps "hello")).
Proof. split; [reflexivity | discriminate]. Qed.

(** C8. On the empty text the scorer returns 0 and no evidence, the fallback path
    returns the empty text, and so does [nlp_harden], both without a model and with
    a model that answers with spans inside the text (there are none). *)
Theorem C8_empty_text :
  simulate_adversary init [] = (0%Z, []) /\
  fallback_harden init [] = [] /\
  nlp_harden None init [] = Returns [] /\
  (forall (model : pipeline) ents,
     model [] = Returns ents -> ordered 0 ents 0 ->
     nlp_harden (Some model) init [] = Returns []).
Proof.
  split; [vm_compute; reflexivity|]. split; [vm_compute; reflexivity|].
  split; [vm_compute; reflexivity|].
  intros model ents Hm Ho. destruct ents as [|e ents].
  - unfold nlp_harden. rewrite Hm. vm_compute. reflexivity.
  - simpl in Ho. destruct Ho as (_ & H2 & H3). apply ordered_bound in H3. lia.
Qed.

Lemma C8_empty_text_witness :
  nlp_harden (Some (fun _ => Returns [])) init [] = Returns [].
Proof.
  destruct C8_empty_text as (_ & _ & _ & H).
  apply (H (fun _ => Returns []) []); [reflexivity | simpl; lia].
Defined.

(** ** Ignoring case and lower-casing *)

Lemma map_lookup_preimage t c q :
  Unicode.map_lookup t c = q -> c = q \/ In c (preimages t q).
Proof.
  unfold Unicode.map_lookup.
  destruct (find (Unicode.covers c) t) as [[[[lo hi] step] target]|] eqn:F.
  - intro E. right. apply find_some in F as [Hin Hc].
    unfold preimages. apply in_flat_map. exists (lo, hi, step, target).
    split; [exact Hin|]. simpl in Hc.
    apply andb_prop in Hc as [Hc _]. apply andb_prop in Hc as [Hlo Hhi].
    apply N.leb_le in Hlo, Hhi.
    replace ((target <=? q)%N && (q <=? target + (hi - lo))%N) with true.
    + left. lia.
    + symmetry. apply andb_true_iff. split; apply N.leb_le; lia.
  - intro E. now left.
Qed.

Lemma ignorecase_matches_class p c : Unicode.unicode_iscased p = true ->
  Re.ignorecase_matches p c =
  existsb (N.eqb (Unicode.unicode_tolower c)) (ignorecase_class p).
Proof.
  intro Hp. unfold Re.ignorecase_matches, ignorecase_class. rewrite Hp.
  destruct (Unicode.assoc Unicode.extra_cases (Unicode.unicode_tolower p)).
  - reflexivity.
  - simpl. now rewrite orb_false_r.
Qed.

Lemma ignorecase_chars_complete p c : Unicode.unicode_iscased p = true ->
  Re.ignorecase_matches p c = true -> In c (ignorecase_chars p).
Proof.
  intros Hp H. rewrite ignorecase_matches_class in H by exact Hp.
  apply existsb_exists in H as (q & Hq & E). apply N.eqb_eq in E.
  unfold ignorecase_chars. apply in_flat_map. exists q. split; [exact Hq|].
  destruct (map_lookup_preimage _ _ _ E) as [-> | Hin]; [now left | now right].
Qed.

(** Away from the irregular characters, what matches a term character with case
    ignored lower-cases to it ... *)
Lemma ignorecase_lowers p c :
  term_char_ok p = true -> irregular c = false ->
  Re.ignorecase_matches p c = true -> LowersTo c p.
Proof.
  unfold term_char_ok. intros Hp Hc Hm.
  apply andb_prop in Hp as [Hp Hall]. repeat (apply andb_prop in Hp as [Hp ?]).
  apply (ignorecase_chars_complete p c Hp) in Hm.
  rewrite forallb_forall in Hall. apply Hall in Hm. rewrite Hc in Hm.
  now apply lowers_to_LowersTo.
Qed.

(** The lower case of a character is one character, but for U+0130, which gives
    "i" and the combining dot U+0307. *)
Lemma lower_at_singleton c before after :
  c <> 0x130%N -> exists x, Unicode.lower_at before c after = [x].
Proof.
  intro Hc. apply N.eqb_neq in Hc.
  unfold Unicode.lower_at. destruct (N.eqb c 0x3A3); [eauto|].
  unfold Unicode.ToLowerFull. cbn [Unicode.lower_special Unicode.assoc].
  rewrite N.eqb_sym, Hc. eauto.
Qed.

Lemma lower_at_dotted before after :
  Unicode.lower_at before 0x130%N after = [0x69; 0x307]%N.
Proof. reflexivity. Qed.

(** ... and what lower-cases to it matches it. *)
Lemma lowers_ignorecase p c before after :
  term_char_ok p = true -> c <> 0x130%N ->
  Unicode.lower_at before c after = [p] -> Re.ignorecase_matches p c = true.
Proof.
  unfold term_char_ok. intros Hp Hc Hl.
  apply andb_prop in Hp as [Hp _].
  apply andb_prop in Hp as [Hp H3]. apply andb_prop in Hp as [Hp H2].
  apply andb_prop in Hp as [Hp Hlo]. apply N.eqb_eq in Hlo.
  apply negb_true_iff, N.eqb_neq in H2, H3.
  apply N.eqb_neq in Hc.
  assert (E : Unicode.unicode_tolower c = p).
  { unfold Unicode.lower_at in Hl. destruct (N.eqb c 0x3A3).
    - unfold Unicode.handle_capital_sigma in Hl.
      destruct (_ && _) in Hl; injection Hl as Hl; congruence.
    - unfold Unicode.ToLowerFull in Hl. cbn [Unicode.lower_special Unicode.assoc] in Hl.
      rewrite N.eqb_sym, Hc in Hl. now injection Hl. }
  rewrite ignorecase_matches_class by exact Hp.
  unfold ignorecase_class. rewrite Hlo, E. simpl. now rewrite N.eqb_refl.
Qed.

(** The combining dot is no character of a term, and "i" matches U+0130 when case
    is ignored. *)
Lemma term_char_not_dot p : term_char_ok p = true -> p <> 0x307%N.
Proof. intros H ->. vm_compute in H. discriminate. Qed.

Lemma dotted_matches_i : Re.ignorecase_matches 0x69%N 0x130%N = true.
Proof. vm_compute. reflexivity. Qed.

Lemma Forall2_ignorecase_lowers : forall k w,
  Forall (fun p => term_char_ok p = true) k -> regular_text w ->
  Forall2 (fun p c => Re.ignorecase_matches p c = true) k w ->
  Forall2 LowersTo w k.
Proof.
  intros k w Hk Hw H. induction H as [|p c k w Hc H IH]; constructor.
  - inversion Hk; inversion Hw; subst. now apply ignorecase_lowers.
  - inversion Hk; inversion Hw; subst. now apply IH.
Qed.

(** On a regular text, a term occurs with case ignored exactly when it is a
    substring of the lower-cased text. *)
Lemma occurs_lower k txt :
  Forall (fun p => term_char_ok p = true) k -> regular_text txt ->
  Occurs (Re.compile_escaped_ignorecase k) txt -> Substring k (Unicode.lower txt).
Proof.
  intros Hk Ht (pre & w & post & -> & M). apply lower_substring.
  apply escaped_Matches in M. apply Forall2_ignorecase_lowers; auto.
  unfold regular_text in *. apply Forall_app in Ht as [_ Ht].
  now apply Forall_app in Ht as [Ht _].
Qed.

(** A term at the head of the lower-cased text stands for a stretch at the head of
    the text that matches it with case ignored. *)
Lemma lower_prefix : forall k s before,
  Forall (fun p => term_char_ok p = true) k ->
  startswith k (Unicode.do_lower before s) = true ->
  exists w post, s = w ++ post /\
    Forall2 (fun p c => Re.ignorecase_matches p c = true) k w.
Proof.
  induction k as [|p k IH]; intros s before Hk H.
  - exists [], s. split; [reflexivity | constructor].
  - destruct s as [|c s]; [discriminate|].
    inversion Hk as [|? ? Hp Hk']; subst.
    cbn [Unicode.do_lower] in H.
    destruct (N.eq_dec c 0x130) as [-> | Hc].
    + rewrite lower_at_dotted in H. cbn [app startswith] in H.
      apply andb_prop in H as [E H]. apply N.eqb_eq in E. subst p.
      destruct k as [|q k].
      * exists [0x130%N], s. split; [reflexivity|].
        constructor; [exact dotted_matches_i | constructor].
      * exfalso. cbn [startswith] in H. apply andb_prop in H as [E _].
        apply N.eqb_eq in E. inversion Hk' as [|? ? Hq _]; subst.
        now apply (term_char_not_dot _ Hq).
    + destruct (lower_at_singleton c before s Hc) as [x Hx]. rewrite Hx in H.
      cbn [app startswith] in H. apply andb_prop in H as [E H].
      apply N.eqb_eq in E. subst x.
      destruct (IH s (c :: before) Hk' H) as (w & post & -> & F).
      exists (c :: w), post. split; [reflexivity|]. constructor; [|exact F].
      now apply (lowers_ignorecase p c before (w ++ post)).
Qed.

(** A term that is a substring of the lower-cased text occurs in the text with
    case ignored: whatever the text. *)
Lemma lower_occurs k : Forall (fun p => term_char_ok p = true) k -> k <> [] ->
  forall s before,
  contains k (Unicode.do_lower before s) = true ->
  Occurs (Re.compile_escaped_ignorecase k) s.
Proof.
  intros Hk Hne. induction s as [|c s IH]; intros before H.
  - simpl in H. rewrite orb_false_r in H.
    destruct (lower_prefix k [] before Hk H) as (w & post & E & F).
    exists [], w, post. split; [exact E | now apply escaped_Matches].
  - destruct (startswith k (Unicode.do_lower before (c :: s))) eqn:P.
    + destruct (lower_prefix k (c :: s) before Hk P) as (w & post & E & F).
      exists [], w, post. split; [exact E | now apply escaped_Matches].
    + assert (T : contains k (Unicode.do_lower (c :: before) s) = true).
      { cbn [Unicode.do_lower] in H, P.
        destruct (N.eq_dec c 0x130) as [-> | Hc].
        - rewrite lower_at_dotted in H, P. cbn [app] in H, P.
          cbn [contains] in H. rewrite P in H. cbn [orb] in H.
          apply orb_prop in H as [H | H]; [|exact H].
          exfalso. destruct k as [|q k]; [congruence|].
          cbn [startswith] in H. apply andb_prop in H as [E _].
          apply N.eqb_eq in E. inversion Hk as [|? ? Hq _]; subst.
          now apply (term_char_not_dot _ Hq).
        - destruct (lower_at_singleton c before s Hc) as [x Hx]. rewrite Hx in H, P.
          cbn [app] in H, P. cbn [contains] in H. rewrite P in H. exact H. }
      destruct (IH (c :: before) T) as (pre & w & post & -> & M).
      exists (c :: pre), w, post. split; [reflexivity | exact M].
Qed.

(** ** What a replacement does to a measure of the text *)

Lemma Matches_chars r w : Matches r w -> Forall (fun c => may_hold r c = true) w.
Proof.
  unfold may_hold.
  induction 1 as [|a c Hc|r1 r2 w1 w2 M1 IH1 M2 IH2|n r w M IH|lo hi a w Hw Hlo Hhi
                  |r w M IH|r]; simpl; auto.
  - constructor; [|constructor]. now rewrite Hc.
  - apply Forall_app. split.
    + eapply Forall_impl; [|exact IH1]. simpl. intros c H.
      rewrite existsb_app, H. reflexivity.
    + eapply Forall_impl; [|exact IH2]. simpl. intros c H.
      rewrite existsb_app, H. apply orb_true_r.
  - eapply Forall_impl; [|exact Hw]. simpl. intros c H. now rewrite H.
Qed.

Lemma Matches_no_bracket r w : may_hold r 0x5B%N = false -> Matches r w -> brackets w = 0.
Proof.
  intros Hr M. apply Matches_chars in M. unfold brackets.
  apply count_occ_not_In. intro Hin.
  rewrite Forall_forall in M. apply M in Hin. congruence.
Qed.

Lemma occurs_head_or_tail r c s :
  Occurs r (c :: s) -> StartsMatch r (c :: s) \/ Occurs r s.
Proof.
  intros ([|x pre] & w & post & E & M); simpl in E.
  - left. exists w, post. auto.
  - right. injection E as _ ->. exists pre, w, post. auto.
Qed.

Section Measure.

Variable mu : text -> nat.
Hypothesis mu_app : forall a b, mu (a ++ b) = mu a + mu b.

Lemma Replaced_le r repl :
  (forall w, Matches r w -> mu w <= mu repl) ->
  forall s out, Replaced r repl s out -> mu s <= mu out.
Proof.
  intros Hw s out H. induction H as [|c s out Hc Hr IH|w rest out Hn M Hr IH].
  - lia.
  - change (c :: s) with ([c] ++ s). change (c :: out) with ([c] ++ out).
    rewrite !mu_app. lia.
  - rewrite !mu_app. specialize (Hw w M). lia.
Qed.

Lemma Replaced_lt r repl :
  0 < min_length r ->
  (forall w, Matches r w -> mu w < mu repl) ->
  forall s out, Replaced r repl s out -> Occurs r s -> mu s < mu out.
Proof.
  intros Hr Hw s out H. induction H as [|c s out Hc Hrep IH|w rest out Hn M Hrep IH];
    intro Ho.
  - exfalso. destruct Ho as (pre & w & post & E & M).
    symmetry in E. apply app_eq_nil in E as [_ E]. apply app_eq_nil in E as [-> _].
    now apply (Matches_nonempty r [] Hr M).
  - apply occurs_head_or_tail in Ho as [Ho | Ho]; [contradiction|].
    change (c :: s) with ([c] ++ s). change (c :: out) with ([c] ++ out).
    rewrite !mu_app. specialize (IH Ho). lia.
  - rewrite !mu_app.
    assert (mu rest <= mu out).
    { apply (Replaced_le r repl); [|exact Hrep].
      intros w' M'. specialize (Hw w' M'). lia. }
    specialize (Hw w M). lia.
Qed.

End Measure.

Lemma brackets_app a b : brackets (a ++ b) = brackets a + brackets b.
Proof. apply count_occ_app. Qed.

(** ** The taxonomy pass on a taxonomy whose entries are as [entry_ok] says *)

Lemma entry_ok_spec k v : entry_ok (k, v) = true ->
  0 < length k /\ length k < length v /\
  may_hold (Re.compile_escaped_ignorecase k) 0x5B%N = false /\
  Forall (fun p => term_char_ok p = true) k.
Proof.
  unfold entry_ok. cbn [fst snd]. intro H.
  apply andb_prop in H as [H H4]. apply andb_prop in H as [H H3].
  apply andb_prop in H as [H1 H2].
  apply Nat.ltb_lt in H1, H2. apply negb_true_iff in H3.
  rewrite forallb_forall in H4. repeat split; auto. now apply Forall_forall.
Qed.

Lemma escaped_length k w :
  Matches (Re.compile_escaped_ignorecase k) w -> length w = length k.
Proof. intro M. apply escaped_Matches in M. symmetry. eapply Forall2_length, M. Qed.

Lemma taxonomy_step_Replaced s k v : 0 < length k ->
  Replaced (Re.compile_escaped_ignorecase k) v s (taxonomy_step s (k, v)).
Proof.
  intro Hk. apply sub_Replaced. now rewrite min_length_escaped.
Qed.

Lemma taxonomy_identity : forall d s,
  (forall k, In k (keys d) -> ~ Occurs (Re.compile_escaped_ignorecase k) s) ->
  fold_left taxonomy_step d s = s.
Proof.
  induction d as [|[k v] d IH]; intros s H; simpl.
  - reflexivity.
  - assert (E : taxonomy_step s (k, v) = s).
    { apply sub_identity. apply H. now left. }
    rewrite E. apply IH. intros k' Hk'. apply H. now right.
Qed.

Lemma taxonomy_length_le : forall d s, forallb entry_ok d = true ->
  length s <= length (fold_left taxonomy_step d s).
Proof.
  induction d as [|[k v] d IH]; intros s Hd; simpl.
  - lia.
  - simpl in Hd. apply andb_prop in Hd as [He Hd].
    apply entry_ok_spec in He as (H1 & H2 & _ & _).
    specialize (IH (taxonomy_step s (k, v)) Hd).
    assert (length s <= length (taxonomy_step s (k, v))).
    { apply (Replaced_le (@length char) (@length_app char)
               (Re.compile_escaped_ignorecase k) v).
      - intros w M. apply escaped_length in M. lia.
      - now apply taxonomy_step_Replaced. }
    lia.
Qed.

Lemma taxonomy_length_lt : forall d s, forallb entry_ok d = true ->
  (exists k, In k (keys d) /\ Occurs (Re.compile_escaped_ignorecase k) s) ->
  length s < length (fold_left taxonomy_step d s).
Proof.
  induction d as [|[k v] d IH]; intros s Hd (k' & Hin & Ho); simpl.
  - destruct Hin.
  - simpl in Hd. apply andb_prop in Hd as [He Hd].
    apply entry_ok_spec in He as (H1 & H2 & _ & _).
    assert (Dec : Re.truthy (Re.search (Re.compile_escaped_ignorecase k) s) = true \/
                  Re.truthy (Re.search (Re.compile_escaped_ignorecase k) s) = false)
      by (destruct (Re.truthy _); auto).
    destruct Dec as [Hy | Hn].
    + apply search_occurs in Hy.
      pose proof (taxonomy_length_le d (taxonomy_step s (k, v)) Hd).
      assert (length s < length (taxonomy_step s (k, v))).
      { apply (Replaced_lt (@length char) (@length_app char)
                 (Re.compile_escaped_ignorecase k) v).
        - now rewrite min_length_escaped.
        - intros w M. apply escaped_length in M. lia.
        - now apply taxonomy_step_Replaced.
        - exact Hy. }
      lia.
    + apply search_none_occurs in Hn.
      assert (E : taxonomy_step s (k, v) = s) by now apply sub_identity.
      rewrite E. apply IH; [exact Hd|]. exists k'. split; [|exact Ho].
      destruct Hin as [<- | Hin]; [contradiction | exact Hin].
Qed.

Lemma taxonomy_brackets_le : forall d s, forallb entry_ok d = true ->
  brackets s <= brackets (fold_left taxonomy_step d s).
Proof.
  induction d as [|[k v] d IH]; intros s Hd; simpl.
  - lia.
  - simpl in Hd. apply andb_prop in Hd as [He Hd].
    apply entry_ok_spec in He as (H1 & _ & H3 & _).
    specialize (IH (taxonomy_step s (k, v)) Hd).
    assert (brackets s <= brackets (taxonomy_step s (k, v))).
    { apply (Replaced_le brackets brackets_app (Re.compile_escaped_ignorecase k) v).
      - intros w M. rewrite (Matches_no_bracket _ _ H3 M). lia.
      - now apply taxonomy_step_Replaced. }
    lia.
Qed.

(** An email or phone substitution, when it has something to replace, leaves more
    "[" than it found. *)
Lemma sub_brackets_lt r repl s :
  0 < min_length r -> may_hold r 0x5B%N = false -> 0 < brackets repl ->
  Occurs r s -> brackets s < brackets (Re.sub r repl s).
Proof.
  intros Hr Hm Hrepl Ho.
  apply (Replaced_lt brackets brackets_app r repl); auto.
  - intros w M. rewrite (Matches_no_bracket _ _ Hm M). exact Hrepl.
  - now apply sub_Replaced.
Qed.

Lemma sub_brackets_le r repl s :
  0 < min_length r -> may_hold r 0x5B%N = false ->
  brackets s <= brackets (Re.sub r repl s).
Proof.
  intros Hr Hm.
  apply (Replaced_le brackets brackets_app r repl).
  - intros w M. rewrite (Matches_no_bracket _ _ Hm M). lia.
  - now apply sub_Replaced.
Qed.

Lemma score_zero self txt :
  fst (simulate_adversary self txt) = 0%Z <->
  ~ Occurs Re.EMAIL txt /\ ~ Occurs Re.PHONE txt /\ fired (taxonomy self) txt = [].
Proof.
  rewrite simulate_adversary_assessment. cbn [fst assessment].
  rewrite <- !search_none_occurs.
  destruct (Re.truthy (Re.search Re.EMAIL txt)), (Re.truthy (Re.search Re.PHONE txt)),
    (fired (taxonomy self) txt) as [|t l]; cbn [b2z length]; split;
    try (intro H; exfalso; lia);
    try (intros (H1 & H2 & H3); discriminate);
    auto.
Qed.

(** ** The fallback path on clean text *)

Lemma init_entries_ok : forallb entry_ok (taxonomy init) = true.
Proof. vm_compute. reflexivity. Qed.

Lemma init_term_chars k : In k (keys (taxonomy init)) ->
  Forall (fun p => term_char_ok p = true) k.
Proof.
  intro Hin. unfold keys in Hin. apply in_map_iff in Hin as ([k' v] & <- & Hin).
  pose proof init_entries_ok as H. rewrite forallb_forall in H.
  apply H in Hin. now apply entry_ok_spec in Hin.
Qed.

Lemma init_term_nonempty k : In k (keys (taxonomy init)) -> k <> [].
Proof.
  intro Hin. unfold keys in Hin. apply in_map_iff in Hin as ([k' v] & <- & Hin).
  pose proof init_entries_ok as H. rewrite forallb_forall in H.
  apply H in Hin. apply entry_ok_spec in Hin as (L & _). cbn [fst].
  intros ->. simpl in L. lia.
Qed.

Lemma clean_text_unchanged txt :
  regular_text txt -> fst (simulate_adversary init txt) = 0%Z ->
  fallback_harden init txt = txt.
Proof.
  intros Hreg H. apply score_zero in H as (He & Hp & Hf).
  unfold fallback_harden. cbn zeta.
  rewrite (sub_identity Re.EMAIL ID_GATEWAY txt He).
  rewrite (sub_identity Re.PHONE VERIFIED_LINE txt Hp).
  apply taxonomy_identity. intros k Hk Ho.
  apply (occurs_lower k txt (init_term_chars k Hk) Hreg) in Ho.
  assert (Hin : In k (fired (taxonomy init) txt)) by (apply fired_spec; auto).
  rewrite Hf in Hin. destruct Hin.
Qed.

(** A text that the fallback path returns as it is has no address, no number and
    no stretch that is a term up to case. *)
Lemma unchanged_text_plain txt :
  fallback_harden init txt = txt ->
  ~ Occurs Re.EMAIL txt /\ ~ Occurs Re.PHONE txt /\
  forall k, In k (keys (taxonomy init)) -> ~ Occurs (Re.compile_escaped_ignorecase k) txt.
Proof.
  intros H. unfold fallback_harden in H. cbn zeta in H.
  set (t1 := Re.sub Re.EMAIL ID_GATEWAY txt) in H.
  set (t2 := Re.sub Re.PHONE VERIFIED_LINE t1) in H.
  assert (B1 : brackets txt <= brackets t1)
    by (apply sub_brackets_le; [simpl; lia | reflexivity]).
  assert (B2 : brackets t1 <= brackets t2)
    by (apply sub_brackets_le; [simpl; lia | reflexivity]).
  pose proof (taxonomy_brackets_le (taxonomy init) t2 init_entries_ok) as B3.
  rewrite H in B3.
  assert (He : ~ Occurs Re.EMAIL txt).
  { intro Ho.
    assert (brackets txt < brackets t1)
      by (apply sub_brackets_lt; [simpl; lia | reflexivity | vm_compute; lia | exact Ho]).
    lia. }
  assert (E1 : t1 = txt) by now apply sub_identity.
  assert (Hp : ~ Occurs Re.PHONE txt).
  { intro Ho.
    assert (brackets t1 < brackets t2).
    { apply sub_brackets_lt; [simpl; lia | reflexivity | vm_compute; lia |].
      now rewrite E1. }
    lia. }
  assert (E2 : t2 = txt) by (unfold t2; rewrite E1; now apply sub_identity).
  split; [exact He|]. split; [exact Hp|]. intros k Hk Ho.
  assert (L : length t2 < length (fold_left taxonomy_step (taxonomy init) t2)).
  { apply taxonomy_length_lt; [exact init_entries_ok|]. exists k. now rewrite E2. }
  rewrite H, E2 in L. lia.
Qed.

Lemma unchanged_text_clean txt :
  fallback_harden init txt = txt -> fst (simulate_adversary init txt) = 0%Z.
Proof.
  intro H. apply unchanged_text_plain in H as (He & Hp & Ht).
  apply score_zero. split; [exact He|]. split; [exact Hp|].
  destruct (fired (taxonomy init) txt) as [|k l] eqn:Hf; [reflexivity|]. exfalso.
  assert (Hin : In k (fired (taxonomy init) txt)) by (rewrite Hf; now left).
  apply fired_spec in Hin as [Hk Hs]. apply contains_spec in Hs.
  apply (Ht k Hk).
  exact (lower_occurs k (init_term_chars k Hk) (init_term_nonempty k Hk) txt [] Hs).
Qed.

(** C9, as the code has it.  Whatever the text, when the fallback path returns it
    as it is the scorer returns 0.  The other way round holds on every text without
    U+0130, U+0131 and U+017F: when the scorer returns 0 the fallback path returns
    the text as it is.  On any text that is scored 0 the fallback path returns the
    text as it is exactly when no stretch of it is a term up to case. *)
Theorem C9_identity_on_clean_text txt :
  (fallback_harden init txt = txt -> fst (simulate_adversary init txt) = 0%Z) /\
  (regular_text txt -> fst (simulate_adversary init txt) = 0%Z ->
   fallback_harden init txt = txt) /\
  (fst (simulate_adversary init txt) = 0%Z ->
   (fallback_harden init txt = txt <->
    forall k, In k (keys (taxonomy init)) ->
              ~ Occurs (Re.compile_escaped_ignorecase k) txt)).
Proof.
  split; [exact (unchanged_text_clean txt)|].
  split; [exact (clean_text_unchanged txt)|].
  intro H. split.
  - intro E. now apply unchanged_text_plain in E.
  - intro Ht. apply score_zero in H as (He & Hp & _).
    unfold fallback_harden. cbn zeta.
    rewrite (sub_identity Re.EMAIL ID_GATEWAY txt He).
    rewrite (sub_identity Re.PHONE VERIFIED_LINE txt Hp).
    now apply taxonomy_identity.
Qed.

Lemma C9_identity_on_clean_text_witness :
  fallback_harden init (cps "hello world") = cps "hello world" /\
  fst (simulate_adversary init (cps "hello world")) = 0%Z.
Proof.
  assert (Hreg : regular_text (cps "hello world")) by (repeat constructor).
  assert (E : fallback_harden init (cps "hello world") = cps "hello world").
  { apply (proj1 (proj2 (C9_identity_on_clean_text (cps "hello world"))) Hreg).
    vm_compute. reflexivity. }
  split; [exact E|].
  exact (proj1 (C9_identity_on_clean_text (cps "hello world")) E).
Defined.

(** C9 as stated fails.  In the text long-s, "q", "l" no term is a substring of the
    lower-cased text (the long s is its own lower case), so the score is 0; but
    with case ignored the long s matches "s", and the fallback path rewrites the
    whole text. *)
Lemma C9_counterexample :
  simulate_adversary init [0x17F; 0x71; 0x6C]%N = (0%Z, []) /\
  fallback_harden init [0x17F; 0x71; 0x6C]%N = cps "Structured Database Systems" /\
  fallback_harden init [0x17F; 0x71; 0x6C]%N <> [0x17F; 0x71; 0x6C]%N.
Proof.
  split; [vm_compute; reflexivity|]. split; [vm_compute; reflexivity|].
  vm_compute. discriminate.
Qed.

(** Each of the three characters has such a text: "eng", dotless i or dotted
    capital I, "neer" is scored 0 and rewritten as well. *)
Lemma irregular_characters_matter :
  Forall (fun txt => simulate_adversary init txt = (0%Z, []) /\
                     fallback_harden init txt <> txt)
    [ [0x17F; 0x71; 0x6C]%N;
      cps "eng" ++ [0x131%N] ++ cps "neer";
      cps "eng" ++ [0x130%N] ++ cps "neer" ].
Proof.
  repeat constructor; try (vm_compute; reflexivity); vm_compute; discriminate.
Qed.

(** * Further properties of the engine *)

(** ** Score and evidence *)

(** X1. The scorer gives evidence exactly when the score is not 0, never more
    lines than two and one per taxonomy term, and, below the cap of 100, between 15
    and 40 points per line. *)
Theorem X1_evidence_and_score self txt :
  (fst (simulate_adversary self txt) = 0%Z <-> snd (simulate_adversary self txt) = []) /\
  length (snd (simulate_adversary self txt)) <= 2 + length (taxonomy self) /\
  ((fst (simulate_adversary self txt) < 100)%Z ->
   (15 * Z.of_nat (length (snd (simulate_adversary self txt)))
      <= fst (simulate_adversary self txt)
      <= 40 * Z.of_nat (length (snd (simulate_adversary self txt))))%Z).
Proof.
  rewrite simulate_adversary_assessment. cbn [fst snd assessment].
  assert (Hf : length (fired (taxonomy self) txt) <= length (taxonomy self)).
  { unfold fired, keys. etransitivity; [apply filter_length_le|]. now rewrite length_map. }
  set (hits := fired (taxonomy self) txt) in *.
  assert (Hnil : map RECON hits = [] <-> length hits = 0).
  { destruct hits; simpl; split; intro; try discriminate; auto. }
  destruct (Re.truthy (Re.search Re.EMAIL txt)), (Re.truthy (Re.search Re.PHONE txt));
    cbn [b2z app length]; rewrite ?length_map.
  - split; [split; intro; [exfalso; lia | discriminate]|]. split; lia.
  - split; [split; intro; [exfalso; lia | discriminate]|]. split; lia.
  - split; [split; intro; [exfalso; lia | discriminate]|]. split; lia.
  - split; [rewrite Hnil; lia|]. split; lia.
Qed.

(** ** More text never lowers the score *)

Lemma occurs_in_context r pre t post : Occurs r t -> Occurs r (pre ++ t ++ post).
Proof.
  intros (a & w & b & -> & M). exists (pre ++ a), w, (b ++ post).
  split; [|exact M]. now rewrite <- !app_assoc.
Qed.

Lemma do_lower_in_nil before s : Unicode.do_lower before s = do_lower_in before s [].
Proof.
  revert before. induction s as [|c s IH]; intros before; simpl.
  - reflexivity.
  - now rewrite app_nil_r, IH.
Qed.

Lemma do_lower_in_app : forall x y before,
  Unicode.do_lower before (x ++ y) =
  do_lower_in before x y ++ Unicode.do_lower (rev x ++ before) y.
Proof.
  induction x as [|c x IH]; intros y before; simpl.
  - reflexivity.
  - rewrite IH, <- !app_assoc. reflexivity.
Qed.

Lemma lower_at_one_sigma before before' c after after' :
  map one_sigma (Unicode.lower_at before c after) =
  map one_sigma (Unicode.lower_at before' c after').
Proof.
  unfold Unicode.lower_at. destruct (N.eqb c 0x3A3); [|reflexivity].
  unfold Unicode.handle_capital_sigma.
  destruct (_ && _), (_ && _); reflexivity.
Qed.

Lemma do_lower_in_one_sigma : forall s before before' after after',
  map one_sigma (do_lower_in before s after) =
  map one_sigma (do_lower_in before' s after').
Proof.
  induction s as [|c s IH]; intros; simpl.
  - reflexivity.
  - rewrite !map_app.
    rewrite (lower_at_one_sigma before before' c (s ++ after) (s ++ after')).
    f_equal. apply IH.
Qed.

Lemma one_sigma_back : forall y k,
  no_sigma k = true -> map one_sigma y = k -> y = k.
Proof.
  induction y as [|c y IH]; intros [|p k] Hk E; try discriminate; [reflexivity|].
  simpl in E, Hk. injection E as E1 E2.
  apply andb_prop in Hk as [Hp Hk]. apply andb_prop in Hp as [H2 H3].
  apply negb_true_iff, N.eqb_neq in H2, H3.
  f_equal; [|now apply IH].
  unfold one_sigma in E1. destruct (N.eqb_spec c 0x3C2); congruence.
Qed.

Lemma substring_one_sigma k y :
  no_sigma k = true -> Substring k (map one_sigma y) -> Substring k y.
Proof.
  intros Hk (a & b & E).
  apply map_eq_app in E as (ya & y1 & -> & <- & E).
  apply map_eq_app in E as (yk & yb & -> & E & <-).
  apply (one_sigma_back _ _ Hk) in E. subst yk. now exists ya, yb.
Qed.

Lemma substring_map (f : char -> char) k y :
  Substring k y -> Substring (map f k) (map f y).
Proof. intros (a & b & ->). exists (map f a), (map f b). now rewrite !map_app. Qed.

Lemma no_sigma_fixed k : no_sigma k = true -> map one_sigma k = k.
Proof.
  induction k as [|p k IH]; simpl; intro H; [reflexivity|].
  apply andb_prop in H as [Hp Hk]. apply andb_prop in Hp as [H2 _].
  apply negb_true_iff in H2. unfold one_sigma at 1. rewrite H2. now rewrite IH.
Qed.

(** A term without sigma that is in the lower case of a text is in the lower case
    of every text around it. *)
Lemma lower_in_context k pre t post :
  no_sigma k = true ->
  Substring k (Unicode.lower t) -> Substring k (Unicode.lower (pre ++ t ++ post)).
Proof.
  intros Hk H. unfold Unicode.lower in *.
  rewrite do_lower_in_nil in H.
  apply (substring_map one_sigma) in H. rewrite (no_sigma_fixed k Hk) in H.
  rewrite (do_lower_in_one_sigma t [] (rev pre ++ []) [] post) in H.
  apply (substring_one_sigma k _ Hk) in H. destruct H as (a & b & E).
  rewrite do_lower_in_app, do_lower_in_app, E.
  exists (do_lower_in [] pre (t ++ post) ++ a),
         (b ++ Unicode.do_lower (rev t ++ rev pre ++ []) post).
  now rewrite <- !app_assoc.
Qed.

Lemma filter_length_mono {A} (P Q : A -> bool) (l : list A) :
  (forall x, In x l -> P x = true -> Q x = true) ->
  length (filter P l) <= length (filter Q l).
Proof.
  induction l as [|x l IH]; intro H; simpl; [lia|].
  assert (IH' : length (filter P l) <= length (filter Q l))
    by (apply IH; intros y Hy; apply H; now right).
  destruct (P x) eqn:Px.
  - rewrite (H x (or_introl eq_refl) Px). simpl. lia.
  - destruct (Q x); simpl; lia.
Qed.

Lemma indicators_in_context pre t post :
  (fst (simulate_adversary init t) <=
   fst (simulate_adversary init (pre ++ t ++ post)))%Z /\
  (forall line, In line (snd (simulate_adversary init t)) ->
                In line (snd (simulate_adversary init (pre ++ t ++ post)))).
Proof.
  set (t' := pre ++ t ++ post).
  assert (He : Re.truthy (Re.search Re.EMAIL t) = true ->
               Re.truthy (Re.search Re.EMAIL t') = true).
  { intro H. apply search_occurs. apply occurs_in_context. now apply search_occurs. }
  assert (Hp : Re.truthy (Re.search Re.PHONE t) = true ->
               Re.truthy (Re.search Re.PHONE t') = true).
  { intro H. apply search_occurs. apply occurs_in_context. now apply search_occurs. }
  assert (Hk : forall k, In k (keys (taxonomy init)) ->
               contains k (Unicode.lower t) = true -> contains k (Unicode.lower t') = true).
  { intros k Hin H. apply contains_spec. apply contains_spec in H.
    apply lower_in_context; [|exact H].
    assert (F : forallb no_sigma (keys (taxonomy init)) = true) by (vm_compute; reflexivity).
    rewrite forallb_forall in F. now apply F. }
  rewrite !simulate_adversary_assessment. cbn [fst snd assessment]. split.
  - assert (Hn : length (fired (taxonomy init) t) <= length (fired (taxonomy init) t'))
      by (apply filter_length_mono; exact Hk).
    destruct (Re.truthy (Re.search Re.EMAIL t)); [rewrite (He eq_refl)|];
      (destruct (Re.truthy (Re.search Re.PHONE t)); [rewrite (Hp eq_refl)|]);
      try destruct (Re.truthy (Re.search Re.EMAIL t'));
      try destruct (Re.truthy (Re.search Re.PHONE t')); cbn [b2z]; lia.
  - intros line Hin. apply in_app_or in Hin as [Hin | Hin].
    + apply in_or_app. left.
      destruct (Re.truthy (Re.search Re.EMAIL t)); [|destruct Hin].
      now rewrite (He eq_refl).
    + apply in_or_app. right. apply in_app_or in Hin as [Hin | Hin].
      * apply in_or_app. left.
        destruct (Re.truthy (Re.search Re.PHONE t)); [|destruct Hin].
        now rewrite (Hp eq_refl).
      * apply in_or_app. right.
        apply in_map_iff in Hin as (k & <- & Hin). apply in_map.
        unfold fired in *. apply filter_In in Hin as [Hin Hc].
        apply filter_In. split; [exact Hin | now apply Hk].
Qed.

(** X2. Text around a text never lowers its score and never removes a line of
    its evidence. *)
Theorem X2_context_keeps_indicators pre t post :
  (fst (simulate_adversary init t) <=
   fst (simulate_adversary init (pre ++ t ++ post)))%Z /\
  (forall line, In line (snd (simulate_adversary init t)) ->
                In line (snd (simulate_adversary init (pre ++ t ++ post)))).
Proof. apply indicators_in_context. Qed.

(** ** What hardening leaves behind *)

Lemma last_suffix (pre l : text) d : l <> [] -> last (pre ++ l) d = last l d.
Proof.
  intro Hl. induction pre as [|x pre IH]; simpl; [reflexivity|].
  rewrite IH. destruct (pre ++ l) eqn:E; [|reflexivity].
  apply app_eq_nil in E as [_ E]. contradiction.
Qed.

Lemma last_In (l : text) d : l <> [] -> In (last l d) l.
Proof.
  induction l as [|x l IH]; intro H; [contradiction|].
  destruct l as [|y l]; [now left|]. right. apply IH. discriminate.
Qed.

Lemma fences_spec q repl : fences q repl = true ->
  exists x repl', repl = x :: repl' /\ may_hold q x = false /\
    may_hold q (last repl x) = false /\ ~ Occurs q repl.
Proof.
  unfold fences. destruct repl as [|x repl']; [discriminate|]. intro H.
  apply andb_prop in H as [H H3]. apply andb_prop in H as [H1 H2].
  apply negb_true_iff in H1, H2, H3. exists x, repl'.
  repeat split; auto. now apply search_none_occurs.
Qed.

(** A text of the shape [q] at the head of the result stood at the head of the
    text. *)
Lemma Replaced_prefix q r repl s out :
  fences q repl = true -> Replaced r repl s out ->
  forall w post, Forall (fun c => may_hold q c = true) w -> out = w ++ post ->
  exists post', s = w ++ post'.
Proof.
  intros Hf H. apply fences_spec in Hf as (x & repl' & -> & Hx & _ & _).
  induction H as [|c s out Hc Hr IH|m rest out Hm M Hr IH]; intros w post Hw E.
  - symmetry in E. apply app_eq_nil in E as [-> _]. now exists [].
  - destruct w as [|y w]; [now exists (c :: s)|].
    simpl in E. injection E as <- E. inversion Hw as [|? ? Hy Hw']; subst.
    destruct (IH w post Hw' eq_refl) as [post' ->]. now exists post'.
  - destruct w as [|y w]; [now exists (m ++ rest)|].
    simpl in E. injection E as <- E. inversion Hw as [|? ? Hy Hw']; subst. congruence.
Qed.

(** Replacing the texts of shape [r] by a replacement that fences off [q] makes
    no text of shape [q], where [q] started nowhere that [r] did not. *)
Lemma Replaced_no_new q r repl :
  0 < min_length q -> fences q repl = true ->
  forall s out, Replaced r repl s out ->
  (forall pre suf, s = pre ++ suf -> ~ StartsMatch r suf -> ~ StartsMatch q suf) ->
  ~ Occurs q out.
Proof.
  intros Hq Hf s out H. pose proof Hf as Hf'.
  apply fences_spec in Hf' as (x & repl' & Erepl & Hx & Hlast & Hin).
  induction H as [|c s out Hc Hr IH|m rest out Hm M Hr IH]; intros Hs Ho.
  - destruct Ho as (pre & w & post & E & Mw).
    symmetry in E. apply app_eq_nil in E as [_ E]. apply app_eq_nil in E as [-> _].
    now apply (Matches_nonempty q [] Hq Mw).
  - apply occurs_head_or_tail in Ho as [(w & post & E & Mw) | Ho].
    + assert (R : Replaced r repl (c :: s) (c :: out)) by now constructor.
      destruct (Replaced_prefix q r repl _ _ Hf R w post (Matches_chars q w Mw) E)
        as [post' E'].
      apply (Hs [] (c :: s) eq_refl Hc). now exists w, post'.
    + apply IH; [|exact Ho]. intros pre suf E. apply (Hs (c :: pre)). simpl. now rewrite E.
  - assert (Hrest : ~ Occurs q out).
    { apply IH. intros pre suf E. apply (Hs (m ++ pre)). now rewrite E, app_assoc. }
    destruct Ho as (pre & w & post & E & Mw).
    symmetry in E. apply app_eq_app in E as [l [[E1 E2] | [E1 E2]]].
    + (* the match starts behind the replacement *)
      apply Hrest. exists l, w, post. auto.
    + destruct l as [|y l].
      * rewrite app_nil_r in E1. simpl in E2. apply Hrest. exists [], w, post. auto.
      * symmetry in E2. apply app_eq_app in E2 as [l2 [[E3 E4] | [E3 E4]]].
        -- (* the match is inside the replacement *)
           apply Hin. exists pre, w, l2. split; [|exact Mw]. now rewrite E1, E3.
        -- (* the match holds the last character of the replacement *)
           apply Matches_chars in Mw. rewrite Forall_forall in Mw.
           assert (Hl : In (last repl x) w).
           { rewrite E3. apply in_or_app. left.
             rewrite E1, (last_suffix pre (y :: l) x) by discriminate.
             apply last_In. discriminate. }
           apply Mw in Hl. congruence.
Qed.

(** After a substitution of a pattern by a replacement that fences off the pattern
    itself, the pattern has nothing left to match. *)
Lemma sub_removes r repl s :
  0 < min_length r -> fences r repl = true -> ~ Occurs r (Re.sub r repl s).
Proof.
  intros Hr Hf. apply (Replaced_no_new r r repl Hr Hf s); [now apply sub_Replaced|].
  auto.
Qed.

(** A substitution does not bring in a shape that its replacement fences off. *)
Lemma sub_keeps_out q r repl s :
  0 < min_length q -> 0 < min_length r -> fences q repl = true ->
  ~ Occurs q s -> ~ Occurs q (Re.sub r repl s).
Proof.
  intros Hq Hr Hf Hs. apply (Replaced_no_new q r repl Hq Hf s); [now apply sub_Replaced|].
  intros pre suf E _ (w & rest & -> & M). apply Hs. exists pre, w, rest. auto.
Qed.

(** X3. Whatever the model finds, the text that [nlp_harden] returns has no
    email-shaped and no phone-shaped substring. *)
Theorem X3_entity_path_output_clean (model : pipeline) self txt out :
  nlp_harden (Some model) self txt = Returns out ->
  ~ Occurs Re.EMAIL out /\ ~ Occurs Re.PHONE out.
Proof.
  intro H. unfold nlp_harden in H. destruct (model txt) as [ents|e]; [|discriminate].
  injection H as <-. split.
  - apply sub_keeps_out; [simpl; lia | simpl; lia | reflexivity |].
    apply sub_removes; [simpl; lia | reflexivity].
  - apply sub_removes; [simpl; lia | reflexivity].
Qed.

Lemma X3_entity_path_output_clean_witness :
  ~ Occurs Re.EMAIL (cps "[HIDDEN_PERSON] at [ID_GATEWAY], [VERIFIED_LINE]") /\
  ~ Occurs Re.PHONE (cps "[HIDDEN_PERSON] at [ID_GATEWAY], [VERIFIED_LINE]").
Proof.
  apply (X3_entity_path_output_clean
           (fun _ => Returns [ {| start_char := 0; end_char := 4;
                                  label_ := cps "PERSON" |} ])
           init (cps "Jane at jane@acme.com, +91 9876543210")).
  vm_compute. reflexivity.
Defined.

Lemma taxonomy_keeps_out q : 0 < min_length q ->
  forall d s,
  forallb (fun kv => (0 <? length (fst kv)) && fences q (snd kv)) d = true ->
  ~ Occurs q s -> ~ Occurs q (fold_left taxonomy_step d s).
Proof.
  intros Hq. induction d as [|[k v] d IH]; intros s Hd Hs; simpl.
  - exact Hs.
  - simpl in Hd. apply andb_prop in Hd as [Hkv Hd]. apply andb_prop in Hkv as [Hk Hv].
    apply Nat.ltb_lt in Hk. apply IH; [exact Hd|].
    unfold taxonomy_step. cbn [fst snd].
    apply sub_keeps_out; auto. now rewrite min_length_escaped.
Qed.

Lemma no_phone_no_line self txt :
  ~ Occurs Re.PHONE txt -> ~ In SIM_SWAP (snd (simulate_adversary self txt)).
Proof.
  intros Hp Hin. apply search_none_occurs in Hp.
  rewrite simulate_adversary_assessment in Hin. cbn [snd assessment] in Hin. rewrite Hp in Hin.
  apply in_app_or in Hin as [Hin | Hin].
  - destruct (Re.truthy (Re.search Re.EMAIL txt)); [|destruct Hin].
    destruct Hin as [E | []]. discriminate.
  - cbn [app] in Hin. apply in_map_iff in Hin as (k & E & _). discriminate.
Qed.

(** X4. The text that the fallback path returns has no phone-shaped substring:
    the phone substitution leaves none, and no label of the taxonomy brings one
    in.  Scored again, with any taxonomy, it never gets the SIM-swap line. *)
Theorem X4_fallback_output_has_no_phone txt :
  ~ Occurs Re.PHONE (fallback_harden init txt) /\
  (forall self, ~ In SIM_SWAP (snd (simulate_adversary self (fallback_harden init txt)))).
Proof.
  assert (H : ~ Occurs Re.PHONE (fallback_harden init txt)).
  { unfold fallback_harden. cbn zeta.
    apply taxonomy_keeps_out; [simpl; lia | vm_compute; reflexivity |].
    apply sub_removes; [simpl; lia | reflexivity]. }
  split; [exact H|]. intro self. now apply no_phone_no_line.
Qed.

(** ** The endpoints *)

Lemma score_range self txt : (0 <= fst (simulate_adversary self txt) <= 100)%Z.
Proof.
  rewrite simulate_adversary_assessment. cbn [fst].
  pose proof (assessment_nonneg (Re.truthy (Re.search Re.EMAIL txt))
                (Re.truthy (Re.search Re.PHONE txt)) (fired (taxonomy self) txt)).
  lia.
Qed.

(** X5. [process] fails only when a loaded model raises, with what the model
    raised.  In a reply the score is the one of the scorer on the whole content,
    between 0 and 100, reported as the original risk too; the market score is what
    is left to 100, so between 0 and 100 as well; the safe text is the one of
    [nlp_harden]. *)
Theorem X5_process_reply nlp content :
  (forall f, process nlp content = Failed f <->
     exists model e, nlp = Some model /\ model content = Raises e /\ f = Uncaught e) /\
  (forall a, process nlp content = Reply a ->
     risk_score a = fst (simulate_adversary init content) /\
     evidence a = snd (simulate_adversary init content) /\
     original_risk a = risk_score a /\
     (0 <= risk_score a <= 100)%Z /\
     (risk_score a + market_score a = 100)%Z /\ (0 <= market_score a <= 100)%Z /\
     extracted_text a = None /\
     nlp_harden nlp init content = Returns (safe_text a)).
Proof.
  unfold process. cbn zeta.
  pose proof (score_range init content) as Hr.
  destruct (simulate_adversary init content) as [risk logs]. cbn [fst snd] in *.
  split.
  - intro f. destruct nlp as [model|]; unfold nlp_harden.
    + destruct (model content) as [ents|e] eqn:Hm; split.
      * discriminate.
      * intros (m & e & Hn & He & _). injection Hn as <-. congruence.
      * intro H. injection H as <-. eauto.
      * intros (m & e' & Hn & He & ->). injection Hn as <-. congruence.
    + split; [discriminate | intros (m & e & Hn & _); discriminate].
  - intros a H. destruct (nlp_harden nlp init content) as [safe|e]; [|discriminate].
    replace a with {| extracted_text := None; original_risk := risk; risk_score := risk;
                      market_score := (100 - risk)%Z; evidence := logs;
                      safe_text := safe |} by congruence.
    cbn [risk_score market_score original_risk evidence extracted_text safe_text].
    repeat split; try reflexivity; lia.
Qed.

Lemma X5_process_reply_witness :
  nlp_harden None init (cps "Contact me at jane@acme.com") =
  Returns (cps "Contact me at [ID_GATEWAY]").
Proof.
  destruct (X5_process_reply None (cps "Contact me at jane@acme.com")) as [_ H].
  specialize (H {| extracted_text := None; original_risk := 40; risk_score := 40;
                   market_score := 60;
                   evidence := [PHISHING];
                   safe_text := cps "Contact me at [ID_GATEWAY]" |}).
  apply H. vm_compute. reflexivity.
Defined.

Lemma lower_has k w pre post :
  Forall2 LowersTo w k -> contains k (Unicode.lower (pre ++ w ++ post)) = true.
Proof. intro H. apply contains_spec. now apply lower_substring. Qed.

Lemma linkedin_hits u :
  contains (cps "google") (Unicode.lower (linkedin_text u)) = true /\
  contains (cps "microsoft") (Unicode.lower (linkedin_text u)) = true /\
  contains (cps "manager") (Unicode.lower (linkedin_text u)) = true.
Proof.
  unfold linkedin_text. repeat split.
  - replace (cps "LinkedIn Profile: " ++ u ++
             cps ". Manager at Google and Microsoft. Reach me at " ++ u ++ cps "@google.com")
      with ((cps "LinkedIn Profile: " ++ u ++ cps ". Manager at ") ++ cps "Google" ++
            (cps " and Microsoft. Reach me at " ++ u ++ cps "@google.com"))
      by (rewrite <- !app_assoc; reflexivity).
    apply lower_has. repeat constructor; apply lowers_to_LowersTo; vm_compute; reflexivity.
  - replace (cps "LinkedIn Profile: " ++ u ++
             cps ". Manager at Google and Microsoft. Reach me at " ++ u ++ cps "@google.com")
      with ((cps "LinkedIn Profile: " ++ u ++ cps ". Manager at Google and ") ++
            cps "Microsoft" ++ (cps ". Reach me at " ++ u ++ cps "@google.com"))
      by (rewrite <- !app_assoc; reflexivity).
    apply lower_has. repeat constructor; apply lowers_to_LowersTo; vm_compute; reflexivity.
  - replace (cps "LinkedIn Profile: " ++ u ++
             cps ". Manager at Google and Microsoft. Reach me at " ++ u ++ cps "@google.com")
      with ((cps "LinkedIn Profile: " ++ u ++ cps ". ") ++ cps "Manager" ++
            (cps " at Google and Microsoft. Reach me at " ++ u ++ cps "@google.com"))
      by (rewrite <- !app_assoc; reflexivity).
    apply lower_has. repeat constructor; apply lowers_to_LowersTo; vm_compute; reflexivity.
Qed.

Lemma twitter_hits h :
  contains (cps "microsoft") (Unicode.lower (twitter_text h)) = true /\
  contains (cps "engineer") (Unicode.lower (twitter_text h)) = true.
Proof.
  unfold twitter_text. split.
  - replace (cps "X handle: @" ++ h ++
             cps ". Senior Engineer at Microsoft. Email: " ++ h ++ cps "@outlook.com")
      with ((cps "X handle: @" ++ h ++ cps ". Senior Engineer at ") ++ cps "Microsoft" ++
            (cps ". Email: " ++ h ++ cps "@outlook.com"))
      by (rewrite <- !app_assoc; reflexivity).
    apply lower_has. repeat constructor; apply lowers_to_LowersTo; vm_compute; reflexivity.
  - replace (cps "X handle: @" ++ h ++
             cps ". Senior Engineer at Microsoft. Email: " ++ h ++ cps "@outlook.com")
      with ((cps "X handle: @" ++ h ++ cps ". Senior ") ++ cps "Engineer" ++
            (cps " at Microsoft. Email: " ++ h ++ cps "@outlook.com"))
      by (rewrite <- !app_assoc; reflexivity).
    apply lower_has. repeat constructor; apply lowers_to_LowersTo; vm_compute; reflexivity.
Qed.

Lemma facebook_hits u :
  contains (cps "google") (Unicode.lower (facebook_text u)) = true /\
  contains (cps "hyderabad") (Unicode.lower (facebook_text u)) = true /\
  Re.truthy (Re.search Re.PHONE (facebook_text u)) = true.
Proof.
  unfold facebook_text. repeat split.
  - replace (cps "Facebook: " ++ u ++
             cps ". Lives in Hyderabad. Works at Google. Contact: 9876543210")
      with ((cps "Facebook: " ++ u ++ cps ". Lives in Hyderabad. Works at ") ++
            cps "Google" ++ cps ". Contact: 9876543210")
      by (rewrite <- !app_assoc; reflexivity).
    apply lower_has. repeat constructor; apply lowers_to_LowersTo; vm_compute; reflexivity.
  - replace (cps "Facebook: " ++ u ++
             cps ". Lives in Hyderabad. Works at Google. Contact: 9876543210")
      with ((cps "Facebook: " ++ u ++ cps ". Lives in ") ++
            cps "Hyderabad" ++ cps ". Works at Google. Contact: 9876543210")
      by (rewrite <- !app_assoc; reflexivity).
    apply lower_has. repeat constructor; apply lowers_to_LowersTo; vm_compute; reflexivity.
  - apply search_occurs.
    exists (cps "Facebook: " ++ u ++ cps ". Lives in Hyderabad. Works at Google. Contact: "),
           (cps "9876543210"), [].
    split; [rewrite <- !app_assoc; reflexivity|].
    change (cps "9876543210") with ([] ++ cps "9876543210").
    apply M_Cat; [apply M_Skipped|]. apply M_Group. apply M_Repeat.
    + repeat constructor.
    + simpl. lia.
    + simpl. lia.
Qed.

Lemma hit_fired d k txt :
  In k (keys d) -> contains k (Unicode.lower txt) = true -> In k (fired d txt).
Proof. intros Hk Hc. unfold fired. apply filter_In. auto. Qed.

Lemma hit_line self k txt :
  In k (fired (taxonomy self) txt) -> In (RECON k) (snd (simulate_adversary self txt)).
Proof.
  intro H. rewrite simulate_adversary_assessment. cbn [snd assessment].
  apply in_or_app. right. apply in_or_app. right. now apply in_map.
Qed.

(** The score is at least 15 for each of several terms that fire, 30 more when
    the phone indicator fires, up to the cap. *)
Lemma score_floor self txt (ks : list text) (phone : bool) :
  NoDup ks -> (forall k, In k ks -> In k (fired (taxonomy self) txt)) ->
  (phone = true -> Re.truthy (Re.search Re.PHONE txt) = true) ->
  (Z.min (30 * b2z phone + 15 * Z.of_nat (length ks)) 100
     <= fst (simulate_adversary self txt))%Z.
Proof.
  intros Hnd Hin Hp.
  assert (Hlen : length ks <= length (fired (taxonomy self) txt))
    by (apply NoDup_incl_length; [exact Hnd | exact Hin]).
  rewrite simulate_adversary_assessment. cbn [fst assessment].
  destruct phone; [rewrite (Hp eq_refl)|];
    destruct (Re.truthy (Re.search Re.EMAIL txt));
    try destruct (Re.truthy (Re.search Re.PHONE txt)); cbn [b2z]; lia.
Qed.

(** X6. [analyze_url] fails in two ways only: with status 400 and the message
    "URL not supported" exactly when the lower-cased URL contains none of
    "linkedin.com", "twitter.com", "x.com" and "facebook.com", and with what a loaded
    model raised on the made-up profile text.  The names are looked for anywhere
    in the URL, in any case: a URL that contains "x.com" is never rejected. *)
Theorem X6_url_failures nlp url :
  (forall f, analyze_url nlp url = Failed f <->
     (f = HTTPException 400 UNSUPPORTED /\
      contains (cps "linkedin.com") (Unicode.lower url) = false /\
      contains (cps "twitter.com") (Unicode.lower url) = false /\
      contains (cps "x.com") (Unicode.lower url) = false /\
      contains (cps "facebook.com") (Unicode.lower url) = false) \/
     (exists model sim_text orig_risk e,
        nlp = Some model /\
        simulated_profile (Unicode.lower url) = Some (sim_text, orig_risk) /\
        model sim_text = Raises e /\ f = Uncaught e)) /\
  (forall pre post,
     analyze_url nlp (pre ++ cps "X.com" ++ post) <> Failed (HTTPException 400 UNSUPPORTED)).
Proof.
  assert (Main : forall url f, analyze_url nlp url = Failed f <->
     (f = HTTPException 400 UNSUPPORTED /\
      contains (cps "linkedin.com") (Unicode.lower url) = false /\
      contains (cps "twitter.com") (Unicode.lower url) = false /\
      contains (cps "x.com") (Unicode.lower url) = false /\
      contains (cps "facebook.com") (Unicode.lower url) = false) \/
     (exists model sim_text orig_risk e,
        nlp = Some model /\
        simulated_profile (Unicode.lower url) = Some (sim_text, orig_risk) /\
        model sim_text = Raises e /\ f = Uncaught e)).
  { clear url. intros url f. unfold analyze_url. cbn zeta.
    destruct (simulated_profile (Unicode.lower url)) as [[sim_text orig_risk]|] eqn:Hp.
    - destruct (simulate_adversary init sim_text) as [risk logs].
      assert (Hsup : ~ (contains (cps "linkedin.com") (Unicode.lower url) = false /\
                        contains (cps "twitter.com") (Unicode.lower url) = false /\
                        contains (cps "x.com") (Unicode.lower url) = false /\
                        contains (cps "facebook.com") (Unicode.lower url) = false)).
      { intros (H1 & H2 & H3 & H4). unfold simulated_profile in Hp.
        rewrite H1, H2, H3, H4 in Hp. discriminate. }
      destruct nlp as [model|]; unfold nlp_harden.
      + destruct (model sim_text) as [ents|e] eqn:Hm; split.
        * discriminate.
        * intros [[_ H] | (m & t & r & e & Hn & Ht & He & _)]; [now apply Hsup in H|].
          injection Hn as <-. injection Ht as <- <-. congruence.
        * intro H. injection H as <-. right. exists model, sim_text, orig_risk, e. auto.
        * intros [[_ H] | (m & t & r & e' & Hn & Ht & He & ->)]; [now apply Hsup in H|].
          injection Hn as <-. injection Ht as <- <-. congruence.
      + split; [discriminate|].
        intros [[_ H] | (m & t & r & e & Hn & _)]; [now apply Hsup in H | discriminate].
    - unfold simulated_profile in Hp.
      destruct (contains (cps "linkedin.com") (Unicode.lower url)); [discriminate|].
      destruct (contains (cps "twitter.com") (Unicode.lower url)); [discriminate|].
      destruct (contains (cps "x.com") (Unicode.lower url)); [discriminate|].
      destruct (contains (cps "facebook.com") (Unicode.lower url)); [discriminate|].
      split.
      + intro H. injection H as <-. left. auto.
      + intros [[-> _] | (m & t & r & e & _ & Ht & _)]; [reflexivity | discriminate]. }
  split; [apply Main|].
  intros pre post H. apply Main in H as [(_ & _ & _ & H & _) | (m & t & r & e & _ & _ & _ & H)];
    [|discriminate].
  rewrite (lower_has (cps "x.com") (cps "X.com") pre post) in H; [discriminate|]. repeat constructor; apply lowers_to_LowersTo; vm_compute; reflexivity.
Qed.

(** X7. In every reply of [analyze_url] the score is between 0 and 100 and the
    market score is what is left to 100.  For a LinkedIn URL the score is at least
    45, with the GOOGLE, MICROSOFT and MANAGER lines, and the original risk is
    given as 85; for a Twitter or X URL at least 30, with the MICROSOFT and
    ENGINEER lines, and 75; for a Facebook URL at least 60, with the SIM-swap,
    GOOGLE and HYDERABAD lines, and 95.  The original risk is a constant of the
    branch: it is not computed from the text. *)
Theorem X7_profile_scores nlp url a :
  analyze_url nlp url = Reply a ->
  (0 <= risk_score a <= 100)%Z /\ (risk_score a + market_score a = 100)%Z /\
  (contains (cps "linkedin.com") (Unicode.lower url) = true ->
     original_risk a = 85%Z /\ (45 <= risk_score a)%Z /\
     In (RECON (cps "google")) (evidence a) /\ In (RECON (cps "microsoft")) (evidence a) /\
     In (RECON (cps "manager")) (evidence a)) /\
  (contains (cps "linkedin.com") (Unicode.lower url) = false ->
   contains (cps "twitter.com") (Unicode.lower url) ||
   contains (cps "x.com") (Unicode.lower url) = true ->
     original_risk a = 75%Z /\ (30 <= risk_score a)%Z /\
     In (RECON (cps "microsoft")) (evidence a) /\ In (RECON (cps "engineer")) (evidence a)) /\
  (contains (cps "linkedin.com") (Unicode.lower url) = false ->
   contains (cps "twitter.com") (Unicode.lower url) ||
   contains (cps "x.com") (Unicode.lower url) = false ->
     original_risk a = 95%Z /\ (60 <= risk_score a)%Z /\ In SIM_SWAP (evidence a) /\
     In (RECON (cps "google")) (evidence a) /\ In (RECON (cps "hyderabad")) (evidence a)).
Proof.
  unfold analyze_url. cbn zeta. intro H.
  destruct (simulated_profile (Unicode.lower url)) as [[sim_text orig_risk]|] eqn:Hp;
    [|discriminate].
  pose proof (score_range init sim_text) as Hr.
  assert (Hline : forall k, In k (keys (taxonomy init)) ->
            contains k (Unicode.lower sim_text) = true ->
            In k (fired (taxonomy init) sim_text) /\
            In (RECON k) (snd (simulate_adversary init sim_text))).
  { intros k Hk Hc. split; [now apply hit_fired | now apply hit_line, hit_fired]. }
  assert (Hfloor := score_floor init sim_text).
  assert (Hsim : In SIM_SWAP (snd (simulate_adversary init sim_text)) \/
                 Re.truthy (Re.search Re.PHONE sim_text) = false).
  { rewrite simulate_adversary_assessment. cbn [snd assessment].
    destruct (Re.truthy (Re.search Re.PHONE sim_text)); [left | now right].
    apply in_or_app. right. now left. }
  destruct (simulate_adversary init sim_text) as [risk logs]. cbn [fst snd] in *.
  destruct (nlp_harden nlp init sim_text) as [safe|e]; [|discriminate].
  replace a with {| extracted_text := Some sim_text; original_risk := orig_risk;
                    risk_score := risk; market_score := (100 - risk)%Z;
                    evidence := logs; safe_text := safe |} by congruence.
  cbn [risk_score market_score original_risk evidence]. clear H.
  split; [lia|]. split; [lia|].
  unfold simulated_profile in Hp. split; [|split].
  - intro H1. rewrite H1 in Hp. injection Hp as <- <-.
    destruct (linkedin_hits
                (strip_chars (cps "/") (last_piece (split (cps "/in/") (Unicode.lower url)))))
      as (Hg & Hm & Hmgr).
    apply Hline in Hg as [Fg Lg]; [|vm_compute; tauto].
    apply Hline in Hm as [Fm Lm]; [|vm_compute; tauto].
    apply Hline in Hmgr as [Fmgr Lmgr]; [|vm_compute; tauto].
    split; [reflexivity|]. split; [|auto].
    specialize (Hfloor [cps "google"; cps "microsoft"; cps "manager"] false).
    cbn [b2z length] in Hfloor. etransitivity; [|apply Hfloor].
    + reflexivity.
    + repeat constructor; simpl; intuition discriminate.
    + intros k [<- | [<- | [<- | []]]]; assumption.
    + discriminate.
  - intros H1 H2. rewrite H1, H2 in Hp. injection Hp as <- <-.
    destruct (twitter_hits
                (strip_chars (cps "@") (last_piece (split (cps "/") (Unicode.lower url)))))
      as (Hm & He).
    apply Hline in Hm as [Fm Lm]; [|vm_compute; tauto].
    apply Hline in He as [Fe Le]; [|vm_compute; tauto].
    split; [reflexivity|]. split; [|auto].
    specialize (Hfloor [cps "microsoft"; cps "engineer"] false).
    cbn [b2z length] in Hfloor. etransitivity; [|apply Hfloor].
    + reflexivity.
    + repeat constructor; simpl; intuition discriminate.
    + intros k [<- | [<- | []]]; assumption.
    + discriminate.
  - intros H1 H2. rewrite H1, H2 in Hp.
    destruct (contains (cps "facebook.com") (Unicode.lower url)); [|discriminate].
    injection Hp as <- <-.
    set (user := if contains (cps "/") (Unicode.lower url)
                 then last_piece (split (cps "/") (Unicode.lower url)) else cps "User") in *.
    destruct (facebook_hits user) as (Hg & Hh & Hph).
    apply Hline in Hg as [Fg Lg]; [|vm_compute; tauto].
    apply Hline in Hh as [Fh Lh]; [|vm_compute; tauto].
    split; [reflexivity|]. split; [|split; [|auto]].
    + specialize (Hfloor [cps "google"; cps "hyderabad"] true).
      cbn [b2z length] in Hfloor. etransitivity; [|apply Hfloor].
      * reflexivity.
      * repeat constructor; simpl; intuition discriminate.
      * intros k [<- | [<- | []]]; assumption.
      * intros _. exact Hph.
    + destruct Hsim as [Hs | Hs]; [exact Hs | congruence].
Qed.

Lemma X7_profile_scores_witness :
  (45 <= 85)%Z /\
  In (RECON (cps "manager"))
     [PHISHING; RECON (cps "google"); RECON (cps "microsoft"); RECON (cps "manager")].
Proof.
  pose (a := {| extracted_text :=
                  Some (linkedin_text (cps "jane-doe"));
                original_risk := 85; risk_score := 85; market_score := 15;
                evidence := [PHISHING; RECON (cps "google"); RECON (cps "microsoft");
                             RECON (cps "manager")];
                safe_text := fallback_harden init (linkedin_text (cps "jane-doe")) |}).
  assert (H : analyze_url None (cps "https://www.LinkedIn.com/in/Jane-Doe/") = Reply a)
    by (vm_compute; reflexivity).
  destruct (X7_profile_scores None (cps "https://www.LinkedIn.com/in/Jane-Doe/") a H)
    as (_ & _ & HL & _).
  destruct HL as (_ & H45 & _ & _ & Hm); [vm_compute; reflexivity|].
  split; [exact H45 | exact Hm].
Defined.

(** ** [upload] *)

Lemma lstrip_empty drop s : lstrip_by drop s = [] <-> forallb drop s = true.
Proof.
  induction s as [|c s IH]; simpl; [tauto|].
  destruct (drop c); simpl; [exact IH | split; discriminate].
Qed.

Lemma lstrip_head drop s c t : lstrip_by drop s = c :: t -> drop c = false.
Proof.
  induction s as [|x s IH]; simpl; [discriminate|].
  destruct (drop x) eqn:Hx; [exact IH | intro E; injection E as <- _; exact Hx].
Qed.

(** [s.strip()] is empty exactly when [s] has white space only. *)
Lemma strip_empty drop s : strip_by drop s = [] <-> forallb drop s = true.
Proof.
  unfold strip_by, rstrip_by. split.
  - intro H. apply (f_equal (@rev char)) in H. rewrite rev_involutive in H. simpl in H.
    apply lstrip_empty in H. rewrite forallb_forall in H.
    destruct (lstrip_by drop s) as [|c t] eqn:E; [now apply lstrip_empty|].
    pose proof (lstrip_head drop s c t E) as Hc.
    rewrite (H c) in Hc; [discriminate|]. apply -> in_rev. now left.
  - intro H. apply lstrip_empty in H. now rewrite H.
Qed.

Lemma file_error_is_not_no_text e : cps "File processing error: " ++ e <> NO_TEXT.
Proof. discriminate. Qed.

(** X8. [upload] answers failures of the file with status 400 only: what a
    document library raises is reported as "File processing error: " and its
    message, and a file whose text is empty or white space only as "No readable
    text found in the file.".  The one exception that leaves [upload] uncaught is
    what a loaded model raises on a text that is not blank. *)
Theorem X8_upload_failures libs decode nlp filename body :
  (forall s d, upload libs decode nlp filename body = Failed (HTTPException s d) <->
     s = 400%Z /\
     ((exists e, extract libs decode (Unicode.lower filename) body = Raises e /\
                 d = cps "File processing error: " ++ e) \/
      (exists txt, extract libs decode (Unicode.lower filename) body = Returns txt /\
                   forallb Unicode.isspace txt = true /\ d = NO_TEXT))) /\
  (forall e, upload libs decode nlp filename body = Failed (Uncaught e) <->
     exists txt model,
       extract libs decode (Unicode.lower filename) body = Returns txt /\
       forallb Unicode.isspace txt = false /\
       nlp = Some model /\ model txt = Raises e).
Proof.
  unfold upload. cbn zeta.
  destruct (extract libs decode (Unicode.lower filename) body) as [txt|e0] eqn:Hx.
  - destruct (strip txt) as [|c t] eqn:Hs.
    + assert (Hb : forallb Unicode.isspace txt = true) by now apply strip_empty.
      split.
      * intros s d. split.
        -- intro H. injection H as <- <-. split; [reflexivity|]. right. eauto.
        -- intros (-> & [(e & He & _) | (txt' & Ht & _ & ->)]); [discriminate|reflexivity].
      * intro e. split; [discriminate|].
        intros (txt' & m & Ht & Hn & _). injection Ht as <-. congruence.
    + assert (Hb : forallb Unicode.isspace txt = false).
      { destruct (forallb Unicode.isspace txt) eqn:E; [|reflexivity].
        apply strip_empty in E. unfold strip in Hs. congruence. }
      destruct (simulate_adversary init txt) as [risk logs].
      split.
      * intros s d. split.
        -- destruct (nlp_harden nlp init txt); discriminate.
        -- intros (_ & [(e & He & _) | (txt' & Ht & Hw & _)]); [discriminate|].
           injection Ht as <-. congruence.
      * intro e. destruct nlp as [model|]; unfold nlp_harden.
        -- destruct (model txt) as [ents|e1] eqn:Hm; split.
           ++ discriminate.
           ++ intros (txt' & m & Ht & _ & Hn & He). injection Ht as <-.
              injection Hn as <-. congruence.
           ++ intro H. injection H as <-. exists txt, model. auto.
           ++ intros (txt' & m & Ht & _ & Hn & He). injection Ht as <-.
              injection Hn as <-. congruence.
        -- split; [discriminate|]. intros (txt' & m & _ & _ & Hn & _). discriminate.
  - split.
    + intros s d. split.
      * intro H. injection H as <- <-. split; [reflexivity|]. left. eauto.
      * intros (-> & [(e & He & ->) | (txt & Ht & _)]); [|discriminate].
        injection He as <-. reflexivity.
    + intro e. split; [discriminate|]. intros (txt & m & Ht & _). discriminate.
Qed.

(** X9. When [upload] replies, the text of the file is not blank and the reply
    is the one that [process] gives for that text, but for the preview: the first
    1500 characters of the text, all of it when it is no longer.  The score and
    the evidence are those of the whole text. *)
Theorem X9_upload_reply libs decode nlp filename body a :
  upload libs decode nlp filename body = Reply a ->
  exists txt b,
    extract libs decode (Unicode.lower filename) body = Returns txt /\
    forallb Unicode.isspace txt = false /\
    process nlp txt = Reply b /\
    extracted_text a = Some (firstn 1500 txt) /\
    (length txt <= 1500 -> extracted_text a = Some txt) /\
    (forall p, extracted_text a = Some p -> length p <= 1500) /\
    risk_score a = risk_score b /\ original_risk a = original_risk b /\
    market_score a = market_score b /\ evidence a = evidence b /\
    safe_text a = safe_text b /\
    risk_score a = fst (simulate_adversary init txt) /\
    evidence a = snd (simulate_adversary init txt).
Proof.
  unfold upload, process. cbn zeta. intro H.
  destruct (extract libs decode (Unicode.lower filename) body) as [txt|e0]; [|discriminate].
  destruct (strip txt) as [|c t] eqn:Hs; [discriminate|].
  assert (Hb : forallb Unicode.isspace txt = false).
  { destruct (forallb Unicode.isspace txt) eqn:E; [|reflexivity].
    apply strip_empty in E. unfold strip in Hs. congruence. }
  exists txt.
  destruct (simulate_adversary init txt) as [risk logs].
  destruct (nlp_harden nlp init txt) as [safe|e]; [|discriminate].
  replace a with {| extracted_text := Some (firstn 1500 txt); original_risk := risk;
                    risk_score := risk; market_score := (100 - risk)%Z;
                    evidence := logs; safe_text := safe |} by congruence.
  eexists. split; [reflexivity|]. split; [exact Hb|]. split; [reflexivity|].
  cbn [risk_score market_score original_risk evidence extracted_text safe_text fst snd].
  split; [reflexivity|]. split; [intro; now rewrite firstn_all2|].
  split; [intros p E; replace p with (firstn 1500 txt) by congruence;
          apply firstn_le_length|].
  repeat split.
Qed.


Lemma X9_upload_reply_witness :
  exists txt b,
    extract no_libraries (fun _ => cps "Call 9876543210 now") (Unicode.lower (cps "Note.TXT")) []
      = Returns txt /\
    process None txt = Reply b /\ risk_score b = 30%Z.
Proof.
  pose (a := {| extracted_text := Some (cps "Call 9876543210 now");
                original_risk := 30; risk_score := 30; market_score := 70;
                evidence := [SIM_SWAP]; safe_text := cps "Call [VERIFIED_LINE] now" |}).
  assert (H : upload no_libraries (fun _ => cps "Call 9876543210 now") None
                (cps "Note.TXT") [] = Reply a) by (vm_compute; reflexivity).
  destruct (X9_upload_reply _ _ _ _ _ a H)
    as (txt & b & Hx & _ & Hp & _ & _ & _ & Hr & _).
  exists txt, b. split; [exact Hx|]. split; [exact Hp|]. now rewrite <- Hr.
Defined.

(** ** What is read from a document is scored *)

Lemma indicators_substring p txt : Substring p txt ->
  forall line, In line (snd (simulate_adversary init p)) ->
               In line (snd (simulate_adversary init txt)).
Proof.
  intros (pre & post & ->). apply indicators_in_context.
Qed.

Lemma substring_refl (p : text) : Substring p p.
Proof. exists [], []. now rewrite app_nil_r. Qed.

Lemma substring_left (p a b : text) : Substring p a -> Substring p (a ++ b).
Proof. intros (x & y & ->). exists x, (y ++ b). now rewrite <- !app_assoc. Qed.

Lemma substring_right (p a b : text) : Substring p b -> Substring p (a ++ b).
Proof. intros (x & y & ->). exists (a ++ x), y. now rewrite <- !app_assoc. Qed.

Lemma join_substring sep : forall parts p, In p parts -> Substring p (join sep parts).
Proof.
  induction parts as [|q parts IH]; intros p Hin; [destruct Hin|].
  destruct parts as [|q' parts].
  - destruct Hin as [<- | []]. apply substring_refl.
  - change (join sep (q :: q' :: parts)) with (q ++ sep ++ join sep (q' :: parts)).
    destruct Hin as [<- | Hin].
    + apply substring_left, substring_refl.
    + apply substring_right, substring_right. now apply IH.
Qed.

(** A loop that only adds to the text keeps what each of its steps adds. *)
Lemma fold_extends {X} (step : text -> X -> text) (P : X -> text -> Prop) :
  (forall txt x, exists y, step txt x = txt ++ y /\ forall p, P x p -> Substring p y) ->
  forall l txt, exists y, fold_left step l txt = txt ++ y /\
    forall x p, In x l -> P x p -> Substring p y.
Proof.
  intros Hstep. induction l as [|x l IH]; intro txt; simpl.
  - exists []. split; [now rewrite app_nil_r | intros ? ? []].
  - destruct (Hstep txt x) as (y1 & E1 & H1). rewrite E1.
    destruct (IH (txt ++ y1)) as (y2 & E2 & H2). rewrite E2.
    exists (y1 ++ y2). split; [now rewrite <- app_assoc|].
    intros x' p [<- | Hin] Hp.
    + now apply substring_left, H1.
    + apply substring_right. now apply (H2 x').
Qed.

Lemma paragraph_extends : forall paragraph txt, exists y,
  fold_left (fun txt run => txt ++ run ++ cps " ") paragraph txt = txt ++ y /\
  forall run, In run paragraph -> Substring run y.
Proof.
  intros paragraph txt.
  destruct (fold_extends (fun txt run => txt ++ run ++ cps " ") (fun run p => p = run))
    with (l := paragraph) (txt := txt) as (y & E & H).
  - intros t run. exists (run ++ cps " "). split; [reflexivity|].
    intros p ->. apply substring_left, substring_refl.
  - exists y. split; [exact E|]. intros run Hin. now apply (H run).
Qed.

Lemma frame_extends : forall paras txt, exists y,
  fold_left (fun txt paragraph =>
               fold_left (fun txt run => txt ++ run ++ cps " ") paragraph txt) paras txt
    = txt ++ y /\
  forall paragraph run, In paragraph paras -> In run paragraph -> Substring run y.
Proof.
  intros paras txt.
  destruct (fold_extends
              (fun txt paragraph =>
                 fold_left (fun txt run => txt ++ run ++ cps " ") paragraph txt)
              (fun paragraph p => In p paragraph)) with (l := paras) (txt := txt)
    as (y & E & H).
  - intros t paragraph. destruct (paragraph_extends paragraph t) as (y & E & H).
    exists y. auto.
  - exists y. split; [exact E|]. intros paragraph run Hp Hr. now apply (H paragraph).
Qed.

Lemma shape_extends txt shape : exists y,
  shape_step txt shape = txt ++ y /\ forall p, shape_gives shape p -> Substring p y.
Proof.
  unfold shape_step, shape_gives.
  destruct (shape_text shape) as [t|], (has_text_frame shape).
  - destruct (frame_extends (paragraphs shape) (txt ++ t ++ NEWLINE)) as (y & -> & H).
    exists ((t ++ NEWLINE) ++ y ++ NEWLINE). split; [now rewrite <- !app_assoc|].
    intros p [E | (_ & para & Hp & Hr)].
    + injection E as <-. apply substring_left, substring_left, substring_refl.
    + apply substring_right, substring_left. now apply (H para).
  - exists (t ++ NEWLINE ++ NEWLINE). split; [now rewrite <- !app_assoc|].
    intros p [E | (Hf & _)]; [|discriminate].
    injection E as <-. apply substring_left, substring_refl.
  - destruct (frame_extends (paragraphs shape) txt) as (y & -> & H).
    exists (y ++ NEWLINE). split; [now rewrite <- !app_assoc|].
    intros p [E | (_ & para & Hp & Hr)]; [discriminate|].
    apply substring_left. now apply (H para).
  - exists NEWLINE. split; [reflexivity|].
    intros p [E | (Hf & _)]; discriminate.
Qed.

Lemma slides_extend : forall slides txt, exists y,
  fold_left (fun txt slide => fold_left shape_step slide txt) slides txt = txt ++ y /\
  forall slide shape p, In slide slides -> In shape slide -> shape_gives shape p ->
    Substring p y.
Proof.
  intros slides txt.
  destruct (fold_extends (fun txt slide => fold_left shape_step slide txt)
              (fun slide p => exists shape, In shape slide /\ shape_gives shape p))
    with (l := slides) (txt := txt) as (y & E & H).
  - intros t slide.
    destruct (fold_extends shape_step shape_gives shape_extends slide t) as (y & E & H).
    exists y. split; [exact E|]. intros p (shape & Hs & Hg). now apply (H shape).
  - exists y. split; [exact E|]. intros slide shape p Hsl Hsh Hg.
    apply (H slide); eauto.
Qed.

Lemma endswith_rev suffix s :
  endswith suffix s = true -> exists post, rev s = rev suffix ++ post.
Proof. unfold endswith. apply startswith_spec. Qed.

Lemma pdf_is_not_docx s :
  endswith (cps ".pdf") s = true -> endswith (cps ".docx") s = false.
Proof.
  intro H. apply endswith_rev in H as [post E]. unfold endswith. rewrite E. reflexivity.
Qed.

Lemma ppt_is_not_docx_pdf s :
  endswith (cps ".ppt") s || endswith (cps ".pptx") s = true ->
  endswith (cps ".docx") s = false /\ endswith (cps ".pdf") s = false.
Proof.
  intro H. apply orb_true_iff in H as [H | H];
    apply endswith_rev in H as [post E]; unfold endswith; rewrite E; split; reflexivity.
Qed.

Lemma upload_evidence libs decode nlp filename body a :
  upload libs decode nlp filename body = Reply a ->
  exists txt, extract libs decode (Unicode.lower filename) body = Returns txt /\
              evidence a = snd (simulate_adversary init txt).
Proof.
  unfold upload. cbn zeta. intro H.
  destruct (extract libs decode (Unicode.lower filename) body) as [txt|e0]; [|discriminate].
  destruct (strip txt) as [|c t]; [discriminate|].
  exists txt. split; [reflexivity|].
  destruct (simulate_adversary init txt) as [risk logs].
  destruct (nlp_harden nlp init txt) as [safe|e]; [|discriminate].
  replace a with {| extracted_text := Some (firstn 1500 txt); original_risk := risk;
                    risk_score := risk; market_score := (100 - risk)%Z;
                    evidence := logs; safe_text := safe |} by congruence.
  reflexivity.
Qed.

(** X10. Nothing that a document library reads is lost to the scorer.  When
    [upload] replies for a .docx, .pdf, .ppt or .pptx file read by its library,
    every evidence line that the scorer gives for a paragraph of the document, for
    a page, for the text of a shape or for a run of a text frame is a line of the
    evidence of the reply. *)
Theorem X10_documents_are_scored_whole libs decode nlp filename body a :
  upload libs decode nlp filename body = Reply a ->
  (forall open_docx paras,
     endswith (cps ".docx") (Unicode.lower filename) = true ->
     Document libs = Some open_docx -> open_docx body = Returns paras ->
     forall p line, In p paras ->
       In line (snd (simulate_adversary init p)) -> In line (evidence a)) /\
  (forall open_pdf pages,
     endswith (cps ".pdf") (Unicode.lower filename) = true ->
     fitz libs = Some open_pdf -> open_pdf body = Returns pages ->
     forall p line, In p pages ->
       In line (snd (simulate_adversary init p)) -> In line (evidence a)) /\
  (forall open_pptx slides,
     endswith (cps ".ppt") (Unicode.lower filename) ||
     endswith (cps ".pptx") (Unicode.lower filename) = true ->
     Presentation libs = Some open_pptx -> open_pptx body = Returns slides ->
     forall slide shape p line, In slide slides -> In shape slide ->
       shape_gives shape p ->
       In line (snd (simulate_adversary init p)) -> In line (evidence a)).
Proof.
  intro H. apply upload_evidence in H as (txt & Hx & ->).
  unfold extract in Hx. repeat split.
  - intros open_docx paras He Hd Ho p line Hp Hl.
    rewrite He, Hd, Ho in Hx. injection Hx as <-.
    apply (indicators_substring p); [|exact Hl]. now apply join_substring.
  - intros open_pdf pages He Hf Ho p line Hp Hl.
    rewrite (pdf_is_not_docx _ He), He, Hf, Ho in Hx. injection Hx as <-.
    apply (indicators_substring p); [|exact Hl]. now apply join_substring.
  - intros open_pptx slides He Hpr Ho slide shape p line Hsl Hsh Hg Hl.
    destruct (ppt_is_not_docx_pdf _ He) as [H1 H2].
    rewrite H1, H2, He, Hpr, Ho in Hx. injection Hx as <-.
    apply (indicators_substring p); [|exact Hl].
    destruct (slides_extend slides []) as (y & -> & Hy).
    apply (Hy slide shape); assumption.
Qed.

Lemma X10_documents_are_scored_whole_witness :
  In PHISHING [PHISHING].
Proof.
  pose (a := {| extracted_text := Some (cps "Minutes" ++ NEWLINE ++ cps "Write to jane@acme.com");
                original_risk := 40; risk_score := 40; market_score := 60;
                evidence := [PHISHING];
                safe_text := cps "Minutes" ++ NEWLINE ++ cps "Write to [ID_GATEWAY]" |}).
  assert (H : upload sample_docx (fun _ => []) None (cps "Minutes.DOCX") [] = Reply a)
    by (vm_compute; reflexivity).
  destruct (X10_documents_are_scored_whole _ _ _ _ _ a H) as (Hd & _ & _).
  apply (Hd (fun _ => Returns [cps "Minutes"; cps "Write to jane@acme.com"])
            [cps "Minutes"; cps "Write to jane@acme.com"]
            eq_refl eq_refl eq_refl (cps "Write to jane@acme.com") PHISHING).
  - simpl. tauto.
  - vm_compute. tauto.
Defined.

(** ** Substitution between characters that no match can hold *)

Section Barrier.

Variable A : Type.

Lemma repeat_ext a : forall s lo hi (k k' : text -> option A),
  (forall x, k x = k' x) -> Re.repeat a lo hi s k = Re.repeat a lo hi s k'.
Proof.
  induction s as [|c s IH]; intros lo hi k k' E; cbn [Re.repeat].
  - now rewrite E.
  - rewrite (IH (Nat.pred lo) (option_map Nat.pred hi) k k' E), (E (c :: s)). reflexivity.
Qed.

Lemma run_ext : forall r s (k k' : text -> option A),
  (forall x, k x = k' x) -> Re.run r s k = Re.run r s k'.
Proof.
  induction r as [|a|r1 IH1 r2 IH2|n r IH|lo hi a|r IH]; intros s k k' E; simpl.
  - apply E.
  - destruct s as [|c s]; [reflexivity|]. now rewrite E.
  - apply IH1. intro x. now apply IH2.
  - now apply IH.
  - now apply repeat_ext.
  - rewrite (IH s k k' E), (E s). reflexivity.
Qed.

Lemma repeat_barrier a c t : Re.atom_matches a c = false ->
  forall s lo hi (k : text -> option A),
  Re.repeat a lo hi (s ++ c :: t) k = Re.repeat a lo hi s (fun s' => k (s' ++ c :: t)).
Proof.
  intros Hc. induction s as [|x s IH]; intros lo hi k.
  - cbn [app Re.repeat]. rewrite Hc. reflexivity.
  - cbn [app Re.repeat]. rewrite IH. reflexivity.
Qed.

(** Before a character that the pattern cannot hold, the matcher does what it does
    at the end of the text. *)
Lemma run_barrier c t : forall r, may_hold r c = false ->
  forall s (k : text -> option A),
  Re.run r (s ++ c :: t) k = Re.run r s (fun s' => k (s' ++ c :: t)).
Proof.
  unfold may_hold.
  induction r as [|a|r1 IH1 r2 IH2|n r IH|lo hi a|r IH]; intros Hc s k; simpl in *.
  - reflexivity.
  - rewrite orb_false_r in Hc. destruct s as [|x s]; simpl; [now rewrite Hc | reflexivity].
  - rewrite existsb_app in Hc. apply orb_false_elim in Hc as [H1 H2].
    rewrite (IH1 H1). apply run_ext. intro x. now apply IH2.
  - now apply IH.
  - rewrite orb_false_r in Hc. now apply repeat_barrier.
  - now rewrite (IH Hc).
Qed.

End Barrier.

Lemma run_rest : forall r s (f : text -> text),
  Re.run r s (fun s' => Some (f s')) = option_map f (Re.run r s (@Some text)).
Proof.
  assert (G : forall r s (f : text -> text) (k : text -> option text),
            Re.run r s (fun s' => option_map f (k s')) = option_map f (Re.run r s k)).
  { induction r as [|a|r1 IH1 r2 IH2|n r IH|lo hi a|r IH]; intros s f k; simpl.
    - reflexivity.
    - destruct s as [|c s]; [reflexivity|]. destruct (Re.atom_matches a c); reflexivity.
    - rewrite <- IH1. apply run_ext. intro x. apply IH2.
    - apply IH.
    - revert lo hi. induction s as [|c s IHs]; intros lo hi; cbn [Re.repeat].
      + destruct lo; reflexivity.
      + rewrite IHs.
        destruct (Re.atom_matches a c && Re.may_repeat hi); [|destruct lo; reflexivity].
        destruct (Re.repeat a (Nat.pred lo) (option_map Nat.pred hi) s k); [reflexivity|].
        destruct lo; reflexivity.
    - rewrite IH. destruct (Re.run r s k); reflexivity. }
  intros r s f. apply (G r s f (@Some text)).
Qed.

Lemma match_at_barrier r c s t : may_hold r c = false ->
  Re.match_at r (s ++ c :: t) = option_map (fun rest => rest ++ c :: t) (Re.match_at r s).
Proof.
  intro Hc. unfold Re.match_at. rewrite (run_barrier text c t r Hc). apply run_rest.
Qed.

Lemma no_match_at_barrier r c t :
  0 < min_length r -> may_hold r c = false -> Re.match_at r (c :: t) = None.
Proof.
  intros Hr Hc. apply match_at_none. intros (w & rest & E & M).
  pose proof (Matches_nonempty r w Hr M) as Hw.
  apply Matches_chars in M. destruct w as [|x w]; [congruence|].
  injection E as <- _. inversion M; subst. congruence.
Qed.

Lemma no_match_at_end r : 0 < min_length r -> Re.match_at r [] = None.
Proof.
  intros Hr. apply match_at_none. intros (w & rest & E & M).
  symmetry in E. apply app_eq_nil in E as [-> _]. now apply (Matches_nonempty r [] Hr M).
Qed.

(** A substitution works on each side of such a character by itself. *)
Lemma sub_barrier r repl c t :
  0 < min_length r -> may_hold r c = false ->
  forall s, Re.sub r repl (s ++ c :: t) = Re.sub r repl s ++ c :: Re.sub r repl t.
Proof.
  intros Hr Hc s. unfold Re.sub.
  remember (length s) as n eqn:Hn. revert s Hn.
  induction n as [n IH] using lt_wf_ind. intros [|x s] Hn.
  - cbn [app]. rewrite (sub_from_keep r repl c t (no_match_at_barrier r c t Hr Hc)).
    simpl. now rewrite (no_match_at_end r Hr).
  - destruct (Re.match_at r (x :: s)) as [rest|] eqn:Hm.
    + pose proof Hm as Hm'. apply match_at_sound in Hm' as (w & E & M).
      pose proof (Matches_nonempty r w Hr M) as Hw.
      assert (Hlen : length rest < length (x :: s)).
      { rewrite E, length_app. destruct w; [congruence | simpl; lia]. }
      rewrite (sub_from_match r repl x s rest Hm Hlen).
      assert (Hm2 : Re.match_at r (x :: s ++ c :: t) = Some (rest ++ c :: t)).
      { change (x :: s ++ c :: t) with ((x :: s) ++ c :: t).
        now rewrite (match_at_barrier r c (x :: s) t Hc), Hm. }
      cbn [app]. rewrite (sub_from_match r repl x (s ++ c :: t) (rest ++ c :: t) Hm2).
      * rewrite (IH (length rest)); [now rewrite <- app_assoc | lia | reflexivity].
      * simpl in *. rewrite !length_app in *. simpl. lia.
    + assert (Hm2 : Re.match_at r (x :: s ++ c :: t) = None).
      { change (x :: s ++ c :: t) with ((x :: s) ++ c :: t).
        now rewrite (match_at_barrier r c (x :: s) t Hc), Hm. }
      cbn [app]. rewrite (sub_from_keep r repl x s Hm), (sub_from_keep r repl x _ Hm2).
      cbn [app]. f_equal. apply (IH (length s)); [simpl in Hn; lia | reflexivity].
Qed.

(** ** The placeholders of the entity path *)

Lemma scrub_barrier c s t :
  may_hold Re.EMAIL c = false -> may_hold Re.PHONE c = false ->
  scrub (s ++ c :: t) = scrub s ++ c :: scrub t.
Proof.
  intros He Hp. unfold scrub.
  rewrite (sub_barrier Re.EMAIL ID_GATEWAY c t) by (simpl; lia || exact He).
  now rewrite (sub_barrier Re.PHONE VERIFIED_LINE c) by (simpl; lia || exact Hp).
Qed.

Lemma hidden_label e : hidden e = true -> In (label_ e) HIDDEN_LABELS.
Proof.
  unfold hidden. intro H. apply existsb_exists in H as (l & Hin & E).
  apply text_eqb_eq in E. now rewrite E.
Qed.

(** A placeholder goes through the two substitutions as it is, and parts the text
    for them. *)
Lemma placeholder_kept e : hidden e = true ->
  forall a b, scrub (a ++ placeholder e ++ b) = scrub a ++ placeholder e ++ scrub b.
Proof.
  intros H a b. apply hidden_label in H.
  set (inner := cps "HIDDEN_" ++ label_ e).
  assert (P : placeholder e = 0x5B%N :: inner ++ [0x5D%N]).
  { unfold placeholder, inner.
    change (cps "[HIDDEN_") with (0x5B%N :: cps "HIDDEN_"). change (cps "]") with [0x5D%N].
    cbn [app]. now rewrite app_assoc. }
  assert (Hin : scrub inner = inner).
  { unfold inner. simpl in H.
    destruct H as [<- | [<- | [<- | [<- | [<- | []]]]]]; vm_compute; reflexivity. }
  rewrite P.
  assert (E : forall x y : text,
            x ++ (0x5B%N :: inner ++ [0x5D%N]) ++ y = x ++ 0x5B%N :: (inner ++ 0x5D%N :: y)).
  { intros x y. cbn [app]. now rewrite <- app_assoc. }
  rewrite !E.
  rewrite (scrub_barrier 0x5B%N) by reflexivity.
  rewrite (scrub_barrier 0x5D%N) by reflexivity.
  now rewrite Hin.
Qed.

Lemma ordered_weaken : forall ents pos q len,
  q <= pos -> ordered pos ents len -> ordered q ents len.
Proof.
  intros [|e ents] pos q len Hq H; simpl in *; [lia|].
  destruct H as (H1 & H2 & H3). repeat split; auto. lia.
Qed.

Lemma ordered_filter : forall ents pos len,
  ordered pos ents len -> ordered pos (filter hidden ents) len.
Proof.
  induction ents as [|e ents IH]; intros pos len H; simpl in *; [exact H|].
  destruct H as (H1 & H2 & H3). destruct (hidden e); simpl.
  - repeat split; auto.
  - apply (ordered_weaken _ (end_char e)); [lia | now apply IH].
Qed.

Lemma replace_spans_shift hs pos q len (rest : text) :
  pos <= q -> ordered q hs len ->
  replace_spans pos hs rest =
  firstn (q - pos) rest ++ replace_spans q hs (skipn (q - pos) rest).
Proof.
  intros Hq H. destruct hs as [|e hs]; cbn [replace_spans].
  - now rewrite firstn_skipn.
  - simpl in H. destruct H as (H1 & H2 & H3).
    rewrite !skipn_skipn_add.
    replace (q - pos + (start_char e - q)) with (start_char e - pos) by lia.
    replace (q - pos + (end_char e - q)) with (end_char e - pos) by lia.
    rewrite app_assoc.
    rewrite <- (firstn_split rest (q - pos) (start_char e - pos)) by lia.
    replace (start_char e - pos - (q - pos)) with (start_char e - q) by lia.
    now rewrite <- !app_assoc.
Qed.

(** Spans with another label can be left out. *)
Lemma replace_spans_filter : forall ents pos len (rest : text),
  ordered pos ents len ->
  replace_spans pos ents rest = replace_spans pos (filter hidden ents) rest.
Proof.
  induction ents as [|e ents IH]; intros pos len rest H; [reflexivity|].
  simpl in H. destruct H as (H1 & H2 & H3).
  cbn [replace_spans filter]. rewrite (IH _ len _ H3).
  destruct (hidden e) eqn:He.
  - cbn [replace_spans]. now rewrite He.
  - rewrite app_assoc.
    replace (end_char e - start_char e) with (end_char e - pos - (start_char e - pos)) by lia.
    rewrite firstn_split by lia.
    symmetry. apply (replace_spans_shift _ pos (end_char e) len); [lia|].
    now apply ordered_filter.
Qed.

Lemma scrub_replace_spans : forall hs pos (rest : text),
  Forall (fun e => hidden e = true) hs ->
  scrub (replace_spans pos hs rest) = harden_pieces pos hs rest.
Proof.
  induction hs as [|e hs IH]; intros pos rest H; [reflexivity|].
  inversion H as [|? ? He Hhs]; subst. cbn [replace_spans harden_pieces].
  rewrite He, (placeholder_kept e He), IH by exact Hhs. reflexivity.
Qed.

Lemma harden_pieces_placeholders : forall hs pos (rest : text) e,
  In e hs -> Substring (placeholder e) (harden_pieces pos hs rest).
Proof.
  induction hs as [|x hs IH]; intros pos rest e Hin; [destruct Hin|].
  cbn [harden_pieces]. destruct Hin as [<- | Hin].
  - apply substring_right, substring_left, substring_refl.
  - apply substring_right, substring_right. now apply IH.
Qed.

(** X11. On spans as [doc.ents] has them, the email and phone substitutions that
    end the entity path never touch a placeholder and never match across one: the
    result is the placeholders of the hidden spans, in place, with the stretches
    of text before, between and after them hardened each by itself. *)
Theorem X11_placeholders_are_kept (model : pipeline) self txt ents :
  model txt = Returns ents ->
  ordered 0 ents (length txt) ->
  nlp_harden (Some model) self txt =
    Returns (harden_pieces 0 (filter hidden ents) txt) /\
  (forall e out, In e ents -> hidden e = true ->
     nlp_harden (Some model) self txt = Returns out -> Substring (placeholder e) out).
Proof.
  intros Hm Ho.
  assert (E : nlp_harden (Some model) self txt =
              Returns (harden_pieces 0 (filter hidden ents) txt)).
  { unfold nlp_harden. rewrite Hm. cbn zeta.
    pose proof (entity_pass ents txt 0 Ho) as HP. simpl in HP. rewrite HP.
    change (Re.sub Re.PHONE VERIFIED_LINE (Re.sub Re.EMAIL ID_GATEWAY (replace_spans 0 ents txt)))
      with (scrub (replace_spans 0 ents txt)).
    rewrite (replace_spans_filter ents 0 (length txt) txt Ho).
    rewrite scrub_replace_spans; [reflexivity|].
    apply Forall_forall. intros e He. now apply filter_In in He. }
  split; [exact E|].
  intros e out Hin He Hout. rewrite E in Hout. injection Hout as <-.
  apply harden_pieces_placeholders. apply filter_In. auto.
Qed.

Lemma X11_placeholders_are_kept_witness :
  nlp_harden (Some (fun _ => Returns two_entities)) init (cps "abc def ghi") =
  Returns (harden_pieces 0 (filter hidden two_entities) (cps "abc def ghi")).
Proof.
  assert (Ho : ordered 0 two_entities (length (cps "abc def ghi"))) by (simpl; lia).
  exact (proj1 (X11_placeholders_are_kept (fun _ => Returns two_entities) init
                  (cps "abc def ghi") two_entities eq_refl Ho)).
Defined.

(** ** No line twice *)

Lemma NoDup_map_filter {X Y} (g : X -> Y) (f : X -> bool) (l : list X) :
  NoDup (map g l) -> NoDup (map g (filter f l)).
Proof.
  induction l as [|x l IH]; intro H; simpl; [constructor|].
  simpl in H. inversion H as [|? ? Hx Hl]; subst.
  destruct (f x); simpl; [|now apply IH].
  constructor; [|now apply IH].
  intro Hin. apply Hx. apply in_map_iff in Hin as (y & E & Hy).
  apply in_map_iff. exists y. split; [exact E|]. now apply filter_In in Hy.
Qed.

Lemma all_lines_NoDup : NoDup ALL_LINES.
Proof.
  unfold ALL_LINES. repeat constructor; vm_compute; intuition discriminate.
Qed.

(** X12. With the taxonomy of the program the scorer never gives a line twice,
    and every line it gives is one of eight: the phishing line, the SIM-swap line
    and the RECON lines of the six terms. *)
Theorem X12_evidence_lines txt :
  NoDup (snd (simulate_adversary init txt)) /\
  incl (snd (simulate_adversary init txt)) ALL_LINES /\
  length ALL_LINES = 8.
Proof.
  rewrite simulate_adversary_assessment. cbn [snd assessment].
  pose proof all_lines_NoDup as H. unfold ALL_LINES in *.
  inversion H as [|? ? HP H1]; subst. inversion H1 as [|? ? HS H2]; subst.
  set (hits := map RECON (fired (taxonomy init) txt)).
  assert (Hh : NoDup hits) by (apply NoDup_map_filter; exact H2).
  assert (Hi : incl hits (map RECON (keys (taxonomy init)))).
  { intros x Hx. apply in_map_iff in Hx as (k & <- & Hk). apply in_map.
    now apply filter_In in Hk. }
  assert (A1 : ~ In PHISHING hits) by (intro Hin; apply HP; right; now apply Hi).
  assert (A2 : ~ In SIM_SWAP hits) by (intro Hin; apply HS; now apply Hi).
  assert (A3 : ~ In PHISHING (SIM_SWAP :: hits)).
  { intros [E | Hin]; [apply HP; now left | now apply A1]. }
  split; [|split; [|reflexivity]].
  - destruct (Re.truthy (Re.search Re.EMAIL txt)), (Re.truthy (Re.search Re.PHONE txt));
      cbn [app].
    + constructor; [exact A3|]. now constructor.
    + now constructor.
    + now constructor.
    + exact Hh.
  - intros x Hx.
    assert (Hx' : In x (PHISHING :: SIM_SWAP :: hits)).
    { destruct (Re.truthy (Re.search Re.EMAIL txt)),
        (Re.truthy (Re.search Re.PHONE txt)); cbn [app] in Hx; simpl in *; tauto. }
    destruct Hx' as [<- | [<- | Hx']]; [now left | right; now left |].
    right. right. now apply Hi.
Qed.

(** ** Lower-casing twice *)

Lemma covers_image c lo hi step target :
  step <> 0%N -> Unicode.covers c (lo, hi, step, target) = true ->
  In (target + (c - lo))%N (image_points (lo, hi, step, target)).
Proof.
  intros Hs H. simpl in H.
  apply andb_prop in H as [H Hm]. apply andb_prop in H as [Hlo Hhi].
  apply N.leb_le in Hlo, Hhi. apply N.eqb_eq in Hm.
  unfold image_points. apply in_map_iff.
  exists (N.to_nat ((c - lo) / step)). split.
  - rewrite N2Nat.id. f_equal.
    pose proof (N.div_mod (c - lo) step Hs) as E. rewrite Hm in E.
    generalize dependent ((c - lo) / step)%N. intros j E. lia.
  - apply in_seq. split; [apply Nat.le_0_l|].
    assert (D : ((c - lo) / step <= (hi - lo) / step)%N)
      by (apply N.Div0.div_le_mono; lia).
    generalize dependent ((c - lo) / step)%N. generalize ((hi - lo) / step)%N.
    intros m j D. lia.
Qed.

Lemma tolower_table_stable : forallb entry_stable Unicode.tolower_table = true.
Proof. vm_compute. reflexivity. Qed.

Lemma tolower_stable c :
  c <> 0x3A3%N -> c <> 0x130%N -> stable (Unicode.unicode_tolower c) = true.
Proof.
  intros H1 H2. unfold Unicode.unicode_tolower, Unicode.map_lookup.
  destruct (find (Unicode.covers c) Unicode.tolower_table)
    as [[[[lo hi] step] target]|] eqn:F.
  - apply find_some in F as [Hin Hc].
    pose proof tolower_table_stable as T. rewrite forallb_forall in T.
    apply T in Hin. unfold entry_stable in Hin.
    apply andb_prop in Hin as [Hs Hall].
    apply negb_true_iff, N.eqb_neq in Hs.
    rewrite forallb_forall in Hall. apply Hall. now apply covers_image.
  - unfold stable. apply andb_true_iff. split; [apply andb_true_iff; split|].
    + now apply negb_true_iff, N.eqb_neq.
    + cbn [Unicode.lower_special Unicode.assoc].
      destruct (N.eqb_spec 0x130 c); [congruence | reflexivity].
    + unfold Unicode.unicode_tolower, Unicode.map_lookup. rewrite F. apply N.eqb_refl.
Qed.

Lemma lower_at_stable before c after :
  forallb stable (Unicode.lower_at before c after) = true.
Proof.
  unfold Unicode.lower_at. destruct (N.eqb_spec c 0x3A3) as [->|Hc].
  - unfold Unicode.handle_capital_sigma. destruct (_ && _); vm_compute; reflexivity.
  - unfold Unicode.ToLowerFull. cbn [Unicode.lower_special Unicode.assoc].
    destruct (N.eqb_spec 0x130 c) as [<-|Hi]; [vm_compute; reflexivity|].
    cbn [forallb]. rewrite tolower_stable by congruence. reflexivity.
Qed.

Lemma do_lower_stable : forall s before, forallb stable (Unicode.do_lower before s) = true.
Proof.
  induction s as [|c s IH]; intros before; simpl; [reflexivity|].
  now rewrite forallb_app, lower_at_stable, IH.
Qed.

Lemma stable_unchanged : forall y before,
  forallb stable y = true -> Unicode.do_lower before y = y.
Proof.
  induction y as [|x y IH]; intros before H; simpl; [reflexivity|].
  simpl in H. apply andb_prop in H as [Hx Hy]. rewrite (IH _ Hy).
  unfold stable in Hx. apply andb_prop in Hx as [Hx H3]. apply andb_prop in Hx as [H1 H2].
  apply negb_true_iff in H1. apply N.eqb_eq in H3.
  unfold Unicode.lower_at, Unicode.ToLowerFull. rewrite H1.
  destruct (Unicode.assoc Unicode.lower_special x); [discriminate|]. now rewrite H3.
Qed.

(** [str.lower] changes nothing in a lower-cased text. *)
Lemma lower_idempotent s : Unicode.lower (Unicode.lower s) = Unicode.lower s.
Proof. unfold Unicode.lower. apply stable_unchanged, do_lower_stable. Qed.

(** X13. The case of the URL does not matter to [analyze_url]: the URL and its
    lower-cased form get the same answer, reply or failure. *)
Theorem X13_url_case nlp url : analyze_url nlp (Unicode.lower url) = analyze_url nlp url.
Proof. unfold analyze_url. now rewrite lower_idempotent. Qed.

(** ** Hardening piece by piece, and twice *)

Lemma taxonomy_barrier c : forall d,
  forallb (fun kv : text * text =>
             (0 <? length (fst kv)) &&
             negb (may_hold (Re.compile_escaped_ignorecase (fst kv)) c)) d = true ->
  forall a b,
  fold_left taxonomy_step d (a ++ c :: b) =
  fold_left taxonomy_step d a ++ c :: fold_left taxonomy_step d b.
Proof.
  induction d as [|[k v] d IH]; intros Hd a b; simpl; [reflexivity|].
  simpl in Hd. apply andb_prop in Hd as [Hkv Hd]. apply andb_prop in Hkv as [Hk Hc].
  apply Nat.ltb_lt in Hk. apply negb_true_iff in Hc.
  assert (E : taxonomy_step (a ++ c :: b) (k, v) =
              taxonomy_step a (k, v) ++ c :: taxonomy_step b (k, v)).
  { unfold taxonomy_step. cbn [fst snd].
    apply sub_barrier; [now rewrite min_length_escaped | exact Hc]. }
  rewrite E. now apply IH.
Qed.

(** X14. The fallback path hardens a text piece by piece: at a character that no
    pattern can hold (a comma, a bracket), the result is the hardened text before
    it, the character, and the hardened text after it. *)
Theorem X14_fallback_piecewise c a b :
  separator c = true ->
  fallback_harden init (a ++ c :: b) =
  fallback_harden init a ++ c :: fallback_harden init b.
Proof.
  unfold separator. intro H.
  apply andb_prop in H as [H Ht]. apply andb_prop in H as [He Hp].
  apply negb_true_iff in He, Hp.
  unfold fallback_harden. cbn zeta.
  rewrite (sub_barrier Re.EMAIL ID_GATEWAY c b) by (simpl; lia || exact He).
  rewrite (sub_barrier Re.PHONE VERIFIED_LINE c) by (simpl; lia || exact Hp).
  apply taxonomy_barrier.
  rewrite forallb_forall in Ht. apply forallb_forall. intros kv Hin.
  rewrite (Ht kv Hin), andb_true_r.
  pose proof init_entries_ok as Hok. rewrite forallb_forall in Hok.
  specialize (Hok kv Hin). destruct kv as [k v].
  apply entry_ok_spec in Hok as (Hk & _). now apply Nat.ltb_lt.
Qed.

Lemma X14_fallback_piecewise_witness :
  fallback_harden init (cps "jane@acme.com" ++ 0x2C%N :: cps "Manager") =
  fallback_harden init (cps "jane@acme.com") ++ 0x2C%N :: fallback_harden init (cps "Manager").
Proof.
  apply (X14_fallback_piecewise 0x2C%N (cps "jane@acme.com") (cps "Manager")).
  vm_compute. reflexivity.
Defined.

Lemma scrub_clean s : ~ Occurs Re.EMAIL (scrub s) /\ ~ Occurs Re.PHONE (scrub s).
Proof.
  unfold scrub. split.
  - apply sub_keeps_out; [simpl; lia | simpl; lia | reflexivity |].
    apply sub_removes; [simpl; lia | reflexivity].
  - apply sub_removes; [simpl; lia | reflexivity].
Qed.

(** X15. The email and phone substitutions change nothing in a text that the
    entity path returned.  Hardened again with a model that finds no entity in it,
    the text comes back as it is; scored, with any taxonomy, it gets neither the
    phishing nor the SIM-swap line. *)
Theorem X15_entity_path_twice (model : pipeline) self txt out :
  nlp_harden (Some model) self txt = Returns out ->
  scrub out = out /\
  (forall again : pipeline, again out = Returns [] ->
     nlp_harden (Some again) self out = Returns out) /\
  (forall self', ~ In PHISHING (snd (simulate_adversary self' out)) /\
                 ~ In SIM_SWAP (snd (simulate_adversary self' out))).
Proof.
  intro H. unfold nlp_harden in H. destruct (model txt) as [ents|e]; [|discriminate].
  cbn zeta in H.
  change (Re.sub Re.PHONE VERIFIED_LINE
            (Re.sub Re.EMAIL ID_GATEWAY (fold_left entity_step (rev ents) txt)))
    with (scrub (fold_left entity_step (rev ents) txt)) in H.
  injection H as <-.
  destruct (scrub_clean (fold_left entity_step (rev ents) txt)) as [He Hp].
  set (out := scrub (fold_left entity_step (rev ents) txt)) in *.
  assert (E : scrub out = out).
  { unfold scrub at 1. rewrite (sub_identity Re.EMAIL ID_GATEWAY out He).
    apply sub_identity. exact Hp. }
  split; [exact E|]. split.
  - intros again Ha. unfold nlp_harden. rewrite Ha. cbn [rev fold_left].
    change (Re.sub Re.PHONE VERIFIED_LINE (Re.sub Re.EMAIL ID_GATEWAY out)) with (scrub out).
    now rewrite E.
  - intro self'. split; [|now apply no_phone_no_line].
    intro Hin. apply search_none_occurs in He.
    rewrite simulate_adversary_assessment in Hin. cbn [snd assessment] in Hin.
    rewrite He in Hin. cbn [app] in Hin.
    apply in_app_or in Hin as [Hin | Hin].
    + destruct (Re.truthy (Re.search Re.PHONE out)); [|destruct Hin].
      destruct Hin as [E' | []]. discriminate.
    + apply in_map_iff in Hin as (k & E' & _). discriminate.
Qed.

Lemma X15_entity_path_twice_witness :
  scrub (cps "[HIDDEN_PERSON] at [ID_GATEWAY], [VERIFIED_LINE]") =
  cps "[HIDDEN_PERSON] at [ID_GATEWAY], [VERIFIED_LINE]".
Proof.
  apply (X15_entity_path_twice
           (fun _ => Returns [ {| start_char := 0; end_char := 4;
                                  label_ := cps "PERSON" |} ])
           init (cps "Jane at jane@acme.com, +91 9876543210")).
  vm_compute. reflexivity.
Defined.

(** * The fallback path in full *)

(** ** The match that is replaced *)

Lemma app_same_length {X} : forall (a a' b b' : list X),
  a ++ b = a' ++ b' -> length a = length a' -> a = a' /\ b = b'.
Proof.
  induction a as [|x a IH]; intros [|y a'] b b' E L; simpl in *; try lia.
  - auto.
  - injection E as -> E. destruct (IH a' b b' E) as [-> ->]; [lia | auto].
Qed.

(** Two stretches of characters of a kind, each up to a character not of the kind,
    are the same stretch. *)
Lemma prefix_until (P : char -> bool) : forall a a' x x' r r',
  a ++ x :: r = a' ++ x' :: r' ->
  Forall (fun c => P c = true) a -> Forall (fun c => P c = true) a' ->
  P x = false -> P x' = false -> a = a' /\ x = x' /\ r = r'.
Proof.
  induction a as [|y a IH]; intros [|y' a'] x x' r r' E Ha Ha' Hx Hx'; simpl in E.
  - injection E as -> ->. auto.
  - injection E as -> _. inversion Ha'; subst. congruence.
  - injection E as -> _. inversion Ha; subst. congruence.
  - injection E as -> E. inversion Ha; inversion Ha'; subst.
    destruct (IH a' x x' r r' E) as (-> & -> & ->); auto.
Qed.

Section Priority.

Variable A : Type.

(** A greedy repeat gives back as little as it can: with any longer stretch that
    it may take, the rest of the pattern fails. *)
Lemma repeat_priority a : forall s lo hi (k : text -> option A) m,
  Re.repeat a lo hi s k = Some m ->
  exists w rest, s = w ++ rest /\ Forall (fun c => Re.atom_matches a c = true) w /\
    lo <= length w /\ within hi (length w) /\ k rest = Some m /\
    forall w2 rest2, s = w2 ++ rest2 ->
      Forall (fun c => Re.atom_matches a c = true) w2 -> within hi (length w2) ->
      length w < length w2 -> k rest2 = None.
Proof.
  induction s as [|c s IH]; intros lo hi k m H.
  - simpl in H. destruct lo; [|discriminate].
    exists [], []. repeat split; auto using within_0.
    intros w2 rest2 E _ _ L. symmetry in E. apply app_eq_nil in E as [-> _].
    simpl in L. lia.
  - cbn [Re.repeat] in H.
    destruct (Re.atom_matches a c && Re.may_repeat hi) eqn:Hc.
    + apply andb_prop in Hc as [Hc Hm].
      destruct (Re.repeat a (Nat.pred lo) (option_map Nat.pred hi) s k) eqn:Hr.
      * injection H as ->.
        apply IH in Hr as (w & rest & -> & Hw & Hlo & Hhi & Hk & Hp).
        exists (c :: w), rest. split; [reflexivity|]. split; [now constructor|].
        split; [simpl; lia|]. split; [now apply within_succ|]. split; [exact Hk|].
        intros [|x w2] rest2 E F2 H2 L; simpl in L; [lia|].
        simpl in E. injection E as <- E. inversion F2; subst.
        apply (Hp w2 rest2 E); auto; [|lia].
        destruct hi as [h|]; simpl in *; [lia | exact I].
      * destruct lo; [|discriminate].
        exists [], (c :: s). split; [reflexivity|]. split; [constructor|].
        split; [simpl; lia|]. split; [apply within_0|]. split; [exact H|].
        intros [|x w2] rest2 E F2 H2 L; simpl in L; [lia|].
        simpl in E. injection E as <- E. inversion F2 as [|? ? _ F2']; subst.
        destruct (k rest2) as [m'|] eqn:Hk; [exfalso | reflexivity].
        destruct (repeat_complete A a w2 rest2 (Nat.pred 0) (option_map Nat.pred hi) k m')
          as [m'' Hm'']; auto.
        -- simpl. lia.
        -- destruct hi as [h|]; simpl in *; [lia | exact I].
        -- congruence.
    + destruct lo; [|discriminate].
      exists [], (c :: s). split; [reflexivity|]. split; [constructor|].
      split; [simpl; lia|]. split; [apply within_0|]. split; [exact H|].
      intros [|x w2] rest2 E F2 H2 L; simpl in L; [lia|].
      simpl in E. injection E as <- E. inversion F2 as [|? ? Hx _]; subst.
      rewrite Hx in Hc. destruct hi as [[|h]|]; simpl in *; try discriminate; lia.
Qed.

(** Where the matcher fails, no text of the shape is followed by a text on which
    the rest of the pattern succeeds. *)
Lemma run_none r s (k : text -> option A) :
  Re.run r s k = None ->
  forall w rest, s = w ++ rest -> Matches r w -> k rest = None.
Proof.
  intros H w rest -> M. destruct (k rest) as [m|] eqn:Hk; [exfalso | reflexivity].
  destruct (run_complete A r w M rest k m Hk) as [m' Hm']. congruence.
Qed.

End Priority.

Lemma picks_longest_rest r w rest :
  PicksLongest r -> Re.match_at r (w ++ rest) = Some rest -> Matches r w ->
  Longest r w rest.
Proof.
  intros Hr Hm M. split; [exact M|]. intros w' rest' E M'.
  pose proof (Hr _ _ Hm w' rest' E M') as L.
  apply (f_equal (@length char)) in E. rewrite !length_app in E. lia.
Qed.

(** The matches of a term all have the length of the term. *)
Lemma escaped_picks_longest k : PicksLongest (Re.compile_escaped_ignorecase k).
Proof.
  intros s rest H w' rest' E M'.
  apply match_at_sound in H as (w & E' & M).
  apply escaped_length in M, M'. subst s.
  apply (f_equal (@length char)) in E. rewrite !length_app in E. lia.
Qed.

Lemma at_sign_not_local : Re.atom_matches Re.LOCAL 0x40%N = false.
Proof. reflexivity. Qed.

Lemma dot_not_domain : Re.atom_matches Re.DOMAIN 0x2E%N = false.
Proof. reflexivity. Qed.

(** An address: the local part and the domain are fixed by the "@" and the "."
    behind them, and the suffix is taken as far as it goes. *)
Lemma email_picks_longest : PicksLongest Re.EMAIL.
Proof.
  intros s rest H w' rest' E M'.
  apply email_shape in M' as (loc & dom & suf & -> & _ & _ & _ & Fl & Fd & Fs).
  unfold Re.match_at, Re.EMAIL in H. cbn [Re.run] in H.
  apply repeat_sound in H as (wl & r1 & E1 & Fwl & _ & _ & H).
  destruct r1 as [|x r1]; [discriminate|].
  destruct (Re.atom_matches (Re.Lit 0x40%N) x) eqn:Hx; [|discriminate].
  simpl in Hx. apply N.eqb_eq in Hx. subst x.
  apply repeat_sound in H as (wd & r2 & E2 & Fwd & _ & _ & H).
  destruct r2 as [|y r2]; [discriminate|].
  destruct (Re.atom_matches (Re.Lit 0x2E%N) y) eqn:Hy; [|discriminate].
  simpl in Hy. apply N.eqb_eq in Hy. subst y.
  apply repeat_priority in H as (ws & r3 & E3 & Fws & _ & _ & H & P).
  injection H as ->. subst s r1 r2.
  rewrite <- !app_assoc in E. cbn [app] in E.
  apply (prefix_until (Re.atom_matches Re.LOCAL)) in E as (-> & _ & E);
    auto using at_sign_not_local.
  apply (prefix_until (Re.atom_matches Re.DOMAIN)) in E as (-> & _ & E);
    auto using dot_not_domain.
  destruct (Nat.le_gt_cases (length suf) (length ws)) as [L | L].
  - apply (f_equal (@length char)) in E. rewrite !length_app in E.
    unfold text, char in *. lia.
  - specialize (P suf rest' E Fs I L). discriminate.
Qed.

Lemma plus_not_digit : Re.atom_matches Re.DIGIT 0x2B%N = false.
Proof. vm_compute. reflexivity. Qed.

Lemma at_most_one {X} (l : list X) : length l <= 1 -> l = [] \/ exists x, l = [x].
Proof. destruct l as [|x [|y l]]; simpl; intro H; eauto; lia. Qed.

(** A number: the matcher tries the prefix with three, two and one digit before it
    tries without a prefix, and a prefix with more digits makes a longer match. *)
Lemma phone_picks_longest : PicksLongest Re.PHONE.
Proof.
  intros s rest H w' rest' E M'.
  unfold Re.PHONE in M'.
  apply Matches_Cat in M' as (prefix & number & -> & Mp & Mn).
  pose proof Mn as Mn'.
  apply Matches_Group, Matches_Repeat in Mn' as (Fn & Ln & Hn). simpl in Hn.
  pose (G := Re.Cat (Re.Repeat 0 (Some 1) (Re.Lit 0x2B%N))
            (Re.Cat (Re.Repeat 1 (Some 3) Re.DIGIT)
                    (Re.Repeat 0 (Some 1) Re.SEPARATOR))).
  pose (kN := fun s' : text => Re.repeat Re.DIGIT 10 (Some 10) s' (@Some text)).
  assert (KN : forall t, kN (number ++ t) <> None).
  { intro t.
    destruct (run_complete text _ number Mn t (@Some text) t eq_refl) as [m Hm].
    cbn [Re.run] in Hm. unfold kN. congruence. }
  change (match Re.run G s kN with Some m => Some m | None => kN s end = Some rest) in H.
  rewrite <- app_assoc in E.
  destruct (Re.run G s kN) as [m|] eqn:HG.
  - injection H as ->. unfold G in HG. cbn [Re.run] in HG.
    apply repeat_priority in HG as (wp & r1 & E1 & Fp & _ & Hhp & K1 & _).
    apply repeat_priority in K1 as (wc & r2 & E2 & Fc & Lc & _ & K2 & P2).
    apply repeat_priority in K2 as (ws & r3 & E3 & _ & _ & _ & K3 & P3).
    apply repeat_sound in K3 as (wn & r4 & E4 & _ & Ln4 & _ & K4).
    injection K4 as ->. subst s r1 r2 r3. simpl in Hhp.
    apply Matches_Optional in Mp as [-> | Mp].
    { apply (f_equal (@length char)) in E. cbn [app] in E. rewrite !length_app in E.
      unfold text, char in *. lia. }
    apply Matches_Group in Mp.
    apply Matches_Cat in Mp as (plus & w1 & -> & Mplus & Mp).
    apply Matches_Cat in Mp as (code & sep & -> & Mc & Ms).
    apply Matches_Repeat in Mplus as (Fplus & _ & Hplus).
    apply Matches_Repeat in Mc as (Fcode & Lcode & Hcode).
    apply Matches_Repeat in Ms as (Fsep & _ & Hsep). simpl in Hplus, Hsep.
    rewrite <- !app_assoc in E.
    assert (D : forall d t x v, Forall (fun c => Re.atom_matches Re.DIGIT c = true) d ->
              1 <= length d -> Forall (fun c => Re.atom_matches (Re.Lit 0x2B%N) c = true) [x] ->
              d ++ t = x :: v -> False).
    { intros [|y d] t x v Fd Ld Fx Ed; simpl in Ld; [lia|].
      simpl in Ed. injection Ed as -> _.
      inversion Fd as [|? ? Hd _]; inversion Fx as [|? ? Hx _]; subst.
      cbn [Re.atom_matches] in Hx. apply N.eqb_eq in Hx. subst x.
      rewrite plus_not_digit in Hd. discriminate. }
    assert (X : wp = plus).
    { destruct (at_most_one wp Hhp) as [-> | [x ->]],
               (at_most_one plus Hplus) as [-> | [y ->]].
      - reflexivity.
      - exfalso. cbn [app] in E. exact (D wc _ y _ Fc Lc Fplus E).
      - exfalso. cbn [app] in E. exact (D code _ x _ Fcode Lcode Fp (eq_sym E)).
      - simpl in E. now injection E as ->. }
    subst wp. apply app_inv_head in E.
    assert (KS : Re.repeat Re.SEPARATOR 0 (Some 1) (sep ++ number ++ rest') kN <> None).
    { destruct (kN (number ++ rest')) as [m|] eqn:Hm; [|now apply KN in Hm].
      destruct (repeat_complete text Re.SEPARATOR sep (number ++ rest') 0 (Some 1) kN m)
        as [m' Hm']; auto; [lia | congruence]. }
    destruct (Nat.le_gt_cases (length code) (length wc)) as [L | L].
    + destruct (Nat.eq_dec (length code) (length wc)) as [Q | Q].
      * symmetry in Q. apply app_same_length in E as [-> E]; [|exact Q].
        destruct (Nat.le_gt_cases (length sep) (length ws)) as [L' | L'].
        -- apply (f_equal (@length char)) in E. rewrite !length_app in E.
           unfold text, char in *. lia.
        -- exfalso. apply (KN rest'). apply (P3 sep (number ++ rest') E Fsep); auto.
      * apply (f_equal (@length char)) in E. rewrite !length_app in E.
        unfold text, char in *. lia.
    + exfalso. apply KS. apply (P2 code (sep ++ number ++ rest') E Fcode); auto.
  - apply repeat_sound in H as (wn & r4 & E4 & _ & Ln4 & _ & K4). injection K4 as ->.
    apply Matches_Optional in Mp as [-> | Mp].
    + subst s. apply (f_equal (@length char)) in E. cbn [app] in E.
      rewrite !length_app in E. unfold text, char in *. lia.
    + exfalso. apply (KN rest').
      apply (run_none text G s kN HG prefix (number ++ rest') E).
      now apply Matches_Group in Mp.
Qed.

(** ** [re.sub] replaces the longest match at the left-most place *)

Lemma sub_Substituted r repl : 0 < min_length r -> PicksLongest r ->
  forall s, Substituted r repl s (Re.sub r repl s).
Proof.
  intros Hr Hl s. unfold Re.sub.
  remember (length s) as n eqn:Hn. revert s Hn.
  induction n as [n IH] using lt_wf_ind. intros [|c s] Hn.
  - simpl. rewrite (no_match_at_end r Hr). constructor.
  - destruct (Re.match_at r (c :: s)) as [rest|] eqn:Hm.
    + pose proof Hm as Hm'. apply match_at_sound in Hm' as (w & E & M).
      pose proof (Matches_nonempty r w Hr M) as Hw.
      assert (Hlen : length rest < length (c :: s)).
      { rewrite E, length_app. destruct w; [congruence | simpl; lia]. }
      rewrite (sub_from_match r repl c s rest Hm Hlen), E.
      apply Substituted_match; auto.
      * apply picks_longest_rest; auto. now rewrite <- E.
      * apply (IH (length rest)); auto. lia.
    + rewrite (sub_from_keep r repl c s Hm). apply Substituted_keep.
      * now apply match_at_none.
      * apply (IH (length s)); auto. simpl in Hn. lia.
Qed.

Lemma Substituted_inv r repl s out : Substituted r repl s out ->
  (s = [] /\ out = []) \/
  (exists c s' o, s = c :: s' /\ out = c :: o /\ ~ StartsMatch r (c :: s') /\
     Substituted r repl s' o) \/
  (exists w rest o, s = w ++ rest /\ out = repl ++ o /\ w <> [] /\ Longest r w rest /\
     Substituted r repl rest o).
Proof.
  destruct 1 as [|c s out Hc H|w rest out Hw L H].
  - left. auto.
  - right. left. exists c, s, out. auto.
  - right. right. exists w, rest, out. auto.
Qed.

Lemma Substituted_Replaced r repl s out :
  Substituted r repl s out -> Replaced r repl s out.
Proof.
  induction 1 as [|c s out Hc H IH|w rest out Hw [M L] H IH]; now constructor.
Qed.

(** The replacement has one result. *)
Lemma Substituted_functional r repl : forall s out,
  Substituted r repl s out -> forall out', Substituted r repl s out' -> out = out'.
Proof.
  intros s out H.
  induction H as [|c s out Hc H IH|w rest out Hw [M L] H IH]; intros out' H';
    apply Substituted_inv in H'
      as [[E ->] | [(c' & s' & o' & E & -> & Hc' & H') |
                    (w' & rest' & o' & E & -> & Hw' & [M' L'] & H')]].
  - reflexivity.
  - discriminate.
  - symmetry in E. apply app_eq_nil in E as [-> _]. congruence.
  - discriminate.
  - injection E as <- <-. f_equal. now apply IH.
  - exfalso. apply Hc. exists w', rest'. auto.
  - apply app_eq_nil in E as [-> _]. congruence.
  - exfalso. apply Hc'. rewrite <- E. exists w, rest. auto.
  - pose proof (L w' rest' E M') as L1.
    pose proof (L' w rest (eq_sym E) M) as L2.
    apply app_same_length in E as [<- <-]; [|lia].
    f_equal. now apply IH.
Qed.

Lemma taxonomy_pass : forall d s,
  Forall (fun kv => fst kv <> []) d -> TaxonomyPass d s (fold_left taxonomy_step d s).
Proof.
  induction d as [|[k v] d IH]; intros s Hd; simpl.
  - constructor.
  - inversion Hd as [|? ? Hk Hd']; subst. simpl in Hk.
    apply Pass_term with (s' := taxonomy_step s (k, v)).
    + apply sub_Substituted; [|apply escaped_picks_longest].
      rewrite min_length_escaped. destruct k; [congruence | simpl; lia].
    + now apply IH.
Qed.

Lemma TaxonomyPass_functional : forall d s out,
  TaxonomyPass d s out -> forall out', TaxonomyPass d s out' -> out = out'.
Proof.
  intros d s out H.
  induction H as [s|k v d s s' out Hs H IH]; intros out' H'.
  - now inversion H'.
  - inversion H' as [|? ? ? ? s'' ? Hs' H'']; subst.
    rewrite <- (Substituted_functional _ _ _ _ Hs _ Hs') in H''. now apply IH.
Qed.

Lemma init_keys_nonempty : Forall (fun kv : text * text => fst kv <> []) (taxonomy init).
Proof. repeat constructor; discriminate. Qed.

(** The fallback path computes what [FallbackHardened] describes, and nothing else
    is so described. *)
Lemma fallback_is_hardened txt :
  FallbackHardened (taxonomy init) txt (fallback_harden init txt).
Proof.
  exists (Re.sub Re.EMAIL ID_GATEWAY txt),
         (Re.sub Re.PHONE VERIFIED_LINE (Re.sub Re.EMAIL ID_GATEWAY txt)).
  split; [apply sub_Substituted; [simpl; lia | exact email_picks_longest]|].
  split; [apply sub_Substituted; [simpl; lia | exact phone_picks_longest]|].
  unfold fallback_harden. apply taxonomy_pass, init_keys_nonempty.
Qed.

Lemma FallbackHardened_functional d txt out out' :
  FallbackHardened d txt out -> FallbackHardened d txt out' -> out = out'.
Proof.
  intros (t1 & t2 & H1 & H2 & H3) (u1 & u2 & G1 & G2 & G3).
  rewrite <- (Substituted_functional _ _ _ _ H1 _ G1) in G2.
  rewrite <- (Substituted_functional _ _ _ _ H2 _ G2) in G3.
  exact (TaxonomyPass_functional _ _ _ H3 _ G3).
Qed.

(** C2. The fallback path replaces, from the left, every email-shaped substring of
    the text by "[ID_GATEWAY]", then every phone-shaped substring of the result by
    "[VERIFIED_LINE]", then, term after term in taxonomy order, every stretch that
    is the term up to case by the label of the term.  Each substring that is
    replaced starts at the left-most place where one starts and is the longest
    that starts there, which leaves one result: the one [fallback_harden] returns.
    A stretch is the term up to case when it matches it character by character
    with case ignored.  "Contact me at jane@acme.com" becomes "Contact me at
    [ID_GATEWAY]", "Call 9876543210 now" becomes "Call [VERIFIED_LINE] now", and
    "I am a Manager at Google" becomes "I am a Strategic Director at a Tier-1 Tech
    Corporation". *)
Theorem C2_fallback_order :
  (forall txt out,
     FallbackHardened (taxonomy init) txt out <-> out = fallback_harden init txt) /\
  (forall k w, Matches (Re.compile_escaped_ignorecase k) w <->
               Forall2 (fun p c => Re.ignorecase_matches p c = true) k w) /\
  fallback_harden init (cps "Contact me at jane@acme.com") =
    cps "Contact me at [ID_GATEWAY]" /\
  fallback_harden init (cps "Call 9876543210 now") = cps "Call [VERIFIED_LINE] now" /\
  fallback_harden init (cps "Mail a@b.cd or ring +91 9876543210, Google SQL manager") =
    cps "Mail [ID_GATEWAY] or ring [VERIFIED_LINE], a Tier-1 Tech Corporation " ++
    cps "Structured Database Systems Strategic Director" /\
  fallback_harden init (cps "I am a Manager at Google") =
    cps "I am a Strategic Director at a Tier-1 Tech Corporation".
Proof.
  split; [|split; [exact escaped_Matches | repeat split; vm_compute; reflexivity]].
  intros txt out. split.
  - intro H. exact (FallbackHardened_functional _ _ _ _ H (fallback_is_hardened txt)).
  - intros ->. apply fallback_is_hardened.
Qed.

(** ** A term inside a longer word *)

(** A stretch between two characters that the pattern cannot hold is substituted
    by itself. *)
Lemma sub_fenced r repl p q :
  0 < min_length r -> may_hold r p = false -> may_hold r q = false ->
  forall a M b,
  Re.sub r repl (a ++ p :: M ++ q :: b) =
  Re.sub r repl a ++ p :: Re.sub r repl M ++ q :: Re.sub r repl b.
Proof.
  intros Hr Hp Hq a M b.
  now rewrite (sub_barrier r repl p (M ++ q :: b) Hr Hp a), (sub_barrier r repl q b Hr Hq M).
Qed.

Lemma Replaced_nil r repl out : Replaced r repl [] out -> out = [].
Proof.
  intro H. remember [] as s eqn:E. destruct H as [|c s out Hc H|w rest out Hw M H].
  - reflexivity.
  - discriminate.
  - apply app_eq_nil in E as [-> _]. congruence.
Qed.

(** A character that ends no match stays where it is at the end of the text. *)
Lemma Replaced_last r repl c :
  (forall w, ~ Matches r (w ++ [c])) ->
  forall s out, Replaced r repl s out ->
  forall s', s = s' ++ [c] -> exists out', out = out' ++ [c].
Proof.
  intros Hc s out H.
  induction H as [|x s out Hx H IH|w rest out Hw M H IH]; intros s' E.
  - destruct s'; discriminate.
  - destruct s' as [|y s']; simpl in E.
    + injection E as -> ->. apply Replaced_nil in H. subst out. now exists [].
    + injection E as -> ->. destruct (IH s' eq_refl) as [out' ->].
      now exists (y :: out').
  - destruct (@exists_last _ rest) as (rest' & z & ->).
    + intros ->. rewrite app_nil_r in E. subst w. now apply (Hc s').
    + rewrite app_assoc in E. apply app_inj_tail in E as [_ ->].
      destruct (IH rest' eq_refl) as [out' ->].
      exists (repl ++ out'). now rewrite app_assoc.
Qed.

Lemma sub_last r repl c a :
  0 < min_length r -> (forall w, ~ Matches r (w ++ [c])) ->
  exists x, Re.sub r repl (a ++ [c]) = x ++ [c].
Proof.
  intros Hr Hc.
  exact (Replaced_last r repl c Hc _ _ (sub_Replaced r repl Hr (a ++ [c])) a eq_refl).
Qed.

(** No stretch that ends in [c] is the term up to case when [c] does not match the
    last character of the term. *)
Lemma escaped_last k p c : Re.ignorecase_matches p c = false ->
  forall w, ~ Matches (Re.compile_escaped_ignorecase (k ++ [p])) (w ++ [c]).
Proof.
  intros Hc w M. apply escaped_Matches in M.
  apply Forall2_app_inv_l in M as (w1 & w2 & _ & F & E).
  inversion F as [|? x ? l Hx Hl]; subst. inversion Hl; subst.
  apply app_inj_tail in E as [_ ->]. congruence.
Qed.

(** A word that stands between two characters that the pattern cannot hold stays a
    word of the text, with its inside substituted. *)
Lemma fenced_word r repl p q M M' :
  0 < min_length r -> may_hold r p = false -> may_hold r q = false ->
  Re.sub r repl M = M' ->
  forall s, Substring (p :: M ++ [q]) s -> Substring (p :: M' ++ [q]) (Re.sub r repl s).
Proof.
  intros Hr Hp Hq <- s (a & b & ->).
  cbn [app]. rewrite <- app_assoc. cbn [app]. rewrite (sub_fenced r repl p q Hr Hp Hq).
  exists (Re.sub r repl a), (Re.sub r repl b).
  cbn [app]. now rewrite <- app_assoc.
Qed.

(** The same with, before the word, a character that ends no match. *)
Lemma fenced_word_after r repl c p q M :
  0 < min_length r -> (forall w, ~ Matches r (w ++ [c])) ->
  may_hold r p = false -> may_hold r q = false -> Re.sub r repl M = M ->
  forall s, Substring (c :: p :: M ++ [q]) s ->
  Substring (c :: p :: M ++ [q]) (Re.sub r repl s).
Proof.
  intros Hr Hc Hp Hq HM s (a & b & ->).
  cbn [app]. rewrite <- app_assoc. cbn [app].
  change (a ++ c :: p :: M ++ q :: b) with (a ++ [c] ++ p :: M ++ q :: b).
  rewrite app_assoc, (sub_fenced r repl p q Hr Hp Hq), HM.
  destruct (sub_last r repl c a Hr Hc) as [x ->].
  exists x, (Re.sub r repl b).
  rewrite <- !app_assoc. cbn [app]. now rewrite <- app_assoc.
Qed.

(** "mysqldump" in what the email substitution leaves becomes "myStructured
    Database Systemsdump": no number and no other term reaches into the word. *)
Lemma mysqldump_rewritten t1 :
  Substring (cps "mysqldump") t1 ->
  Substring (cps "myStructured Database Systemsdump")
    (fold_left taxonomy_step (taxonomy init) (Re.sub Re.PHONE VERIFIED_LINE t1)).
Proof.
  intro H.
  change (cps "mysqldump") with (0x6D%N :: cps "ysqldum" ++ [0x70%N]) in H.
  apply (fenced_word Re.PHONE VERIFIED_LINE _ _ _ (cps "ysqldum")) in H;
    [|simpl; lia|reflexivity|reflexivity|vm_compute; reflexivity].
  cbn [taxonomy init fold_left]. unfold taxonomy_step. cbn [fst snd].
  apply (fenced_word (Re.compile_escaped_ignorecase (cps "google"))
           (cps "a Tier-1 Tech Corporation") _ _ _ (cps "ysqldum")) in H;
    [|simpl; lia|vm_compute; reflexivity|vm_compute; reflexivity|vm_compute; reflexivity].
  change (0x6D%N :: cps "ysqldum" ++ [0x70%N])
    with (0x6D%N :: 0x79%N :: cps "sqldum" ++ [0x70%N]) in H.
  apply (fenced_word_after (Re.compile_escaped_ignorecase (cps "microsoft"))
           (cps "a Global Software Leader")) in H;
    [|simpl; lia
     |apply (escaped_last (cps "microsof") 0x74%N); vm_compute; reflexivity
     |vm_compute; reflexivity|vm_compute; reflexivity|vm_compute; reflexivity].
  apply (fenced_word_after (Re.compile_escaped_ignorecase (cps "manager"))
           (cps "Strategic Director")) in H;
    [|simpl; lia
     |apply (escaped_last (cps "manage") 0x72%N); vm_compute; reflexivity
     |vm_compute; reflexivity|vm_compute; reflexivity|vm_compute; reflexivity].
  change (0x6D%N :: 0x79%N :: cps "sqldum" ++ [0x70%N])
    with (0x6D%N :: cps "ysqldum" ++ [0x70%N]) in H.
  apply (fenced_word (Re.compile_escaped_ignorecase (cps "engineer"))
           (cps "Technical Specialist") _ _ _ (cps "ysqldum")) in H;
    [|simpl; lia|vm_compute; reflexivity|vm_compute; reflexivity|vm_compute; reflexivity].
  apply (fenced_word (Re.compile_escaped_ignorecase (cps "sql"))
           (cps "Structured Database Systems") _ _ _
           (cps "yStructured Database Systemsdum")) in H;
    [|simpl; lia|vm_compute; reflexivity|vm_compute; reflexivity|vm_compute; reflexivity].
  apply (fenced_word (Re.compile_escaped_ignorecase (cps "hyderabad"))
           (cps "a major Tech Hub") _ _ _
           (cps "yStructured Database Systemsdum")) in H;
    [|simpl; lia|vm_compute; reflexivity|vm_compute; reflexivity|vm_compute; reflexivity].
  exact H.
Qed.

(** C7, as the code has it.  Matching is by substring: "sql" inside any longer
    text makes the scorer add 15 and report the SQL line, and "mysqldump" alone is
    scored 15 with that line only.  The fallback path rewrites the "sql" inside
    "mysqldump" wherever the email substitution, which runs first, has left the
    word in the text, as it does in every text without an email-shaped substring:
    "mysqldump" becomes "myStructured Database Systemsdump". *)
Theorem C7_substring_matching :
  (forall pre post,
     In (cps "RECON: Connection to SQL found.")
        (snd (simulate_adversary init (pre ++ cps "sql" ++ post))) /\
     (15 <= fst (simulate_adversary init (pre ++ cps "sql" ++ post)))%Z) /\
  simulate_adversary init (cps "mysqldump") =
    (15%Z, [cps "RECON: Connection to SQL found."]) /\
  fallback_harden init (cps "mysqldump") = cps "myStructured Database Systemsdump" /\
  (forall txt,
     Substring (cps "mysqldump") (Re.sub Re.EMAIL ID_GATEWAY txt) ->
     Substring (cps "myStructured Database Systemsdump") (fallback_harden init txt)) /\
  (forall pre post,
     ~ Occurs Re.EMAIL (pre ++ cps "mysqldump" ++ post) ->
     Substring (cps "myStructured Database Systemsdump")
       (fallback_harden init (pre ++ cps "mysqldump" ++ post))).
Proof.
  assert (G : forall txt,
            Substring (cps "mysqldump") (Re.sub Re.EMAIL ID_GATEWAY txt) ->
            Substring (cps "myStructured Database Systemsdump") (fallback_harden init txt)).
  { intros txt H. unfold fallback_harden. cbn zeta. now apply mysqldump_rewritten. }
  split; [|split; [vm_compute; reflexivity|split; [vm_compute; reflexivity|split]]].
  - intros pre post.
    assert (F : In (cps "sql") (fired (taxonomy init) (pre ++ cps "sql" ++ post))).
    { apply fired_spec. split; [vm_compute; tauto|].
      apply lower_substring.
      repeat constructor; apply lowers_to_LowersTo; vm_compute; reflexivity. }
    split.
    + change (cps "RECON: Connection to SQL found.") with (RECON (cps "sql")).
      now apply hit_line.
    + apply (score_floor init _ [cps "sql"] false).
      * repeat constructor. intros [].
      * intros k [<- | []]. exact F.
      * discriminate.
  - exact G.
  - intros pre post H. apply G. rewrite (sub_identity _ _ _ H). now exists pre, post.
Qed.

Lemma C7_substring_matching_witness :
  Substring (cps "myStructured Database Systemsdump")
    (fallback_harden init (cps "Ask a@b.co: mysqldump runs nightly")) /\
  Substring (cps "myStructured Database Systemsdump")
    (fallback_harden init (cps "the " ++ cps "mysqldump" ++ cps " job")).
Proof.
  split.
  - apply (proj1 (proj2 (proj2 (proj2 C7_substring_matching)))).
    apply contains_spec. vm_compute. reflexivity.
  - apply (proj2 (proj2 (proj2 (proj2 C7_substring_matching)))).
    apply search_none_occurs. vm_compute. reflexivity.
Defined.

(** C7 as stated fails.  "x@mysqldump.co" contains "mysqldump", and the scorer
    reports the SQL line; but the fallback path replaces the whole address first,
    and no taxonomy substitution takes place: the label of "sql" is not in the
    result. *)
Lemma C7_counterexample :
  Substring (cps "mysqldump") (cps "x@mysqldump.co") /\
  In (cps "RECON: Connection to SQL found.")
     (snd (simulate_adversary init (cps "x@mysqldump.co"))) /\
  fallback_harden init (cps "x@mysqldump.co") = cps "[ID_GATEWAY]" /\
  ~ Substring (cps "Structured Database Systems")
      (fallback_harden init (cps "x@mysqldump.co")).
Proof.
  split; [apply contains_spec; vm_compute; reflexivity|].
  split; [vm_compute; tauto|]. split; [vm_compute; reflexivity|].
  intro H. apply contains_spec in H. vm_compute in H. discriminate.
Qed.
